(** * hOCRedit: word/line segmentation and accuracy metrics

    A shallow embedding of the segmentation code of
    [internal/services/ocr/ocr.go] (packages [ocr] and [hocr]), of the
    cleaning of the transcription and the conversion of the detected lines
    in the same file, and of the metrics package, with the properties of
    the design document and further properties of the code stated and
    proved about them. *)

From Stdlib Require Import ZArith List Lia Bool String Ascii DecimalString.
From Stdlib Require Import Permutation Sorted QArith.
From stdpp Require Import base list sorting.

Import ListNotations.
Open Scope Z_scope.

(** ** Go's [int] on a 64-bit platform

    Values are mathematical integers in [[int_min, int_max]]; every
    arithmetic operator wraps around. *)

Module GoInt.

Definition int_min : Z := - 2 ^ 63.
Definition int_max : Z := 2 ^ 63 - 1.

Definition wrap (z : Z) : Z := (z + 2 ^ 63) mod 2 ^ 64 - 2 ^ 63.

Definition in_range (z : Z) : Prop := int_min <= z <= int_max.

Definition add (a b : Z) : Z := wrap (a + b).
Definition sub (a b : Z) : Z := wrap (a - b).
Definition neg (a : Z) : Z := wrap (- a).
(** Go's [/] truncates toward zero. *)
Definition quot (a b : Z) : Z := wrap (Z.quot a b).

(** [len(s)] of a slice. *)
Definition len {A} (l : list A) : Z := Z.of_nat (length l).

End GoInt.

Import GoInt.

Declare Scope goint_scope.
Delimit Scope goint_scope with goint.
Infix "[+]" := add (at level 50, left associativity) : goint_scope.
Infix "[-]" := sub (at level 50, left associativity) : goint_scope.
Infix "[/]" := quot (at level 40, left associativity) : goint_scope.
Open Scope goint_scope.

(** [func max(a, b int) int] and [func abs(x int) int] of ocr.go. *)
Definition max (a b : Z) : Z := if a >? b then a else b.
Definition abs (x : Z) : Z := if x <? 0 then neg x else x.

(** ** Data model *)

(** [type WordBox struct { X, Y, Width, Height int; Text string }] *)
Record WordBox : Type := mkWordBox {
  X : Z;
  Y : Z;
  Width : Z;
  Height : Z;
  Text : string
}.

(** [type LineBox struct { Words []WordBox; X, Y, Width, Height int }] *)
Record LineBox : Type := mkLineBox {
  Words : list WordBox;
  LX : Z;
  LY : Z;
  LWidth : Z;
  LHeight : Z
}.

(** A [color.Color] is observed by the code only through its [RGBA()]
    method; the record holds the four [uint32] values that method returns
    (red, green and blue as the method reports them, then alpha). *)
Record Color : Type := mkColor {
  c_r : Z;
  c_g : Z;
  c_b : Z;
  c_a : Z
}.

(** [uint32] arithmetic wraps modulo 2^32. *)
Definition wrap32 (z : Z) : Z := z mod 2 ^ 32.

(** The [Color] interface promises channel values within [[0, 0xffff]]. *)
Definition channel_ok (z : Z) : Prop := 0 <= z <= 65535.

(** Three colour types of the standard library's [image/color] that
    implement [color.Color]: [color.RGBA] (8 bits per channel, the colour
    channels stored alpha-premultiplied), [color.NRGBA] (8 bits per
    channel, not premultiplied) and [color.Gray]. The fields are
    [uint8]. *)
Inductive color_Color : Type :=
  | color_RGBA (r g b a : Z)
  | color_NRGBA (r g b a : Z)
  | color_Gray (y : Z).

Definition uint8_ok (z : Z) : Prop := 0 <= z <= 255.

(** [v := uint32(c.V); v |= v << 8] *)
Definition spread (v : Z) : Z := Z.lor v (wrap32 (Z.shiftl v 8)).

(** [v := uint32(c.V); v |= v << 8; v *= uint32(c.A); v /= 0xff] *)
Definition premultiply (v a : Z) : Z := wrap32 (spread v * a) / 255.

(** The [RGBA()] methods of the three types. *)
Definition RGBA (c : color_Color) : Color :=
  match c with
  | color_RGBA r g b a => mkColor (spread r) (spread g) (spread b) (spread a)
  | color_NRGBA r g b a =>
      mkColor (premultiply r a) (premultiply g a) (premultiply b a) (spread a)
  | color_Gray y => mkColor (spread y) (spread y) (spread y) 65535
  end.

(** An [image.Image] whose bounds start at the origin: [Dx], [Dy] are
    [img.Bounds().Dx()] and [img.Bounds().Dy()], [At] is [img.At]. *)
Record Image : Type := mkImage {
  Dx : Z;
  Dy : Z;
  At : Z -> Z -> Color
}.

(** [fmt.Sprintf("%d", n)] *)
Definition sprintf_d (n : Z) : string := NilZero.string_of_int (Z.to_int n).

(** ** PixelClassifier and ComponentFilter *)

(** [r, g, b, _ := c.RGBA(); gray := (r + g + b) / 3; return gray < 32768] *)
Definition isTextPixel (c : Color) : bool :=
  let gray := wrap32 (wrap32 (c_r c + c_g c) + c_b c) / 3 in
  gray <? 32768.

Definition isValidWordSize (w h imgWidth imgHeight : Z) : bool :=
  let minWidth := 8 in
  let minHeight := 10 in
  let maxWidth := imgWidth [/] 2 in
  let maxHeight := imgHeight [/] 5 in
  (w >=? minWidth) && (h >=? minHeight) && (w <=? maxWidth) && (h <=? maxHeight).

(** ** Outcomes of code that can panic or exhaust the goroutine stack *)

Inductive outcome (A : Type) : Type :=
  | Done (a : A)
  | Panic
  | StackOverflow.

Arguments Done {A} a.
Arguments Panic {A}.
Arguments StackOverflow {A}.

#[global] Instance outcome_ret : MRet outcome := fun A a => Done a.
#[global] Instance outcome_bind : MBind outcome := fun A B f m =>
  match m with
  | Done a => f a
  | Panic => Panic
  | StackOverflow => StackOverflow
  end.

(** An indexing expression [s[i]] panics when [i] is out of range. *)
Definition index {A} (s : list A) (i : Z) : outcome A :=
  if i <? 0 then Panic
  else match s !! Z.to_nat i with
       | Some a => Done a
       | None => Panic
       end.

(** A [for _, e := range l] loop whose body threads a state and may fail. *)
Fixpoint foldM {A B} (f : B -> A -> outcome B) (l : list A) (b : B) : outcome B :=
  match l with
  | [] => Done b
  | a :: l' =>
      match f b a with
      | Done b' => foldM f l' b'
      | Panic => Panic
      | StackOverflow => StackOverflow
      end
  end.

(** The values [0, 1, ..., n-1] of a counting loop [for i := 0; i < n; i++]. *)
Definition upto (n : Z) : list Z := map Z.of_nat (seq 0 (Z.to_nat n)).

(** ** ComponentFinder *)

(** The visited mask together with the four bounding-box cells that
    [floodFillComponent] updates through pointers. *)
Record FillState : Type := mkFillState {
  visited : list (list bool);
  minX : Z;
  minY : Z;
  maxX : Z;
  maxY : Z
}.

(** [visited[y][x]] *)
Definition visitedAt (v : list (list bool)) (x y : Z) : outcome bool :=
  row ← index v y; index row x.

(** [visited[y][x] = true] *)
Definition markVisited (v : list (list bool)) (x y : Z) : outcome (list (list bool)) :=
  row ← index v y;
  _ ← index row x;
  Done (<[Z.to_nat y := <[Z.to_nat x := true]> row]> v).

Definition directions : list (Z * Z) :=
  [(-1, -1); (-1, 0); (-1, 1); (0, -1); (0, 1); (1, -1); (1, 0); (1, 1)].

(** [floodFillComponent] calls itself for each of the eight neighbours.
    [stack] is the number of nested activations the goroutine stack can
    still hold; each call uses one. *)
Fixpoint floodFillComponent (stack : nat) (img : Image) (x y : Z)
    (st : FillState) : outcome FillState :=
  match stack with
  | O => StackOverflow
  | S stack' =>
      if (x <? 0) || (x >=? Dx img) || (y <? 0) || (y >=? Dy img) then Done st
      else
        seen ← visitedAt (visited st) x y;
        if seen || negb (isTextPixel (At img x y)) then Done st
        else
          v' ← markVisited (visited st) x y;
          let minX' := if x <? minX st then x else minX st in
          let maxX' := if x >? maxX st then x else maxX st in
          let minY' := if y <? minY st then y else minY st in
          let maxY' := if y >? maxY st then y else maxY st in
          foldM (fun s dir =>
                   floodFillComponent stack' img (x [+] fst dir) (y [+] snd dir) s)
                directions (mkFillState v' minX' minY' maxX' maxY')
  end.

(** [make([][]bool, height)] with every row [make([]bool, width)]. *)
Definition makeVisited (width height : Z) : outcome (list (list bool)) :=
  if (height <? 0) || ((0 <? height) && (width <? 0)) then Panic
  else Done (replicate (Z.to_nat height) (replicate (Z.to_nat width) false)).

(** The body of the inner loop of [findWordComponents] at pixel (x, y). *)
Definition scanPixel (stack : nat) (img : Image) (y : Z)
    (s : list (list bool) * list WordBox) (x : Z)
    : outcome (list (list bool) * list WordBox) :=
  let '(v, components) := s in
  seen ← visitedAt v x y;
  if negb seen && isTextPixel (At img x y) then
    st ← floodFillComponent stack img x y (mkFillState v x y x y);
    let w := maxX st [-] minX st [+] 1 in
    let h := maxY st [-] minY st [+] 1 in
    if isValidWordSize w h (Dx img) (Dy img) then
      Done (visited st,
            components ++
              [mkWordBox (minX st) (minY st) w h
                 ("word_" ++ sprintf_d (len components [+] 1))])
    else Done (visited st, components)
  else Done s.

Definition findWordComponents (stack : nat) (img : Image) : outcome (list WordBox) :=
  let width := Dx img in
  let height := Dy img in
  v ← makeVisited width height;
  s ← foldM (fun s y => foldM (scanPixel stack img y) (upto width) s)
            (upto height) (v, []);
  Done (snd s).

(** ** ComponentMerger *)

(** The body of the loop over [group[1:]] in [mergeComponentGroup] (and,
    with the same text, over [words[1:]] in [createLineFromWords]), on the
    running [(minX, minY, maxX, maxY)]. *)
Definition expandBounds (acc : Z * Z * Z * Z) (comp : WordBox) : Z * Z * Z * Z :=
  let '(minX, minY, maxX, maxY) := acc in
  let minX := if X comp <? minX then X comp else minX in
  let minY := if Y comp <? minY then Y comp else minY in
  let maxX := if X comp [+] Width comp >? maxX then X comp [+] Width comp else maxX in
  let maxY := if Y comp [+] Height comp >? maxY then Y comp [+] Height comp else maxY in
  (minX, minY, maxX, maxY).

(** [minX, minY := g0.X, g0.Y; maxX, maxY := g0.X+g0.Width, g0.Y+g0.Height] *)
Definition initBounds (g0 : WordBox) : Z * Z * Z * Z :=
  (X g0, Y g0, X g0 [+] Width g0, Y g0 [+] Height g0).

(** [mergeComponentGroup]; indexing [group[0]] panics on an empty group. *)
Definition mergeComponentGroup (group : list WordBox) : outcome WordBox :=
  match group with
  | [g] => Done g
  | [] => Panic
  | g0 :: rest =>
      let '(minX, minY, maxX, maxY) := fold_left expandBounds rest (initBounds g0) in
      Done (mkWordBox minX minY (maxX [-] minX) (maxY [-] minY)
              ("merged_word_" ++ sprintf_d (len group)))
  end.

(** [currentGroup[len(currentGroup)-1]] *)
Definition lastInGroup (currentGroup : list WordBox) : outcome WordBox :=
  index currentGroup (len currentGroup [-] 1).

Section Merger.

(** The package's [shouldMergeComponents]. *)
Variable shouldMerge : WordBox -> WordBox -> bool.

(** One iteration of the loop of [mergeNearbyComponents], on the loop state
    ([currentGroup], [mergedWords]). *)
Definition mergeStep (st : list WordBox * list WordBox) (component : WordBox)
    : outcome (list WordBox * list WordBox) :=
  let '(currentGroup, mergedWords) := st in
  last ← lastInGroup currentGroup;
  if shouldMerge last component then
    Done (currentGroup ++ [component], mergedWords)
  else
    mergedWord ← mergeComponentGroup currentGroup;
    Done ([component], mergedWords ++ [mergedWord]).

Definition mergeNearbyComponentsWith (components : list WordBox)
    : outcome (list WordBox) :=
  match components with
  | [] | [_] => Done components
  | c0 :: rest =>
      st ← foldM mergeStep rest ([c0], []);
      let '(currentGroup, mergedWords) := st in
      if len currentGroup >? 0 then
        mergedWord ← mergeComponentGroup currentGroup;
        Done (mergedWords ++ [mergedWord])
      else Done mergedWords
  end.

End Merger.

(** ** LineGrouper *)

(** The loop of [wordsOnSameLine]: the sum of heights and the vertical
    envelope of the current line, starting from its first word. *)
Definition lineStats (currentLineWords : list WordBox) (w0 : WordBox) : Z * Z * Z :=
  fold_left
    (fun '(avgHeight, minY, maxY) word =>
       (avgHeight [+] Height word,
        if Y word <? minY then Y word else minY,
        if Y word [+] Height word >? maxY then Y word [+] Height word else maxY))
    currentLineWords (0, Y w0, Y w0 [+] Height w0).

(** [currentLineTop] and [currentLineBottom] of [wordsOnSameLine]. *)
Definition lineEnvelope (currentLineWords : list WordBox) (w0 : WordBox) : Z * Z :=
  let '(avgHeight, minY, maxY) := lineStats currentLineWords w0 in
  let avgHeight := avgHeight [/] len currentLineWords in
  let tolerance := avgHeight [/] 3 in
  let currentLineBottom := maxY [+] tolerance in
  let currentLineTop := minY [-] tolerance in
  (currentLineTop, currentLineBottom).

Definition createLineFromWords (words : list WordBox) : LineBox :=
  match words with
  | [] => mkLineBox [] 0 0 0 0
  | w0 :: rest =>
      let '(minX, minY, maxX, maxY) := fold_left expandBounds rest (initBounds w0) in
      mkLineBox words minX minY (maxX [-] minX) (maxY [-] minY)
  end.

(** The comparator handed to [sort.Slice] by [refineComponentsToWords]. *)
Definition lessComponents (a b : WordBox) : bool :=
  if abs (Y a [-] Y b) <? 10 then X a <? X b else Y a <? Y b.

(** The comparator handed to [sort.Slice] by [groupWordsIntoLines]. *)
Definition lessWords (a b : WordBox) : bool :=
  if abs (Y a [-] Y b) <? Height a [/] 2 then X a <? X b else Y a <? Y b.

Section Grouper.

(** [sort.Slice] of the Go standard library, applied to a comparator on
    elements. *)
Variable sort_Slice : (WordBox -> WordBox -> bool) -> list WordBox -> list WordBox.

(** The package's [wordsOnSameLine]. *)
Variable sameLine : list WordBox -> WordBox -> bool.

(** One iteration of the loop of [groupWordsIntoLines], on the loop state
    ([currentLineWords], [lines]). *)
Definition groupStep (st : list WordBox * list LineBox) (word : WordBox)
    : list WordBox * list LineBox :=
  let '(currentLineWords, lines) := st in
  if len currentLineWords =? 0 then (currentLineWords ++ [word], lines)
  else if sameLine currentLineWords word then (currentLineWords ++ [word], lines)
  else
    let lines :=
      if len currentLineWords >? 0
      then lines ++ [createLineFromWords currentLineWords] else lines in
    ([word], lines).

Definition groupWordsIntoLinesWith (words : list WordBox) : list LineBox :=
  if len words =? 0 then []
  else
    let words := sort_Slice lessWords words in
    let '(currentLineWords, lines) := fold_left groupStep words ([], []) in
    if len currentLineWords >? 0
    then lines ++ [createLineFromWords currentLineWords] else lines.

End Grouper.

(** ** The two packages *)

Module Ocr.

Definition shouldMergeComponents (a b : WordBox) : bool :=
  let horizontalGap := X b [-] (X a [+] Width a) in
  let verticalOverlap :=
    negb ((Y b [+] Height b <? Y a) || (Y b >? Y a [+] Height a)) in
  let maxGap := max (Height a) (Height b) [/] 3 in
  (horizontalGap >=? 0) && (horizontalGap <=? maxGap) && verticalOverlap.

Definition wordsOnSameLine (currentLineWords : list WordBox) (newWord : WordBox) : bool :=
  match currentLineWords with
  | [] => true
  | w0 :: _ =>
      let '(currentLineTop, currentLineBottom) := lineEnvelope currentLineWords w0 in
      negb ((Y newWord [+] Height newWord <? currentLineTop)
            || (Y newWord >? currentLineBottom))
  end.

Definition mergeNearbyComponents := mergeNearbyComponentsWith shouldMergeComponents.

Definition refineComponentsToWords sort_Slice (components : list WordBox) :=
  if len components =? 0 then Done components
  else mergeNearbyComponents (sort_Slice lessComponents components).

Definition groupWordsIntoLines sort_Slice :=
  groupWordsIntoLinesWith sort_Slice wordsOnSameLine.

End Ocr.

Module Hocr.

Definition shouldMergeComponents (a b : WordBox) : bool :=
  let horizontalGap := X b [-] (X a [+] Width a) in
  let verticalOverlap :=
    (Y b [+] Height b >=? Y a) && (Y b <=? Y a [+] Height a) in
  let maxGap := max (Height a) (Height b) [/] 3 in
  (horizontalGap >=? 0) && (horizontalGap <=? maxGap) && verticalOverlap.

Definition wordsOnSameLine (currentLineWords : list WordBox) (newWord : WordBox) : bool :=
  match currentLineWords with
  | [] => true
  | w0 :: _ =>
      let '(currentLineTop, currentLineBottom) := lineEnvelope currentLineWords w0 in
      (Y newWord [+] Height newWord >=? currentLineTop)
      && (Y newWord <=? currentLineBottom)
  end.

Definition mergeNearbyComponents := mergeNearbyComponentsWith shouldMergeComponents.

Definition refineComponentsToWords sort_Slice (components : list WordBox) :=
  if len components =? 0 then Done components
  else mergeNearbyComponents (sort_Slice lessComponents components).

Definition groupWordsIntoLines sort_Slice :=
  groupWordsIntoLinesWith sort_Slice wordsOnSameLine.

End Hocr.

(** ** Insertion sort of the Go standard library

    [sort.Slice] sorts a slice of at most twelve elements by
    [insertionSort_func]: element [i] is swapped leftwards while it is less
    than its left neighbour. *)
Section InsertionSort.

Context {A : Type}.
Variable less : A -> A -> bool.

(** The inner loop, on the sorted prefix held in reverse (nearest
    neighbour first); the result is again in reverse. *)
Fixpoint sinkLeft (x : A) (revPrefix : list A) : list A :=
  match revPrefix with
  | [] => [x]
  | y :: r => if less x y then y :: sinkLeft x r else x :: y :: r
  end.

Definition insertionSort_func (data : list A) : list A :=
  rev (fold_left (fun revPrefix x => sinkLeft x revPrefix) data []).

End InsertionSort.

(** ** Metrics package *)

Module Metrics.

(** Modelled from the spec: the record of counts that the backtracking of
    the edit-distance matrix yields (the AlignmentResult of the data
    model); the metrics source file is not part of the sources at hand. *)
Record AlignmentResult : Type := mkAlignment {
  matches : nat;
  substitutions : nat;
  deletions : nat;
  insertions : nat
}.

Section EditDistance.

Context {T : Type}.
Variable eqb : T -> T -> bool.

(** Modelled from the spec: one row of the cost matrix of the
    EditDistanceEngine, filled left to right from the row above ([prev],
    starting at the cell above-left) and the cell to the left ([left]);
    substitution, insertion and deletion cost 1 each. *)
Fixpoint nextRow (r : T) (candidate : list T) (prev : list nat) (left : nat)
    : list nat :=
  match candidate, prev with
  | c :: candidate', diag :: ((up :: _) as prev') =>
      let cost := if eqb r c then 0%nat else 1%nat in
      let v := Nat.min (Nat.min (up + 1) (left + 1)) (diag + cost) in
      v :: nextRow r candidate' prev' v
  | _, _ => []
  end.

(** Modelled from the spec: rows [i, i+1, ...] of the cost matrix, one per
    element of the reference, each starting with its row number. *)
Fixpoint rowsFrom (reference candidate : list T) (prev : list nat) (i : nat)
    : list (list nat) :=
  match reference with
  | [] => []
  | r :: reference' =>
      let cur := i :: nextRow r candidate prev i in
      cur :: rowsFrom reference' candidate cur (S i)
  end.

(** Modelled from the spec: the [(len(reference)+1) x (len(candidate)+1)]
    cost matrix, whose first row is [0, 1, ..., len(candidate)]. *)
Definition costMatrix (reference candidate : list T) : list (list nat) :=
  let row0 := seq 0 (S (length candidate)) in
  row0 :: rowsFrom reference candidate row0 1.

(** Modelled from the spec: cell [(i, j)] of the cost matrix. *)
Definition cell (M : list (list nat)) (i j : nat) : nat := nth j (nth i M []) 0%nat.

(** Modelled from the spec: the distance is the final cell of the matrix. *)
Definition distance (reference candidate : list T) : nat :=
  cell (costMatrix reference candidate) (length reference) (length candidate).

(** Modelled from the spec: element [i] of the reference and element [j]
    of the candidate compare equal. *)
Definition sameAt (reference candidate : list T) (i j : nat) : bool :=
  match nth_error reference i, nth_error candidate j with
  | Some a, Some b => eqb a b
  | _, _ => false
  end.

(** Modelled from the spec: the alignment is recovered by walking the
    matrix back from cell [(i, j)] to the origin, preferring on ties
    match, then substitution, then deletion, then insertion. *)
Fixpoint backtrack (fuel : nat) (M : list (list nat)) (reference candidate : list T)
    (i j : nat) (acc : AlignmentResult) : AlignmentResult :=
  match fuel with
  | O => acc
  | S fuel' =>
      match i, j with
      | O, O => acc
      | S i', O =>
          backtrack fuel' M reference candidate i' O
            (mkAlignment (matches acc) (substitutions acc)
               (S (deletions acc)) (insertions acc))
      | O, S j' =>
          backtrack fuel' M reference candidate O j'
            (mkAlignment (matches acc) (substitutions acc)
               (deletions acc) (S (insertions acc)))
      | S i', S j' =>
          if sameAt reference candidate i' j' && (cell M i j =? cell M i' j')%nat then
            backtrack fuel' M reference candidate i' j'
              (mkAlignment (S (matches acc)) (substitutions acc)
                 (deletions acc) (insertions acc))
          else if (cell M i j =? cell M i' j' + 1)%nat then
            backtrack fuel' M reference candidate i' j'
              (mkAlignment (matches acc) (S (substitutions acc))
                 (deletions acc) (insertions acc))
          else if (cell M i j =? cell M i' j + 1)%nat then
            backtrack fuel' M reference candidate i' j
              (mkAlignment (matches acc) (substitutions acc)
                 (S (deletions acc)) (insertions acc))
          else
            backtrack fuel' M reference candidate i j'
              (mkAlignment (matches acc) (substitutions acc)
                 (deletions acc) (S (insertions acc)))
      end
  end.

(** Modelled from the spec: the alignment of two sequences, walked back
    from the final cell. *)
Definition align (reference candidate : list T) : AlignmentResult :=
  backtrack (length reference + length candidate)
    (costMatrix reference candidate) reference candidate
    (length reference) (length candidate) (mkAlignment 0 0 0 0).

End EditDistance.

(** Modelled from the spec: [levenshteinDistance(a, b string) int], the
    edit distance of two strings as character sequences; only its test
    is part of the sources at hand. *)
Definition levenshteinDistance (a b : string) : Z :=
  Z.of_nat (distance Ascii.eqb (list_ascii_of_string a) (list_ascii_of_string b)).

(** Modelled from the spec: the whitespace characters that delimit
    words. *)
Definition isSpace (c : ascii) : bool :=
  match nat_of_ascii c with
  | 9%nat | 10%nat | 11%nat | 12%nat | 13%nat | 32%nat => true
  | _ => false
  end.

(** Modelled from the spec: whitespace-delimited tokenization; [cur] is
    the token being read. *)
Fixpoint fieldsFrom (s : string) (cur : string) : list string :=
  match s with
  | EmptyString => match cur with EmptyString => [] | _ => [cur] end
  | String c s' =>
      if isSpace c then
        match cur with
        | EmptyString => fieldsFrom s' EmptyString
        | _ => cur :: fieldsFrom s' EmptyString
        end
      else fieldsFrom s' (cur ++ String c EmptyString)
  end.

(** Modelled from the spec: the words of a text. *)
Definition fields (s : string) : list string := fieldsFrom s EmptyString.

(** Modelled from the spec: the AccuracyMetrics record; the numeric fields
    that Go holds as [float64] are rationals here. *)
Record AccuracyMetrics : Type := mkMetrics {
  CharacterSimilarity : Q;
  WordSimilarity : Q;
  WordAccuracy : Q;
  WordErrorRate : Q;
  TotalWordsOriginal : Z;
  TotalWordsTranscribed : Z;
  CorrectWords : Z;
  Substitutions : Z;
  Deletions : Z;
  Insertions : Z
}.

(** Modelled from the spec: clamping to [[0, 1]]. *)
Definition clamp01 (q : Q) : Q :=
  if Qle_bool q 0 then 0%Q else if Qle_bool 1 q then 1%Q else q.

(** Modelled from the spec: [ratio a n] is [a / max(1, n)]. *)
Definition ratio (a n : Z) : Q := (inject_Z a / inject_Z (Z.max 1 n))%Q.

(** Modelled from the spec: [CalculateAccuracyMetrics(original, corrected)],
    steps (a) to (c) of the AccuracyScorer; the function is called by
    [handleMetrics] and is not part of the sources at hand. *)
Definition CalculateAccuracyMetrics (original corrected : string) : AccuracyMetrics :=
  let charDistance := levenshteinDistance original corrected in
  let characterSimilarity :=
    clamp01 (1 - ratio charDistance (Z.of_nat (String.length original))) in
  let originalWords := fields original in
  let correctedWords := fields corrected in
  let al := align String.eqb originalWords correctedWords in
  let total := len originalWords in
  let wordAccuracy := ratio (Z.of_nat (matches al)) total in
  let wordErrorRate :=
    ratio (Z.of_nat (substitutions al) + Z.of_nat (deletions al)
           + Z.of_nat (insertions al)) total in
  let wordSimilarity := clamp01 (1 - wordErrorRate) in
  mkMetrics characterSimilarity wordSimilarity wordAccuracy wordErrorRate
    total (len correctedWords)
    (Z.of_nat (matches al)) (Z.of_nat (substitutions al))
    (Z.of_nat (deletions al)) (Z.of_nat (insertions al)).

End Metrics.

(** ** Vocabulary of the properties *)

(** A box in pixel coordinates: it lies in the first quadrant and its far
    edges are representable, so no operation on it wraps around. *)
Definition pixel_box (b : WordBox) : Prop :=
  0 <= X b /\ 0 <= Y b /\ 0 <= Width b /\ 0 <= Height b /\
  X b + Width b <= int_max /\ Y b + Height b <= int_max.

Definition positive_box (b : WordBox) : Prop := 0 < Width b /\ 0 < Height b.

(** The far edges of the members of [group] and the extent of the group
    in both directions are representable, so that neither the sums nor
    the differences that [mergeComponentGroup] computes wrap around. *)
Definition spanRepresentable (group : list WordBox) : Prop :=
  forall a b, In a group -> In b group ->
    in_range (X a + Width a) /\ in_range (Y a + Height a) /\
    in_range (X a + Width a - X b) /\ in_range (Y a + Height a - Y b).

(** The horizontal gap from [a] to [b] lies within
    [[0, max(heightA, heightB)/3]]. *)
Definition gapWithin (a b : WordBox) : Prop :=
  0 <= X b - (X a + Width a) <= Z.quot (Z.max (Height a) (Height b)) 3.

(** The vertical spans [[Y, Y+Height]] of [a] and [b] intersect. *)
Definition spansOverlap (a b : WordBox) : Prop :=
  Y a <= Y b + Height b /\ Y b <= Y a + Height a.

(** [(x0, y0, x1, y1)] are the tight bounds of the boxes [seen]: every box
    lies between them and each of the four is an edge of some box. *)
Definition boundsOf (seen : list WordBox) (acc : Z * Z * Z * Z) : Prop :=
  let '(x0, y0, x1, y1) := acc in
  Forall (fun b => x0 <= X b /\ y0 <= Y b /\
                   X b + Width b <= x1 /\ Y b + Height b <= y1) seen /\
  Exists (fun b => x0 = X b) seen /\
  Exists (fun b => y0 = Y b) seen /\
  Exists (fun b => x1 = X b + Width b) seen /\
  Exists (fun b => y1 = Y b + Height b) seen.

(** [w] is the union bounding box of the members of [group]. *)
Definition unionBox (group : list WordBox) (w : WordBox) : Prop :=
  boundsOf group (X w, Y w, X w + Width w, Y w + Height w).

(** Left-to-right order: non-decreasing X coordinates. *)
Definition leftToRight (ws : list WordBox) : Prop :=
  StronglySorted (fun a b => X a <= X b) ws.

(** The same-row test of the comparator of [groupWordsIntoLines]. *)
Definition sameRow (a b : WordBox) : bool :=
  abs (Y a [-] Y b) <? Height a [/] 2.

(** Both words pass the same-row test of the comparator against the
    other. *)
Definition sameRowBoth (a b : WordBox) : Prop :=
  sameRow a b = true /\ sameRow b a = true.

(** Every two consecutive elements of [l] are related by [R]. *)
Fixpoint neighbours {A} (R : A -> A -> Prop) (l : list A) : Prop :=
  match l with
  | a :: ((b :: _) as rest) => R a b /\ neighbours R rest
  | _ => True
  end.

(** The comparator does not contradict the order "[a] before [b]": it
    does not put [b] before [a], or it puts [a] before [b] as well. *)
Definition uncontradicted {A} (less : A -> A -> bool) (a b : A) : Prop :=
  less b a = false \/ less a b = true.

(** [l] is in non-increasing order of [key]. *)
Definition descending {A} (key : A -> Z) : list A -> Prop :=
  StronglySorted (fun a b => key b <= key a).

(** The words a loop state of [groupWordsIntoLines] holds, in order: those
    of the closed lines, then the current line. *)
Definition held (st : list WordBox * list LineBox) : list WordBox :=
  concat (map Words st.2) ++ st.1.

(** The number of cells of a row, and of the visited mask, that are still
    [false]. *)
Fixpoint countFalse (row : list bool) : nat :=
  match row with
  | [] => 0%nat
  | c :: row' => ((if c then 0 else 1) + countFalse row')%nat
  end.

Fixpoint unvisited (v : list (list bool)) : nat :=
  match v with
  | [] => 0%nat
  | row :: v' => (countFalse row + unvisited v')%nat
  end.

(** The visited mask has one row per image row and one cell per pixel. *)
Definition wellShaped (img : Image) (v : list (list bool)) : Prop :=
  length v = Z.to_nat (Dy img) /\
  Forall (fun row => length row = Z.to_nat (Dx img)) v.

(** The size test of [findWordComponents] on a box of an image. *)
Definition validIn (img : Image) (b : WordBox) : Prop :=
  isValidWordSize (Width b) (Height b) (Dx img) (Dy img) = true.

(** A single row of [n] black pixels, and the untouched mask over it. *)
Definition rowImage (n : Z) : Image := mkImage n 1 (fun _ _ => mkColor 0 0 0 65535).
Definition rowStart (n : Z) : FillState :=
  mkFillState [replicate (Z.to_nat n) false] 0 0 0 0.

(** A dark rectangle of 10 x 11 pixels on a light page of 40 x 60. *)
Definition pageImage : Image :=
  mkImage 40 60
    (fun x y =>
       if (5 <=? x) && (x <? 15) && (3 <=? y) && (y <? 14)
       then mkColor 0 0 0 65535
       else mkColor 65535 65535 65535 65535).

(** Two boxes one pixel apart horizontally whose vertical spans are
    disjoint. *)
Definition boxUpper : WordBox := mkWordBox 0 0 10 10 "a".
Definition boxLower : WordBox := mkWordBox 11 100 10 10 "b".

(** Two words of one text line, the right one slightly higher up. *)
Definition wordRight : WordBox := mkWordBox 100 0 20 10 "right".
Definition wordLeft : WordBox := mkWordBox 0 8 20 10 "left".

(** Two words of one row, the second a little lower. *)
Definition wordFirst : WordBox := mkWordBox 0 0 20 10 "first".
Definition wordSecond : WordBox := mkWordBox 30 2 20 10 "second".

(** Two boxes at the two ends of the range of [int]. *)
Definition boxFarLeft : WordBox := mkWordBox int_min 0 1 1 "a".
Definition boxFarRight : WordBox := mkWordBox (int_max - 1) 0 1 1 "b".

(** Two boxes next to each other, the left one partly at negative
    coordinates. *)
Definition boxOverEdge : WordBox := mkWordBox (-5) 0 10 10 "a".
Definition boxBeside : WordBox := mkWordBox 7 2 10 10 "b".

(** ** Vocabulary of the further properties *)

(** The pixel (x, y) lies inside the image. *)
Definition inBounds (img : Image) (x y : Z) : Prop :=
  0 <= x < Dx img /\ 0 <= y < Dy img.

(** The pixel (x, y) is marked in the visited mask. *)
Definition marked (v : list (list bool)) (x y : Z) : Prop :=
  visitedAt v x y = Done true.

(** The running bounding box of a fill lies inside the image. *)
Definition bboxIn (img : Image) (st : FillState) : Prop :=
  0 <= minX st <= maxX st /\ maxX st < Dx img /\
  0 <= minY st <= maxY st /\ maxY st < Dy img.

(** The pixel (x, y) lies within the running bounding box. *)
Definition inBBox (st : FillState) (x y : Z) : Prop :=
  minX st <= x <= maxX st /\ minY st <= y <= maxY st.

(** The box lies inside the image. *)
Definition insideImage (img : Image) (b : WordBox) : Prop :=
  0 <= X b /\ 0 <= Y b /\ X b + Width b <= Dx img /\ Y b + Height b <= Dy img.

(** The label [findWordComponents] gives to its [k]-th box, counting from
    zero. *)
Definition wordLabel (k : nat) : string :=
  "word_" ++ sprintf_d (Z.of_nat k [+] 1).

(** The fill never unmarks a cell and never shrinks the bounding box. *)
Definition grows (st st' : FillState) : Prop :=
  (forall x y, marked (visited st) x y -> marked (visited st') x y) /\
  minX st' <= minX st /\ maxX st <= maxX st' /\
  minY st' <= minY st /\ maxY st <= maxY st'.

(** The pixel (x, y) is marked in [v'] and was not in [v]. *)
Definition fresh (v v' : list (list bool)) (x y : Z) : Prop :=
  marked v' x y /\ ~ marked v x y.

(** A text pixel inside the image that the mask [v] has not marked. *)
Definition fillable (img : Image) (v : list (list bool)) (x y : Z) : Prop :=
  inBounds img x y /\ isTextPixel (At img x y) = true /\ ~ marked v x y.

(** [reach img v x y x' y']: the pixel (x', y') is joined to (x, y) by a
    path of fillable pixels, each next to the one before in one of the
    eight directions. *)
Inductive reach (img : Image) (v : list (list bool)) (x y : Z) : Z -> Z -> Prop :=
  | reach_seed : fillable img v x y -> reach img v x y x y
  | reach_step x1 y1 dx dy :
      reach img v x y x1 y1 -> In (dx, dy) directions ->
      fillable img v (x1 + dx) (y1 + dy) ->
      reach img v x y (x1 + dx) (y1 + dy).

(** Each edge of the bounding box of [st'] is an edge of that of [st] or
    passes through a pixel marked since. *)
Definition tight (st st' : FillState) : Prop :=
  (minX st' = minX st \/
   exists x y, fresh (visited st) (visited st') x y /\ x = minX st') /\
  (maxX st' = maxX st \/
   exists x y, fresh (visited st) (visited st') x y /\ x = maxX st') /\
  (minY st' = minY st \/
   exists x y, fresh (visited st) (visited st') x y /\ y = minY st') /\
  (maxY st' = maxY st \/
   exists x y, fresh (visited st) (visited st') x y /\ y = maxY st').

(** What a run of fills from [st] to [st'] has done: it only added marks,
    on fillable pixels, all inside a bounding box that is tight, and every
    text pixel next to a newly marked one is marked. *)
Definition fillSpec (img : Image) (st st' : FillState) : Prop :=
  grows st st' /\
  (forall x y, fresh (visited st) (visited st') x y ->
               fillable img (visited st) x y /\ inBBox st' x y) /\
  tight st st' /\
  (forall x y dx dy,
     fresh (visited st) (visited st') x y -> In (dx, dy) directions ->
     inBounds img (x + dx) (y + dy) ->
     isTextPixel (At img (x + dx) (y + dy)) = true ->
     marked (visited st') (x + dx) (y + dy)).

(** What a call of [floodFillComponent] at (x, y) has done on return. *)
Definition callSpec (img : Image) (x y : Z) (st st' : FillState) : Prop :=
  fillSpec img st st' /\
  (inBounds img x y -> isTextPixel (At img x y) = true ->
   marked (visited st') x y) /\
  (forall x' y', fresh (visited st) (visited st') x' y' ->
                 reach img (visited st) x y x' y').

(** The row of eight pixels after it has been filled from its left end. *)
Definition rowFilled : FillState := mkFillState [replicate 8 true] 0 0 7 0.

(** Two text pixels of the image are joined by a path of text pixels, each
    next to the one before in one of the eight directions: they belong to
    the same 8-connected component. *)
Definition connected (img : Image) (x y x' y' : Z) : Prop :=
  reach img [] x y x' y'.

(** Every text pixel next to a marked pixel is marked. *)
Definition closedMask (img : Image) (v : list (list bool)) : Prop :=
  forall x y dx dy,
    marked v x y -> In (dx, dy) directions ->
    inBounds img (x + dx) (y + dy) ->
    isTextPixel (At img (x + dx) (y + dy)) = true ->
    marked v (x + dx) (y + dy).

(** [b] is the exact bounding box of the component of the pixel (x, y):
    it holds every pixel of the component and each of its four edges
    passes through one. *)
Definition exactBox (img : Image) (x y : Z) (b : WordBox) : Prop :=
  (forall x' y', connected img x y x' y' ->
     X b <= x' < X b + Width b /\ Y b <= y' < Y b + Height b) /\
  (exists x' y', connected img x y x' y' /\ x' = X b) /\
  (exists x' y', connected img x y x' y' /\ x' = X b + Width b - 1) /\
  (exists x' y', connected img x y x' y' /\ y' = Y b) /\
  (exists x' y', connected img x y x' y' /\ y' = Y b + Height b - 1).

(** [b] is the exact bounding box of some component of text pixels. *)
Definition componentBox (img : Image) (b : WordBox) : Prop :=
  exists x y, inBounds img x y /\ isTextPixel (At img x y) = true /\
              exactBox img x y b.

(** Two boxes with the same corner and the same size. *)
Definition sameBox (b b' : WordBox) : Prop :=
  X b = X b' /\ Y b = Y b' /\ Width b = Width b' /\ Height b = Height b'.

(** What holds of the mask and the boxes found so far while
    [findWordComponents] scans the image: marked pixels are text pixels of
    the image, text pixels next to marked ones are marked, and for every
    marked pixel the bounding box of its component, if it passes the size
    test, is among the boxes. *)
Definition scanInv (img : Image) (s : list (list bool) * list WordBox) : Prop :=
  closedMask img s.1 /\
  (forall x y, marked s.1 x y ->
               inBounds img x y /\ isTextPixel (At img x y) = true) /\
  (forall x y b, marked s.1 x y -> exactBox img x y b -> validIn img b ->
                 exists b', In b' s.2 /\ sameBox b b').

(** Each member of the group merges with the one before it. *)
Fixpoint chained (shouldMerge : WordBox -> WordBox -> bool) (group : list WordBox)
    : Prop :=
  match group with
  | a :: ((b :: _) as rest) => shouldMerge a b = true /\ chained shouldMerge rest
  | _ => True
  end.

(** The first member of each group does not merge with the last member of
    the group before. *)
Fixpoint separated (shouldMerge : WordBox -> WordBox -> bool)
    (groups : list (list WordBox)) : Prop :=
  match groups with
  | g1 :: ((g2 :: _) as rest) =>
      (forall a b, last g1 = Some a -> head g2 = Some b -> shouldMerge a b = false) /\
      separated shouldMerge rest
  | _ => True
  end.

(** [groups] cuts [components] into the runs that [mergeNearbyComponents]
    merges: consecutive, non-empty, each chained, none extensible. *)
Definition mergeRuns (shouldMerge : WordBox -> WordBox -> bool)
    (components : list WordBox) (groups : list (list WordBox)) : Prop :=
  concat groups = components /\
  Forall (fun g => g <> []) groups /\
  Forall (chained shouldMerge) groups /\
  separated shouldMerge groups.

(** Every word of the line after the first was accepted by the words
    before it. *)
Definition accepted (sameLine : list WordBox -> WordBox -> bool)
    (line : list WordBox) : Prop :=
  forall pre w post, line = pre ++ w :: post -> pre <> [] -> sameLine pre w = true.

(** The first word of each line was refused by the line before. *)
Fixpoint refused (sameLine : list WordBox -> WordBox -> bool)
    (lines : list (list WordBox)) : Prop :=
  match lines with
  | l1 :: ((l2 :: _) as rest) =>
      (forall b, head l2 = Some b -> sameLine l1 b = false) /\
      refused sameLine rest
  | _ => True
  end.

(** [lines] cuts [words] into the lines that [groupWordsIntoLines] builds. *)
Definition lineRuns (sameLine : list WordBox -> WordBox -> bool)
    (words : list WordBox) (lines : list (list WordBox)) : Prop :=
  concat lines = words /\
  Forall (fun l => l <> []) lines /\
  Forall (accepted sameLine) lines /\
  refused sameLine lines.

(** The bounding box of the line is the union of the boxes of [ws]. *)
Definition unionLine (ws : list WordBox) (l : LineBox) : Prop :=
  boundsOf ws (LX l, LY l, LX l + LWidth l, LY l + LHeight l).

(** The box [b] lies within the box [w]. *)
Definition within (b w : WordBox) : Prop :=
  X w <= X b /\ Y w <= Y b /\
  X b + Width b <= X w + Width w /\ Y b + Height b <= Y w + Height w.

(** The vertical span of the box lies in [[0, bound]]. *)
Definition spanBelow (bound : Z) (b : WordBox) : Prop :=
  0 <= Y b /\ 0 <= Height b /\ Y b + Height b <= bound.

(** ** The detection pipeline, from the decoded image on *)

Section Pipeline.

Variable shouldMerge : WordBox -> WordBox -> bool.
Variable sameLine : list WordBox -> WordBox -> bool.
Variable sort_Slice : (WordBox -> WordBox -> bool) -> list WordBox -> list WordBox.

(** [refineComponentsToWords], for the package's [shouldMergeComponents];
    the image dimensions it is handed are not used. *)
Definition refineComponentsToWordsWith (components : list WordBox)
    : outcome (list WordBox) :=
  if len components =? 0 then Done components
  else mergeNearbyComponentsWith shouldMerge (sort_Slice lessComponents components).

(** [detectWords] once the preprocessed image is decoded:
    [findWordComponents], then [refineComponentsToWords]. *)
Definition detectWordsWith (stack : nat) (img : Image) : outcome (list WordBox) :=
  components ← findWordComponents stack img;
  refineComponentsToWordsWith components.

(** [detectWordBoundariesCustom] up to the lines: [detectWords], then
    [groupWordsIntoLines]. *)
Definition detectLinesWith (stack : nat) (img : Image) : outcome (list LineBox) :=
  words ← detectWordsWith stack img;
  Done (groupWordsIntoLinesWith sort_Slice sameLine words).

End Pipeline.

(** The bounding box of the line lies inside the image. *)
Definition lineInside (img : Image) (l : LineBox) : Prop :=
  0 <= LX l /\ 0 <= LY l /\
  LX l + LWidth l <= Dx img /\ LY l + LHeight l <= Dy img.

(** ** Cleaning of the transcription

    Go strings are byte sequences; the cleaning code indexes them by
    byte. Lengths of strings and indices into them are far inside the
    range of [int], so they are natural numbers here. *)

Definition bytes (s : string) : list ascii := list_ascii_of_string s.

(** [a == b] on strings. *)
Fixpoint bytesEqb (a b : list ascii) : bool :=
  match a, b with
  | [], [] => true
  | x :: a', y :: b' => Ascii.eqb x y && bytesEqb a' b'
  | _, _ => false
  end.

(** [s[i] == c]; every use is guarded by [i < len(s)]. *)
Definition byteAt (s : list ascii) (i : nat) (c : ascii) : bool :=
  match s !! i with
  | Some c' => Ascii.eqb c' c
  | None => false
  end.

(** [c >= '0' && c <= '9'] *)
Definition isDigit (c : ascii) : bool :=
  (48 <=? nat_of_ascii c)%nat && (nat_of_ascii c <=? 57)%nat.

(** [validEntities] of [fixAmpersands]. *)
Definition validEntities : list (list ascii) :=
  [bytes "&amp;"; bytes "&lt;"; bytes "&gt;"; bytes "&quot;"; bytes "&apos;";
   bytes "&#39;"].

(** [i+len(entity) <= len(cleanLine) && cleanLine[i:i+len(entity)] == entity] *)
Definition entityAt (cleanLine : list ascii) (i : nat) (entity : list ascii) : bool :=
  (i + length entity <=? length cleanLine)%nat
  && bytesEqb (take (length entity) (drop i cleanLine)) entity.

(** [for j < len(cleanLine) && isDigit(cleanLine[j]) { j++ }], run on
    [suffix = cleanLine[j:]]. *)
Fixpoint skipDigits (suffix : list ascii) (j : nat) : nat :=
  match suffix with
  | c :: rest => if isDigit c then skipDigits rest (S j) else j
  | [] => j
  end.

(** One round of the loop over [i] in [fixAmpersands], the [i++] of the
    loop header included. *)
Definition fixStep (cleanLine : list ascii) (i : nat) : list ascii * nat :=
  if byteAt cleanLine i "&" then
    let '(isValidEntity, i) :=
      match List.find (entityAt cleanLine i) validEntities with
      | Some entity => (true, i + (length entity - 1))%nat
      | None => (false, i)
      end in
    let '(isValidEntity, i) :=
      if negb isValidEntity && (i + 2 <? length cleanLine)%nat
         && byteAt cleanLine (i + 1) "#"
      then
        let j := skipDigits (drop (i + 2) cleanLine) (i + 2) in
        if (j <? length cleanLine)%nat && byteAt cleanLine j ";"
        then (true, j) else (isValidEntity, i)
      else (isValidEntity, i) in
    if negb isValidEntity then
      (take i cleanLine ++ bytes "&amp;" ++ drop (i + 1) cleanLine, S (i + 4))
    else (cleanLine, S i)
  else (cleanLine, S i).

(** [for i := 0; i < len(cleanLine); i++ { ... }]; [rounds] bounds the
    number of rounds. *)
Fixpoint fixLoop (rounds : nat) (cleanLine : list ascii) (i : nat) : list ascii :=
  if (i <? length cleanLine)%nat then
    match rounds with
    | O => cleanLine
    | S rounds' =>
        let '(cleanLine', i') := fixStep cleanLine i in
        fixLoop rounds' cleanLine' i'
    end
  else cleanLine.

(** The body of the loop over the lines: every round leaves fewer bytes
    after [i], so [len(line)] rounds are enough. *)
Definition fixLine (line : list ascii) : list ascii :=
  fixLoop (length line) line 0.

(** [strings.Split(s, sep)] for a separator of one byte. *)
Fixpoint splitByte (sep : ascii) (s : list ascii) : list (list ascii) :=
  match s with
  | [] => [[]]
  | c :: s' =>
      if Ascii.eqb c sep then [] :: splitByte sep s'
      else match splitByte sep s' with
           | part :: parts => (c :: part) :: parts
           | [] => [[c]]
           end
  end.

(** [strings.Join(parts, sep)] for a separator of one byte. *)
Fixpoint joinByte (sep : ascii) (parts : list (list ascii)) : list ascii :=
  match parts with
  | [] => []
  | [part] => part
  | part :: rest => part ++ sep :: joinByte sep rest
  end.

Definition newline : ascii := ascii_of_nat 10.

Definition fixAmpersands (content : list ascii) : list ascii :=
  joinByte newline (map fixLine (splitByte newline content)).

(** A sequence of decimal digits between ["&#"] and [";"], or one of the
    named entities. *)
Definition isEntity (e : list ascii) : Prop :=
  In e validEntities \/
  exists ds, forallb isDigit ds = true /\ e = bytes "&#" ++ ds ++ bytes ";".

(** Every ampersand of the text starts an entity. *)
Inductive Clean : list ascii -> Prop :=
  | Clean_nil : Clean []
  | Clean_char c s : c <> "&"%char -> Clean s -> Clean (c :: s)
  | Clean_entity e s : isEntity e -> Clean s -> Clean (e ++ s).


(** [ampEscaped s s']: [s'] is [s] with some of its ampersands replaced by
    ["&amp;"], and nothing else changed. *)
Inductive ampEscaped : list ascii -> list ascii -> Prop :=
  | ampEscaped_nil : ampEscaped [] []
  | ampEscaped_keep c s s' : ampEscaped s s' -> ampEscaped (c :: s) (c :: s')
  | ampEscaped_amp s s' :
      ampEscaped s s' -> ampEscaped ("&"%char :: s) (bytes "&amp;" ++ s').

(** ** Escaping of the text of span elements *)

(** [strings.HasPrefix(s, prefix)] *)
Fixpoint strings_HasPrefix (s prefix : list ascii) : bool :=
  match prefix, s with
  | [], _ => true
  | p :: prefix', c :: s' => Ascii.eqb c p && strings_HasPrefix s' prefix'
  | _ :: _, [] => false
  end.

(** [strings.Index(s, substr)]: the index of the first instance of
    [substr] in [s]; [None] stands for [-1]. *)
Fixpoint strings_Index (s substr : list ascii) {struct s} : option nat :=
  if strings_HasPrefix s substr then Some 0%nat
  else match s with
       | [] => None
       | _ :: s' => option_map S (strings_Index s' substr)
       end.

(** [strings.Contains(s, substr)] *)
Definition strings_Contains (s substr : list ascii) : bool :=
  match strings_Index s substr with
  | Some _ => true
  | None => false
  end.

(** The loop of [strings.Split] for a separator that is not empty: cut at
    the first instance of [sep] and go on behind it, at most [n] times. *)
Fixpoint genSplit (n : nat) (s sep : list ascii) : list (list ascii) :=
  match n with
  | O => [s]
  | S n' =>
      match strings_Index s sep with
      | Some m => take m s :: genSplit n' (drop (m + length sep) s) sep
      | None => [s]
      end
  end.

(** [strings.Split(s, sep)] for a separator that is not empty; [s] holds
    at most [len(s)] instances of it. *)
Definition strings_Split (s sep : list ascii) : list (list ascii) :=
  genSplit (length s) s sep.

(** [strings.Join(elems, sep)] *)
Fixpoint strings_Join (elems : list (list ascii)) (sep : list ascii) : list ascii :=
  match elems with
  | [] => []
  | [e] => e
  | e :: rest => e ++ sep ++ strings_Join rest sep
  end.

(** [strings.LastIndex(s, string(c))]: the index of the last byte [c] of
    [s], or [-1]. *)
Fixpoint strings_LastIndexByte (s : list ascii) (c : ascii) : Z :=
  match s with
  | [] => -1
  | x :: s' =>
      let r := strings_LastIndexByte s' c in
      if r >=? 0 then r + 1 else if Ascii.eqb x c then 0 else -1
  end.

(** [strings.ReplaceAll(s, string(old), new)] *)
Fixpoint strings_ReplaceAllByte (s : list ascii) (old : ascii) (new : list ascii)
    : list ascii :=
  match s with
  | [] => []
  | c :: s' =>
      if Ascii.eqb c old then new ++ strings_ReplaceAllByte s' old new
      else c :: strings_ReplaceAllByte s' old new
  end.

(** The body of the loop of [escapeTextInSpans], for [part = parts[i]];
    the result is the new [parts[i]]. Indices into a string are far inside
    the range of [int]. *)
Definition escapeSpanPart (part : list ascii) : list ascii :=
  let lastGT := strings_LastIndexByte part ">" in
  if (lastGT >=? 0) && (lastGT <? len part - 1) then
    let before := take (Z.to_nat (lastGT + 1)) part in
    let text := drop (Z.to_nat (lastGT + 1)) part in
    let text := strings_ReplaceAllByte text "<" (bytes "&lt;") in
    let text := strings_ReplaceAllByte text ">" (bytes "&gt;") in
    before ++ text
  else part.

(** [for i := 0; i < len(parts)-1; i++ { ... }]: every part but the
    last. *)
Fixpoint escapeSpanParts (parts : list (list ascii)) : list (list ascii) :=
  match parts with
  | [] => []
  | [part] => [part]
  | part :: rest => escapeSpanPart part :: escapeSpanParts rest
  end.

Definition escapeTextInSpans (line : list ascii) : list ascii :=
  strings_Join (escapeSpanParts (strings_Split line (bytes "</span>")))
               (bytes "</span>").

Definition escapeTextContent (content : list ascii) : list ascii :=
  joinByte newline
    (map (fun line =>
            if strings_Contains line (bytes "<span")
               && strings_Contains line (bytes "</span>")
            then escapeTextInSpans line
            else line)
         (splitByte newline content)).

Definition cleanChatGPTResponse (content : list ascii) : list ascii :=
  escapeTextContent (fixAmpersands content).

(** [ltEscaped s s']: [s'] is [s] with some of its bytes [<] replaced by
    ["&lt;"], and nothing else changed. *)
Inductive ltEscaped : list ascii -> list ascii -> Prop :=
  | ltEscaped_nil : ltEscaped [] []
  | ltEscaped_keep c s s' : ltEscaped s s' -> ltEscaped (c :: s) (c :: s')
  | ltEscaped_lt s s' :
      ltEscaped s s' -> ltEscaped ("<"%char :: s) (bytes "&lt;" ++ s').

(** ** The response handed on to the transcription

    The structures of package [models] that the segmentation fills. The
    [Property] pointers, which this code leaves nil and never reads, are
    left out. *)

Module Models.

(** [type Vertex struct { X, Y int }] *)
Record Vertex : Type := mkVertex { X : Z; Y : Z }.

(** [type BoundingPoly struct { Vertices []Vertex }] *)
Record BoundingPoly : Type := mkBoundingPoly { Vertices : list Vertex }.

(** [type Symbol struct { BoundingBox BoundingPoly; Text string }] *)
Record Symbol : Type := mkSymbol {
  SymbolBoundingBox : BoundingPoly;
  SymbolText : string
}.

(** [type Word struct { BoundingBox BoundingPoly; Symbols []Symbol }] *)
Record Word : Type := mkWord {
  WordBoundingBox : BoundingPoly;
  Symbols : list Symbol
}.

(** [type Paragraph struct { BoundingBox BoundingPoly; Words []Word }] *)
Record Paragraph : Type := mkParagraph {
  ParagraphBoundingBox : BoundingPoly;
  Words : list Word
}.

(** [type Block struct { BoundingBox BoundingPoly; Paragraphs []Paragraph;
    BlockType string }] *)
Record Block : Type := mkBlock {
  BlockBoundingBox : BoundingPoly;
  Paragraphs : list Paragraph;
  BlockType : string
}.

(** [type Page struct { Width, Height int; Blocks []Block }] *)
Record Page : Type := mkPage {
  Width : Z;
  Height : Z;
  Blocks : list Block
}.

(** [type FullTextAnnotation struct { Pages []Page; Text string }] *)
Record FullTextAnnotation : Type := mkFullTextAnnotation {
  Pages : list Page;
  AnnotationText : string
}.

(** [type Response struct { FullTextAnnotation *FullTextAnnotation }]; a
    nil pointer is [None]. *)
Record Response : Type := mkResponse {
  ResponseFullTextAnnotation : option FullTextAnnotation
}.

(** [type OCRResponse struct { Responses []Response }] *)
Record OCRResponse : Type := mkOCRResponse { Responses : list Response }.

End Models.

(** The four vertices that [convertWordsAndLinesToOCRResponse] writes out
    for a line, clockwise from the top left corner. *)
Definition lineVertices (line : LineBox) : Models.BoundingPoly :=
  Models.mkBoundingPoly
    [Models.mkVertex (LX line) (LY line);
     Models.mkVertex (LX line [+] LWidth line) (LY line);
     Models.mkVertex (LX line [+] LWidth line) (LY line [+] LHeight line);
     Models.mkVertex (LX line) (LY line [+] LHeight line)].

(** The body of the loop of [convertWordsAndLinesToOCRResponse]: the
    single word and the paragraph for [lines[i]]. *)
Definition lineWord (i : nat) (line : LineBox) : Models.Word :=
  Models.mkWord (lineVertices line)
    [Models.mkSymbol (lineVertices line)
       ("line_" ++ sprintf_d (Z.of_nat i [+] 1))].

Definition lineParagraph (i : nat) (line : LineBox) : Models.Paragraph :=
  Models.mkParagraph (lineVertices line) [lineWord i line].

Definition convertWordsAndLinesToOCRResponse
    (lines : list LineBox) (width height : Z) : Models.OCRResponse :=
  let paragraphs := imap lineParagraph lines in
  let block :=
    Models.mkBlock
      (Models.mkBoundingPoly
         [Models.mkVertex 0 0; Models.mkVertex width 0;
          Models.mkVertex width height; Models.mkVertex 0 height])
      paragraphs "TEXT" in
  let page := Models.mkPage width height [block] in
  Models.mkOCRResponse
    [Models.mkResponse
       (Some (Models.mkFullTextAnnotation [page]
                "Custom word detection with line grouping + ChatGPT transcription"))].

Definition countWords (response : Models.OCRResponse) : Z :=
  match Models.Responses response with
  | [] => 0
  | r :: _ =>
      match Models.ResponseFullTextAnnotation r with
      | None => 0
      | Some annotation =>
          fold_left
            (fun count page =>
               fold_left
                 (fun count block =>
                    fold_left
                      (fun count paragraph => count [+] len (Models.Words paragraph))
                      (Models.Paragraphs block) count)
                 (Models.Blocks page) count)
            (Models.Pages annotation) 0
      end
  end.

(** The words that [createStitchedImageWithHOCRMarkup] walks through, in
    its order: those of every paragraph of every block of every page. *)
Definition responseWords (response : Models.OCRResponse) : list Models.Word :=
  match Models.Responses response with
  | [] => []
  | r :: _ =>
      match Models.ResponseFullTextAnnotation r with
      | None => []
      | Some annotation =>
          page ← Models.Pages annotation;
          block ← Models.Blocks page;
          paragraph ← Models.Paragraphs block;
          Models.Words paragraph
      end
  end.

(** [extractWordImage] up to the call of ImageMagick: the error it
    returns without calling it, or the rectangle
    [(cropWidth, cropHeight, cropX, cropY)] it asks ImageMagick to cut
    out. *)
Definition extractWordImage_crop (bbox : Models.BoundingPoly)
    : outcome (string + Z * Z * Z * Z) :=
  if len (Models.Vertices bbox) <? 4 then Done (inl "invalid bounding box"%string)
  else
    v0 ← index (Models.Vertices bbox) 0;
    v2 ← index (Models.Vertices bbox) 2;
    let minX := Models.X v0 in
    let minY := Models.Y v0 in
    let maxX := Models.X v2 in
    let maxY := Models.Y v2 in
    let width := maxX [-] minX in
    let height := maxY [-] minY in
    if (width <=? 0) || (height <=? 0) then Done (inl "invalid dimensions"%string)
    else
      let padding := 3 in
      let cropX := max 0 (minX [-] padding) in
      let cropY := max 0 (minY [-] padding) in
      let cropWidth := width [+] 2 * padding in
      let cropHeight := height [+] 2 * padding in
      Done (inr (cropWidth, cropHeight, cropX, cropY)).

(** The rectangle [(w, h, x, y)] holds the box from (minX, minY) to
    (maxX, maxY) with a margin of three pixels to the right and below. *)
Definition cropCovers (crop : Z * Z * Z * Z) (minX minY maxX maxY : Z) : Prop :=
  let '(w, h, x, y) := crop in
  0 <= x <= minX /\ 0 <= y <= minY /\
  maxX + 3 <= x + w /\ maxY + 3 <= y + h.

(** Two dark rectangles of 10 x 11 pixels, one below and to the right of
    the other, on a light page of 40 x 60. *)
Definition twoWordImage : Image :=
  mkImage 40 60
    (fun x y =>
       if ((5 <=? x) && (x <? 15) && (3 <=? y) && (y <? 14))
          || ((20 <=? x) && (x <? 30) && (30 <=? y) && (y <? 41))
       then mkColor 0 0 0 65535
       else mkColor 65535 65535 65535 65535).
(** * Properties *)
(** ** Wrap-around arithmetic *)

Lemma wrap_small z : in_range z -> wrap z = z.
Proof.
  unfold in_range, int_min, int_max, wrap. intros Hz.
  rewrite Z.mod_small by lia. lia.
Qed.

Lemma add_small a b : in_range (a + b) -> a [+] b = a + b.
Proof. apply wrap_small. Qed.

Lemma sub_small a b : in_range (a - b) -> a [-] b = a - b.
Proof. apply wrap_small. Qed.

Lemma quot_bounds a b : 0 < b -> Z.min 0 a <= Z.quot a b <= Z.max 0 a.
Proof.
  intros Hb. destruct (Z_le_gt_dec 0 a) as [Hpos|Hneg].
  - pose proof (Z.quot_pos a b Hpos Hb).
    assert (Z.quot a b <= a) by (apply Z.quot_le_upper_bound; nia). lia.
  - assert (Hq : Z.quot a b = - Z.quot (- a) b) by (rewrite Z.quot_opp_l; lia).
    pose proof (Z.quot_pos (- a) b ltac:(lia) Hb).
    assert (Z.quot (- a) b <= - a) by (apply Z.quot_le_upper_bound; nia). lia.
Qed.

Lemma quot_small a b : in_range a -> 0 < b -> a [/] b = Z.quot a b.
Proof.
  intros Ha Hb. unfold quot. apply wrap_small.
  pose proof (quot_bounds a b Hb).
  unfold in_range, int_min, int_max in *. lia.
Qed.

Lemma max_spec a b : max a b = Z.max a b.
Proof. unfold max. rewrite Z.gtb_ltb. destruct (Z.ltb_spec b a); lia. Qed.

(** For a positive divisor [d] and a positive [w], [w <= W quot d] says
    [d * w <= W], whatever the sign of [W]. *)
Lemma le_quot_iff w W d : 0 < d -> 0 < w -> (w <= Z.quot W d <-> d * w <= W).
Proof.
  intros Hd Hw. destruct (Z_le_gt_dec 0 W) as [Hpos|Hneg].
  - rewrite Z.quot_div_nonneg by lia. split; intros H.
    + pose proof (Z.mul_div_le W d Hd). nia.
    + apply Z.div_le_lower_bound; lia.
  - assert (Hle : Z.quot W d <= 0).
    { assert (Hq : Z.quot W d = - Z.quot (- W) d) by (rewrite Z.quot_opp_l; lia).
      pose proof (Z.quot_pos (- W) d ltac:(lia) Hd). lia. }
    split; intros H; [ lia | nia ].
Qed.

(** ** PixelClassifier *)

Lemma isTextPixel_gray c :
  channel_ok (c_r c) -> channel_ok (c_g c) -> channel_ok (c_b c) ->
  isTextPixel c = ((c_r c + c_g c + c_b c) / 3 <? 32768).
Proof.
  unfold channel_ok, isTextPixel, wrap32. intros Hr Hg Hb.
  rewrite (Z.mod_small (c_r c + c_g c)) by lia.
  rewrite Z.mod_small by lia. reflexivity.
Qed.

Lemma spread_uint8 v : uint8_ok v -> spread v = 257 * v.
Proof.
  intros Hv.
  assert (Hall : forallb (fun k => spread k =? 257 * k)
                         (map Z.of_nat (seq 0 256)) = true)
    by (vm_compute; reflexivity).
  rewrite forallb_forall in Hall. apply Z.eqb_eq. apply Hall.
  apply in_map_iff. exists (Z.to_nat v). unfold uint8_ok in Hv.
  split; [lia | apply in_seq; lia].
Qed.

Lemma premultiply_uint8 v a :
  uint8_ok v -> uint8_ok a -> premultiply v a = 257 * v * a / 255.
Proof.
  intros Hv Ha. unfold premultiply. rewrite (spread_uint8 v Hv).
  unfold wrap32, uint8_ok in *. rewrite Z.mod_small by nia. reflexivity.
Qed.

Lemma premultiply_channel_ok v a :
  uint8_ok v -> uint8_ok a -> channel_ok (premultiply v a).
Proof.
  intros Hv Ha. rewrite (premultiply_uint8 v a Hv Ha).
  unfold channel_ok, uint8_ok in *. split.
  - apply Z.div_pos; nia.
  - apply Z.div_le_upper_bound; nia.
Qed.

Lemma spread_channel_ok v : uint8_ok v -> channel_ok (spread v).
Proof.
  intros Hv. rewrite (spread_uint8 v Hv). unfold channel_ok, uint8_ok in *. lia.
Qed.

(** C8, amended. For a colour whose [RGBA()] method reports channels in
    the range the colour interface promises, [isTextPixel] answers true
    exactly when the (integer) average of the reported red, green and blue
    values is below half the channel range (below 32768, that is, at most
    half of 65535; the sum of the three is then below three times 32768).
    The alpha value that [RGBA()] reports is discarded. A [color.RGBA]
    stores its channels premultiplied, so its alpha field does not change
    the answer; but the [RGBA()] of a [color.NRGBA] scales the channels
    by the alpha field, so there the alpha field enters the average. An
    opaque [color.NRGBA] is classified like the [color.RGBA] of the same
    fields, and a [color.Gray] is text exactly below 128. *)
Theorem isTextPixel_dark_on_reported_channels (c : Color) (r g b a : Z) :
  channel_ok (c_r c) -> channel_ok (c_g c) -> channel_ok (c_b c) ->
  uint8_ok r -> uint8_ok g -> uint8_ok b -> uint8_ok a ->
  (isTextPixel c = true <-> (c_r c + c_g c + c_b c) / 3 < 65536 / 2) /\
  (isTextPixel c = true <-> 2 * ((c_r c + c_g c + c_b c) / 3) < 65535) /\
  (isTextPixel c = true <-> c_r c + c_g c + c_b c < 3 * 32768) /\
  (forall a' : Z, isTextPixel (mkColor (c_r c) (c_g c) (c_b c) a') = isTextPixel c) /\
  (forall a' : Z, isTextPixel (RGBA (color_RGBA r g b a'))
                  = isTextPixel (RGBA (color_RGBA r g b a))) /\
  (isTextPixel (RGBA (color_RGBA r g b a)) = true <-> 257 * (r + g + b) / 3 < 32768) /\
  (isTextPixel (RGBA (color_NRGBA r g b a)) = true <->
   (257 * r * a / 255 + 257 * g * a / 255 + 257 * b * a / 255) / 3 < 32768) /\
  isTextPixel (RGBA (color_NRGBA r g b 255)) = isTextPixel (RGBA (color_RGBA r g b a)) /\
  (isTextPixel (RGBA (color_Gray r)) = true <-> r < 128).
Proof.
  intros Hr Hg Hb Ur Ug Ub Ua. change (65536 / 2) with 32768.
  assert (Hrgba : forall a',
            isTextPixel (RGBA (color_RGBA r g b a'))
            = (257 * (r + g + b) / 3 <? 32768)).
  { intros a'. rewrite isTextPixel_gray; cbn [RGBA c_r c_g c_b];
      try (apply spread_channel_ok; assumption).
    rewrite !spread_uint8 by assumption. f_equal. f_equal. lia. }
  split; [ | split; [ | split; [ | split; [ | split; [ | split; [ | split; [ | split]]]]]]].
  - rewrite (isTextPixel_gray c Hr Hg Hb), Z.ltb_lt. reflexivity.
  - rewrite (isTextPixel_gray c Hr Hg Hb), Z.ltb_lt. lia.
  - rewrite (isTextPixel_gray c Hr Hg Hb), Z.ltb_lt.
    pose proof (Z.div_mod (c_r c + c_g c + c_b c) 3 ltac:(lia)) as Hdiv.
    pose proof (Z.mod_pos_bound (c_r c + c_g c + c_b c) 3 ltac:(lia)) as Hmod.
    lia.
  - intros a'. reflexivity.
  - intros a'. rewrite !Hrgba. reflexivity.
  - rewrite Hrgba, Z.ltb_lt. reflexivity.
  - rewrite isTextPixel_gray; cbn [RGBA c_r c_g c_b];
      try (apply premultiply_channel_ok; assumption).
    rewrite !premultiply_uint8 by assumption. apply Z.ltb_lt.
  - rewrite Hrgba.
    assert (U255 : uint8_ok 255) by (unfold uint8_ok; lia).
    rewrite isTextPixel_gray; cbn [RGBA c_r c_g c_b];
      try (apply premultiply_channel_ok; assumption).
    rewrite !premultiply_uint8 by assumption.
    rewrite !Z.div_mul by lia. f_equal. f_equal. lia.
  - rewrite isTextPixel_gray; cbn [RGBA c_r c_g c_b];
      try (apply spread_channel_ok; assumption).
    rewrite !spread_uint8 by assumption. rewrite Z.ltb_lt.
    replace (257 * r + 257 * r + 257 * r) with (257 * r * 3) by lia.
    rewrite Z.div_mul by lia. unfold uint8_ok in Ur. lia.
Qed.

Lemma isTextPixel_dark_on_reported_channels_witness :
  (isTextPixel (mkColor 100 200 300 65535) = true <-> (100 + 200 + 300) / 3 < 65536 / 2) /\
  (isTextPixel (mkColor 100 200 300 65535) = true <-> 2 * ((100 + 200 + 300) / 3) < 65535) /\
  (isTextPixel (mkColor 100 200 300 65535) = true <-> 100 + 200 + 300 < 3 * 32768) /\
  (forall a' : Z, isTextPixel (mkColor 100 200 300 a') = isTextPixel (mkColor 100 200 300 65535)) /\
  (forall a' : Z, isTextPixel (RGBA (color_RGBA 200 180 90 a'))
                  = isTextPixel (RGBA (color_RGBA 200 180 90 100))) /\
  (isTextPixel (RGBA (color_RGBA 200 180 90 100)) = true <->
   257 * (200 + 180 + 90) / 3 < 32768) /\
  (isTextPixel (RGBA (color_NRGBA 200 180 90 100)) = true <->
   (257 * 200 * 100 / 255 + 257 * 180 * 100 / 255 + 257 * 90 * 100 / 255) / 3 < 32768) /\
  isTextPixel (RGBA (color_NRGBA 200 180 90 255))
  = isTextPixel (RGBA (color_RGBA 200 180 90 100)) /\
  (isTextPixel (RGBA (color_Gray 200)) = true <-> 200 < 128).
Proof.
  apply (isTextPixel_dark_on_reported_channels (mkColor 100 200 300 65535) 200 180 90 100);
    unfold channel_ok, uint8_ok; simpl; lia.
Defined.

(** C8, as first stated, fails: a white [color.NRGBA] is background when
    opaque and text when its alpha field is 100, although the two colours
    differ in the alpha field only. *)
Lemma isTextPixel_depends_on_alpha :
  isTextPixel (RGBA (color_NRGBA 255 255 255 255)) = false /\
  isTextPixel (RGBA (color_NRGBA 255 255 255 100)) = true /\
  RGBA (color_NRGBA 255 255 255 255) = mkColor 65535 65535 65535 65535 /\
  RGBA (color_NRGBA 255 255 255 100) = mkColor 25700 25700 25700 25700.
Proof. repeat split; vm_compute; reflexivity. Qed.

(** ** ComponentFilter *)

Lemma isValidWordSize_true w h imgWidth imgHeight :
  isValidWordSize w h imgWidth imgHeight = true <->
  8 <= w /\ 10 <= h /\ w <= imgWidth [/] 2 /\ h <= imgHeight [/] 5.
Proof.
  unfold isValidWordSize. rewrite !andb_true_iff, !Z.geb_le, !Z.leb_le. tauto.
Qed.

Lemma isValidWordSize_iff w h imgWidth imgHeight :
  in_range imgWidth -> in_range imgHeight ->
  (isValidWordSize w h imgWidth imgHeight = true <->
   8 <= w /\ 10 <= h /\ 2 * w <= imgWidth /\ 5 * h <= imgHeight).
Proof.
  intros HW HH. rewrite isValidWordSize_true.
  rewrite !quot_small by (assumption || lia).
  split; intros (Hw & Hh & H1 & H2); repeat split; try assumption.
  - apply le_quot_iff in H1; lia.
  - apply le_quot_iff in H2; lia.
  - apply le_quot_iff; lia.
  - apply le_quot_iff; lia.
Qed.

(** ** Outcomes and loops *)

Lemma bind_Done {A B} (m : outcome A) (f : A -> outcome B) b :
  m ≫= f = Done b <-> exists a, m = Done a /\ f a = Done b.
Proof.
  destruct m as [a| |]; simpl; split.
  - intros H. exists a. split; [reflexivity | exact H].
  - intros (a' & Ha & H). injection Ha as <-. exact H.
  - discriminate.
  - intros (a' & Ha & _). discriminate.
  - discriminate.
  - intros (a' & Ha & _). discriminate.
Qed.

Lemma foldM_total {A B} (P : B -> Prop) (f : B -> A -> outcome B) l :
  (forall b a, In a l -> P b -> exists b', f b a = Done b' /\ P b') ->
  forall b, P b -> exists b', foldM f l b = Done b' /\ P b'.
Proof.
  induction l as [|a l IH]; intros Hf b Hb; simpl.
  - exists b. split; [reflexivity | assumption].
  - destruct (Hf b a (or_introl eq_refl) Hb) as (b1 & -> & Hb1).
    apply IH; [ | assumption ].
    intros b0 a0 Hin. apply Hf. right. assumption.
Qed.

Lemma foldM_preserves {A B} (P : B -> Prop) (f : B -> A -> outcome B) l :
  (forall b a b', P b -> f b a = Done b' -> P b') ->
  forall b b', P b -> foldM f l b = Done b' -> P b'.
Proof.
  intros Hf. induction l as [|a l IH]; intros b b' Hb; simpl.
  - intros [= <-]. assumption.
  - destruct (f b a) as [b1| |] eqn:E; try discriminate.
    apply IH. eapply Hf; eassumption.
Qed.

Lemma index_Done {A} (s : list A) i a :
  index s i = Done a <-> 0 <= i /\ s !! Z.to_nat i = Some a.
Proof.
  unfold index. destruct (Z.ltb_spec i 0).
  - split; [discriminate | lia].
  - destruct (s !! Z.to_nat i) as [a'|]; split.
    + intros [= ->]. split; [lia | reflexivity].
    + intros [_ [= ->]]. reflexivity.
    + discriminate.
    + intros [_ ?]. discriminate.
Qed.

Lemma index_total {A} (s : list A) i :
  0 <= i -> (Z.to_nat i < length s)%nat -> exists a, index s i = Done a.
Proof.
  intros Hi Hlt. destruct (lookup_lt_is_Some_2 s (Z.to_nat i) Hlt) as [a Ha].
  exists a. apply index_Done. split; assumption.
Qed.

Lemma In_upto x n : In x (upto n) -> 0 <= x < n.
Proof.
  unfold upto. rewrite in_map_iff. intros (k & <- & Hk).
  apply in_seq in Hk. lia.
Qed.

(** ** The visited mask *)

Lemma countFalse_le row : (countFalse row <= length row)%nat.
Proof. induction row as [|[] row IH]; simpl; lia. Qed.

Lemma countFalse_mark row i :
  row !! i = Some false ->
  (countFalse (<[i := true]> row) + 1 = countFalse row)%nat.
Proof.
  revert i. induction row as [|c row IH]; intros [|i]; simpl; try discriminate.
  - intros [= ->]. lia.
  - intros H. specialize (IH i H). destruct c; simpl; lia.
Qed.

Lemma unvisited_insert v j row row' :
  v !! j = Some row ->
  (unvisited (<[j := row']> v) + countFalse row = unvisited v + countFalse row')%nat.
Proof.
  revert j. induction v as [|r v IH]; intros [|j]; simpl; try discriminate.
  - intros [= ->]. lia.
  - intros H. specialize (IH j H). lia.
Qed.

Lemma unvisited_bound v w :
  Forall (fun row => length row = w) v -> (unvisited v <= length v * w)%nat.
Proof.
  induction 1 as [|row v Hrow _ IH]; simpl; [lia | ].
  pose proof (countFalse_le row). lia.
Qed.

Lemma wellShaped_bound img v :
  wellShaped img v -> (unvisited v <= Z.to_nat (Dx img) * Z.to_nat (Dy img))%nat.
Proof.
  intros [Hlen Hrows]. pose proof (unvisited_bound v _ Hrows). nia.
Qed.

Lemma visitedAt_total img v x y :
  wellShaped img v -> 0 <= x < Dx img -> 0 <= y < Dy img ->
  exists c, visitedAt v x y = Done c.
Proof.
  intros [Hlen Hrows] Hx Hy. unfold visitedAt.
  destruct (index_total v y) as [row Hrow]; [lia | lia | ].
  rewrite Hrow. simpl.
  apply index_Done in Hrow as [_ Hrow].
  apply list_elem_of_lookup_2 in Hrow.
  rewrite Forall_forall in Hrows.
  apply index_total; [lia | ]. rewrite (Hrows row Hrow). lia.
Qed.

Lemma markVisited_spec img v x y :
  wellShaped img v -> visitedAt v x y = Done false ->
  exists v', markVisited v x y = Done v' /\ wellShaped img v' /\
             (unvisited v' + 1 = unvisited v)%nat.
Proof.
  intros [Hlen Hrows] Hat. unfold visitedAt in Hat.
  apply bind_Done in Hat as (row & Hrow & Hcell).
  unfold markVisited. rewrite Hrow. simpl. rewrite Hcell. simpl.
  eexists. split; [reflexivity | ].
  apply index_Done in Hrow as [_ Hrow]. apply index_Done in Hcell as [_ Hcell].
  split; [split | ].
  - rewrite length_insert. assumption.
  - apply Forall_insert; [assumption | ].
    rewrite length_insert. rewrite Forall_forall in Hrows.
    apply Hrows. eapply list_elem_of_lookup_2. eassumption.
  - pose proof (unvisited_insert v _ row (<[Z.to_nat x := true]> row) Hrow).
    pose proof (countFalse_mark row _ Hcell). lia.
Qed.

(** ** ComponentFinder *)

(** A stack of more frames than there are unvisited cells is enough for
    [floodFillComponent] to return; it never unmarks a cell. *)
Lemma floodFill_total img : forall (stack : nat) x y st,
  wellShaped img (visited st) ->
  (unvisited (visited st) < stack)%nat ->
  exists st', floodFillComponent stack img x y st = Done st' /\
              wellShaped img (visited st') /\
              (unvisited (visited st') <= unvisited (visited st))%nat.
Proof.
  induction stack as [|stack IH]; intros x y st Hshape Hlt; [lia | ].
  simpl.
  destruct ((x <? 0) || (x >=? Dx img) || (y <? 0) || (y >=? Dy img)) eqn:Hout.
  { exists st. auto. }
  rewrite !orb_false_iff in Hout. destruct Hout as (((Hx0 & Hx1) & Hy0) & Hy1).
  apply Z.ltb_ge in Hx0, Hy0. rewrite Z.geb_leb in Hx1, Hy1.
  apply Z.leb_gt in Hx1, Hy1.
  destruct (visitedAt_total img (visited st) x y Hshape) as [seen Hseen]; [lia | lia | ].
  rewrite Hseen. simpl.
  destruct (seen || negb (isTextPixel (At img x y))) eqn:Hskip.
  { exists st. auto. }
  apply orb_false_iff in Hskip as [-> _].
  destruct (markVisited_spec img _ x y Hshape Hseen) as (v' & -> & Hshape' & Hcount).
  simpl.
  set (P := fun s : FillState =>
              wellShaped img (visited s) /\
              (unvisited (visited s) <= unvisited v')%nat).
  destruct (foldM_total P
              (fun s dir => floodFillComponent stack img (x [+] dir.1) (y [+] dir.2) s)
              directions) with (b := mkFillState v'
                 (if x <? minX st then x else minX st)
                 (if y <? minY st then y else minY st)
                 (if x >? maxX st then x else maxX st)
                 (if y >? maxY st then y else maxY st))
    as (st' & Hrun & Hshape'' & Hle).
  - intros s dir _ [Hs Hsle].
    destruct (IH (x [+] dir.1) (y [+] dir.2) s Hs) as (s' & Hs' & Hsh & Hc); [lia | ].
    exists s'. split; [assumption | ]. split; [assumption | lia].
  - split; [assumption | simpl; lia].
  - exists st'. split; [exact Hrun | ]. split; [assumption | lia].
Qed.

Lemma makeVisited_spec img :
  0 <= Dx img -> 0 <= Dy img ->
  exists v, makeVisited (Dx img) (Dy img) = Done v /\ wellShaped img v.
Proof.
  intros Hx Hy. unfold makeVisited.
  destruct (Z.ltb_spec (Dy img) 0); [lia | ].
  destruct (Z.ltb_spec (Dx img) 0); [lia | ].
  rewrite andb_false_r. simpl. eexists. split; [reflexivity | ].
  split.
  - apply length_replicate.
  - apply Forall_replicate. apply length_replicate.
Qed.

Lemma scanPixel_total (stack : nat) img y x s :
  (Z.to_nat (Dx img) * Z.to_nat (Dy img) < stack)%nat ->
  0 <= x < Dx img -> 0 <= y < Dy img ->
  wellShaped img s.1 ->
  exists s', scanPixel stack img y s x = Done s' /\ wellShaped img s'.1.
Proof.
  intros Hstack Hx Hy Hshape. destruct s as [v components]. simpl in Hshape.
  unfold scanPixel.
  destruct (visitedAt_total img v x y Hshape Hx Hy) as [seen ->]. simpl.
  destruct (negb seen && isTextPixel (At img x y)).
  - pose proof (wellShaped_bound img v Hshape).
    destruct (floodFill_total img stack x y (mkFillState v x y x y))
      as (st & -> & Hst & _); [assumption | simpl; lia | ].
    simpl.
    destruct (isValidWordSize _ _ _ _); eexists; (split; [reflexivity | assumption]).
  - eexists. split; [reflexivity | assumption].
Qed.

Lemma scanPixel_valid (stack : nat) img y x s s' :
  Forall (validIn img) s.2 ->
  scanPixel stack img y s x = Done s' -> Forall (validIn img) s'.2.
Proof.
  destruct s as [v components]. simpl. intros Hvalid. unfold scanPixel.
  intros H. apply bind_Done in H as (seen & _ & H).
  destruct (negb seen && isTextPixel (At img x y)).
  - apply bind_Done in H as (st & _ & H).
    destruct (isValidWordSize _ _ _ _) eqn:Hsize; injection H as <-; simpl.
    + apply Forall_app. split; [assumption | ].
      constructor; [exact Hsize | constructor].
    + assumption.
  - injection H as <-. assumption.
Qed.

Lemma findWordComponents_valid (stack : nat) img components :
  findWordComponents stack img = Done components ->
  Forall (validIn img) components.
Proof.
  unfold findWordComponents. intros H.
  apply bind_Done in H as (v & _ & H).
  apply bind_Done in H as (s & Hs & H). injection H as <-.
  revert Hs.
  apply (foldM_preserves (fun s => Forall (validIn img) s.2)); [ | constructor].
  intros s0 y s1 Hs0.
  apply (foldM_preserves (fun s => Forall (validIn img) s.2)); [ | assumption].
  intros s2 x s3. apply scanPixel_valid.
Qed.

Lemma findWordComponents_total (stack : nat) img :
  0 <= Dx img -> 0 <= Dy img ->
  (Z.to_nat (Dx img) * Z.to_nat (Dy img) < stack)%nat ->
  exists components, findWordComponents stack img = Done components.
Proof.
  intros Hx Hy Hstack. unfold findWordComponents.
  destruct (makeVisited_spec img Hx Hy) as (v & -> & Hshape). simpl.
  destruct (foldM_total (fun s : list (list bool) * list WordBox => wellShaped img s.1)
              (fun s y => foldM (scanPixel stack img y) (upto (Dx img)) s)
              (upto (Dy img))) with (b := (v, @nil WordBox))
    as (s & -> & _).
  - intros s y Hy' Hs. apply In_upto in Hy'.
    apply (foldM_total (fun s : list (list bool) * list WordBox => wellShaped img s.1));
      [ | assumption].
    intros s0 x Hx' Hs0. apply In_upto in Hx'.
    apply scanPixel_total; assumption.
  - assumption.
  - simpl. eexists. reflexivity.
Qed.

(** ** Bounding boxes *)

Lemma boundsOf_init g0 : boundsOf [g0] (X g0, Y g0, X g0 + Width g0, Y g0 + Height g0).
Proof.
  unfold boundsOf. split; [ | repeat split; constructor; reflexivity].
  constructor; [lia | constructor].
Qed.

Lemma initBounds_small g0 :
  pixel_box g0 -> initBounds g0 = (X g0, Y g0, X g0 + Width g0, Y g0 + Height g0).
Proof.
  intros (Hx & Hy & Hw & Hh & Hxw & Hyh). unfold initBounds.
  rewrite !add_small by (unfold in_range, int_min, int_max in *; lia). reflexivity.
Qed.

Lemma expandBounds_step seen acc comp :
  pixel_box comp -> boundsOf seen acc ->
  boundsOf (seen ++ [comp]) (expandBounds acc comp).
Proof.
  intros (Hx & Hy & Hw & Hh & Hxw & Hyh).
  destruct acc as [[[x0 y0] x1] y1]. unfold boundsOf, expandBounds.
  rewrite !add_small by (unfold in_range, int_min, int_max in *; lia).
  intros (Hall & Ex0 & Ey0 & Ex1 & Ey1).
  rewrite !Z.gtb_ltb.
  destruct (Z.ltb_spec (X comp) x0), (Z.ltb_spec (Y comp) y0),
           (Z.ltb_spec x1 (X comp + Width comp)),
           (Z.ltb_spec y1 (Y comp + Height comp));
    (split;
     [ apply Forall_app; split;
       [ eapply Forall_impl; [exact Hall | ]; simpl; intros; lia
       | constructor; [lia | constructor] ]
     | repeat split; apply Exists_app;
       first [ right; constructor; reflexivity | left; assumption ] ]).
Qed.

Lemma fold_expandBounds rest : forall seen acc,
  Forall pixel_box rest -> boundsOf seen acc ->
  boundsOf (seen ++ rest) (fold_left expandBounds rest acc).
Proof.
  induction rest as [|comp rest IH]; intros seen acc Hrest Hacc; simpl.
  - rewrite app_nil_r. assumption.
  - apply Forall_cons_1 in Hrest as [Hcomp Hrest].
    replace (seen ++ comp :: rest) with ((seen ++ [comp]) ++ rest)
      by (rewrite <- app_assoc; reflexivity).
    apply IH; [assumption | ]. apply expandBounds_step; assumption.
Qed.

(** The tight bounds of boxes in pixel coordinates are themselves pixel
    coordinates. *)
Lemma boundsOf_range seen x0 y0 x1 y1 :
  seen <> [] -> Forall pixel_box seen -> boundsOf seen (x0, y0, x1, y1) ->
  0 <= x0 <= x1 /\ x1 <= int_max /\ 0 <= y0 <= y1 /\ y1 <= int_max.
Proof.
  intros Hne Hpix (Hall & Ex0 & Ey0 & Ex1 & Ey1).
  rewrite Forall_forall in Hpix, Hall.
  apply Exists_exists in Ex0 as (b0 & Hb0 & ->).
  apply Exists_exists in Ey0 as (b1 & Hb1 & ->).
  apply Exists_exists in Ex1 as (b2 & Hb2 & ->).
  apply Exists_exists in Ey1 as (b3 & Hb3 & ->).
  pose proof (Hpix b0 Hb0) as P0. pose proof (Hpix b1 Hb1) as P1.
  pose proof (Hpix b2 Hb2) as P2. pose proof (Hpix b3 Hb3) as P3.
  pose proof (Hall b0 Hb0) as A0. pose proof (Hall b1 Hb1) as A1.
  unfold pixel_box in *. simpl in *. lia.
Qed.

(** The bounds that [mergeComponentGroup] and [createLineFromWords]
    compute for a non-empty sequence of boxes in pixel coordinates. *)
Lemma fold_bounds g0 rest :
  Forall pixel_box (g0 :: rest) ->
  exists x0 y0 x1 y1,
    fold_left expandBounds rest (initBounds g0) = (x0, y0, x1, y1) /\
    boundsOf (g0 :: rest) (x0, y0, x1, y1) /\
    x1 [-] x0 = x1 - x0 /\ y1 [-] y0 = y1 - y0.
Proof.
  intros Hpix. pose proof Hpix as Hpix'.
  apply Forall_cons_1 in Hpix' as [Hg0 Hrest].
  pose proof (fold_expandBounds rest [g0] (initBounds g0) Hrest) as Hb.
  rewrite (initBounds_small g0 Hg0) in *.
  specialize (Hb (boundsOf_init g0)). simpl in Hb.
  destruct (fold_left expandBounds rest _) as [[[x0 y0] x1] y1].
  exists x0, y0, x1, y1. split; [reflexivity | ]. split; [assumption | ].
  destruct (boundsOf_range (g0 :: rest) x0 y0 x1 y1) as (Hx & Hx1 & Hy & Hy1);
    [discriminate | assumption | assumption | ].
  split; apply sub_small; unfold in_range, int_min, int_max in *; lia.
Qed.

Lemma mergeComponentGroup_union group :
  group <> [] -> Forall pixel_box group ->
  exists w, mergeComponentGroup group = Done w /\ unionBox group w.
Proof.
  intros Hne Hpix. destruct group as [|g0 [|g1 rest]]; [congruence | | ].
  - exists g0. split; [reflexivity | apply boundsOf_init].
  - destruct (fold_bounds g0 (g1 :: rest) Hpix)
      as (x0 & y0 & x1 & y1 & Hfold & Hb & Hw & Hh).
    unfold mergeComponentGroup. rewrite Hfold, Hw, Hh.
    eexists. split; [reflexivity | ].
    unfold unionBox. simpl.
    replace (x0 + (x1 - x0)) with x1 by lia.
    replace (y0 + (y1 - y0)) with y1 by lia. assumption.
Qed.

Lemma unionBox_positive group w :
  group <> [] -> Forall positive_box group -> unionBox group w -> positive_box w.
Proof.
  intros Hne Hpos (Hall & _). destruct group as [|g0 rest]; [congruence | ].
  apply Forall_cons_1 in Hpos as [[Hw Hh] _].
  apply Forall_cons_1 in Hall as [Hg0 _].
  unfold positive_box. lia.
Qed.

(** ** ComponentMerger *)

Lemma shouldMerge_same a b :
  Ocr.shouldMergeComponents a b = Hocr.shouldMergeComponents a b.
Proof.
  unfold Ocr.shouldMergeComponents, Hocr.shouldMergeComponents.
  f_equal. rewrite negb_orb, Z.gtb_ltb, Z.geb_leb.
  rewrite <- !Z.leb_antisym. reflexivity.
Qed.

Lemma wordsOnSameLine_same ws w :
  Ocr.wordsOnSameLine ws w = Hocr.wordsOnSameLine ws w.
Proof.
  unfold Ocr.wordsOnSameLine, Hocr.wordsOnSameLine.
  destruct ws as [|w0 ws]; [reflexivity | ].
  destruct (lineEnvelope (w0 :: ws) w0) as [top bottom].
  rewrite negb_orb, Z.gtb_ltb, Z.geb_leb.
  rewrite <- !Z.leb_antisym. reflexivity.
Qed.

Lemma shouldMerge_iff a b :
  pixel_box a -> pixel_box b ->
  (Ocr.shouldMergeComponents a b = true <-> gapWithin a b /\ spansOverlap a b).
Proof.
  intros (Hxa & Hya & Hwa & Hha & Hxwa & Hyha) (Hxb & Hyb & Hwb & Hhb & Hxwb & Hyhb).
  unfold Ocr.shouldMergeComponents, gapWithin, spansOverlap.
  rewrite max_spec.
  rewrite !add_small by (unfold in_range, int_min, int_max in *; lia).
  rewrite sub_small by (unfold in_range, int_min, int_max in *; lia).
  rewrite quot_small by (unfold in_range, int_min, int_max in *; lia).
  rewrite !andb_true_iff, negb_true_iff, orb_false_iff.
  rewrite Z.geb_le, Z.leb_le, Z.ltb_ge, Z.gtb_ltb, Z.ltb_ge. tauto.
Qed.

Lemma lastInGroup_member currentGroup last :
  lastInGroup currentGroup = Done last -> last ∈ currentGroup.
Proof.
  unfold lastInGroup. intros H. apply index_Done in H as [_ H].
  eapply list_elem_of_lookup_2. exact H.
Qed.

Lemma mergeStep_join shouldMerge currentGroup mergedWords last component :
  lastInGroup currentGroup = Done last ->
  (mergeStep shouldMerge (currentGroup, mergedWords) component
     = Done (currentGroup ++ [component], mergedWords)
   <-> shouldMerge last component = true).
Proof.
  intros Hlast. unfold mergeStep. rewrite Hlast. simpl.
  destruct (shouldMerge last component); split; try reflexivity; try discriminate.
  intros H. apply bind_Done in H as (w & _ & H). injection H as _ H.
  apply (f_equal length) in H. rewrite length_app in H. simpl in H. lia.
Qed.

Lemma mergeStep_close shouldMerge currentGroup mergedWords last component :
  Forall pixel_box currentGroup ->
  lastInGroup currentGroup = Done last ->
  ((exists w, unionBox currentGroup w /\
      mergeStep shouldMerge (currentGroup, mergedWords) component
        = Done ([component], mergedWords ++ [w]))
   <-> shouldMerge last component = false).
Proof.
  intros Hpix Hlast. unfold mergeStep. rewrite Hlast. simpl.
  destruct (shouldMerge last component); split; try reflexivity; try discriminate.
  - intros (w & _ & H). injection H as _ H.
    apply (f_equal length) in H. rewrite length_app in H. simpl in H. lia.
  - intros _.
    destruct (mergeComponentGroup_union currentGroup) as (w & Hw & Hunion).
    + apply lastInGroup_member in Hlast. intros ->. inversion Hlast.
    + assumption.
    + exists w. split; [assumption | ]. rewrite Hw. reflexivity.
Qed.

(** C1, amended. In [mergeNearbyComponents] of either package, on boxes in
    pixel coordinates, the candidate joins the open group exactly when its
    horizontal gap to the group's last member lies within
    [[0, max(heightA, heightB)/3]] and the two vertical spans overlap; the
    open group is closed (its union bounding box appended to the result)
    and a new group started with the candidate exactly when the candidate
    fails at least one of the two conditions. *)
Theorem mergeStep_joins_or_closes
    (shouldMerge : WordBox -> WordBox -> bool)
    (currentGroup mergedWords : list WordBox) (last component : WordBox) :
  shouldMerge = Ocr.shouldMergeComponents \/ shouldMerge = Hocr.shouldMergeComponents ->
  Forall pixel_box currentGroup -> pixel_box component ->
  lastInGroup currentGroup = Done last ->
  (mergeStep shouldMerge (currentGroup, mergedWords) component
     = Done (currentGroup ++ [component], mergedWords)
   <-> gapWithin last component /\ spansOverlap last component) /\
  ((exists w, unionBox currentGroup w /\
      mergeStep shouldMerge (currentGroup, mergedWords) component
        = Done ([component], mergedWords ++ [w]))
   <-> ~ (gapWithin last component /\ spansOverlap last component)).
Proof.
  intros Hpkg Hpix Hcomp Hlast.
  assert (Hlastpix : pixel_box last).
  { rewrite Forall_forall in Hpix. apply Hpix.
    apply lastInGroup_member. assumption. }
  assert (Hiff : shouldMerge last component = true <->
                 gapWithin last component /\ spansOverlap last component).
  { destruct Hpkg as [-> | ->]; [ | rewrite <- shouldMerge_same];
      apply shouldMerge_iff; assumption. }
  split.
  - rewrite (mergeStep_join shouldMerge _ _ last) by assumption. exact Hiff.
  - rewrite (mergeStep_close shouldMerge _ _ last) by assumption.
    rewrite <- Hiff. symmetry. apply not_true_iff_false.
Qed.

Lemma mergeStep_joins_or_closes_witness :
  (mergeStep Ocr.shouldMergeComponents ([boxUpper], []) boxLower
     = Done ([boxUpper] ++ [boxLower], [])
   <-> gapWithin boxUpper boxLower /\ spansOverlap boxUpper boxLower) /\
  ((exists w, unionBox [boxUpper] w /\
      mergeStep Ocr.shouldMergeComponents ([boxUpper], []) boxLower
        = Done ([boxLower], [] ++ [w]))
   <-> ~ (gapWithin boxUpper boxLower /\ spansOverlap boxUpper boxLower)).
Proof.
  apply (mergeStep_joins_or_closes Ocr.shouldMergeComponents
           [boxUpper] [] boxUpper boxLower).
  - left. reflexivity.
  - constructor; [ | constructor].
    unfold pixel_box, int_max. simpl. lia.
  - unfold pixel_box, int_max. simpl. lia.
  - reflexivity.
Defined.

(** C1, as first stated, fails: [boxLower] starts one pixel to the right of
    [boxUpper], within the allowed gap, and only the vertical spans are
    disjoint; the open group is closed all the same. *)
Lemma mergeStep_closes_on_one_failure :
  mergeStep Ocr.shouldMergeComponents ([boxUpper], []) boxLower
    = Done ([boxLower], [boxUpper]) /\
  Ocr.mergeNearbyComponents [boxUpper; boxLower] = Done [boxUpper; boxLower] /\
  gapWithin boxUpper boxLower /\ ~ spansOverlap boxUpper boxLower.
Proof.
  split; [reflexivity | ]. split; [reflexivity | ].
  unfold gapWithin, spansOverlap. simpl. split; [ | lia].
  change (Z.quot (Z.max 10 10) 3) with 3. lia.
Qed.

(** ** The two packages compared *)

Lemma foldM_ext {A B} (f g : B -> A -> outcome B) l :
  (forall b a, f b a = g b a) -> forall b, foldM f l b = foldM g l b.
Proof.
  intros Hfg. induction l as [|a l IH]; intros b; simpl; [reflexivity | ].
  rewrite Hfg. destruct (g b a); auto.
Qed.

Lemma fold_left_ext {A B} (f g : B -> A -> B) l :
  (forall b a, f b a = g b a) -> forall b, fold_left f l b = fold_left g l b.
Proof.
  intros Hfg. induction l as [|a l IH]; intros b; simpl; [reflexivity | ].
  rewrite Hfg. apply IH.
Qed.

Lemma mergeNearbyComponents_same components :
  Ocr.mergeNearbyComponents components = Hocr.mergeNearbyComponents components.
Proof.
  unfold Ocr.mergeNearbyComponents, Hocr.mergeNearbyComponents,
    mergeNearbyComponentsWith.
  destruct components as [|c0 [|c1 rest]]; try reflexivity.
  rewrite (foldM_ext (mergeStep Ocr.shouldMergeComponents)
             (mergeStep Hocr.shouldMergeComponents)); [reflexivity | ].
  intros [g m] c. unfold mergeStep. destruct (lastInGroup g); try reflexivity.
  simpl. rewrite shouldMerge_same. reflexivity.
Qed.

Lemma groupWordsIntoLines_same sort_Slice words :
  Ocr.groupWordsIntoLines sort_Slice words = Hocr.groupWordsIntoLines sort_Slice words.
Proof.
  unfold Ocr.groupWordsIntoLines, Hocr.groupWordsIntoLines, groupWordsIntoLinesWith.
  destruct (len words =? 0); [reflexivity | ].
  rewrite (fold_left_ext (groupStep Ocr.wordsOnSameLine)
             (groupStep Hocr.wordsOnSameLine)); [reflexivity | ].
  intros [cur lines] w. unfold groupStep. rewrite wordsOnSameLine_same. reflexivity.
Qed.

(** C2, amended. The vertical-overlap tests of the two packages are written
    differently - package [ocr] negates a disjunction of strict
    comparisons, package [hocr] conjoins the inclusive ones - and compute
    the same inclusive test: [shouldMergeComponents] and [wordsOnSameLine]
    agree on all inputs, and so do the merge and line-grouping passes built
    on them. *)
Theorem packages_agree :
  (forall a b, Ocr.shouldMergeComponents a b = Hocr.shouldMergeComponents a b) /\
  (forall ws w, Ocr.wordsOnSameLine ws w = Hocr.wordsOnSameLine ws w) /\
  (forall components,
     Ocr.mergeNearbyComponents components = Hocr.mergeNearbyComponents components) /\
  (forall sort_Slice words,
     Ocr.groupWordsIntoLines sort_Slice words = Hocr.groupWordsIntoLines sort_Slice words).
Proof.
  split; [exact shouldMerge_same | ].
  split; [exact wordsOnSameLine_same | ].
  split; [exact mergeNearbyComponents_same | exact groupWordsIntoLines_same].
Qed.

(** C2, as first stated, fails: no pair of boxes, and no line and word,
    tells the predicates of the two packages apart. *)
Lemma no_input_separates_packages :
  ~ (exists a b, Ocr.shouldMergeComponents a b <> Hocr.shouldMergeComponents a b) /\
  ~ (exists ws w, Ocr.wordsOnSameLine ws w <> Hocr.wordsOnSameLine ws w).
Proof.
  split.
  - intros (a & b & H). apply H. apply shouldMerge_same.
  - intros (ws & w & H). apply H. apply wordsOnSameLine_same.
Qed.

(** *** The depth of the recursion on a row of text pixels *)

Lemma floodFill_outside (k : nat) img x y st :
  x < 0 \/ Dx img <= x \/ y < 0 \/ Dy img <= y ->
  floodFillComponent (S k) img x y st = Done st.
Proof.
  intros H. simpl.
  destruct (Z.ltb_spec x 0); [reflexivity | ].
  rewrite Z.geb_leb. destruct (Z.leb_spec (Dx img) x); [reflexivity | ].
  destruct (Z.ltb_spec y 0); [reflexivity | ].
  rewrite Z.geb_leb. destruct (Z.leb_spec (Dy img) y); [reflexivity | ]. lia.
Qed.

Lemma floodFill_seen (k : nat) img x y st :
  0 <= x < Dx img -> 0 <= y < Dy img ->
  visitedAt (visited st) x y = Done true ->
  floodFillComponent (S k) img x y st = Done st.
Proof.
  intros Hx Hy Hseen. simpl.
  destruct (Z.ltb_spec x 0); [lia | ].
  rewrite Z.geb_leb. destruct (Z.leb_spec (Dx img) x); [lia | ].
  destruct (Z.ltb_spec y 0); [lia | ].
  rewrite Z.geb_leb. destruct (Z.leb_spec (Dy img) y); [lia | ].
  simpl. rewrite Hseen. reflexivity.
Qed.

Lemma rowMask_lookup_seen (n x i : nat) :
  (i < x)%nat ->
  (replicate x true ++ replicate (n - x) false) !! i = Some true.
Proof.
  intros Hi. rewrite lookup_app_l by (rewrite length_replicate; lia).
  apply lookup_replicate_2. assumption.
Qed.

Lemma rowMask_lookup_unseen (n x : nat) :
  (x < n)%nat ->
  (replicate x true ++ replicate (n - x) false) !! x = Some false.
Proof.
  intros Hx. rewrite lookup_app_r by (rewrite length_replicate; lia).
  rewrite length_replicate. apply lookup_replicate_2. lia.
Qed.

Lemma rowMask_mark (n x : nat) :
  (x < n)%nat ->
  <[x := true]> (replicate x true ++ replicate (n - x) false)
  = replicate (S x) true ++ replicate (n - S x) false.
Proof.
  intros Hx. rewrite insert_app_r_alt by (rewrite length_replicate; lia).
  rewrite length_replicate, Nat.sub_diag.
  destruct (n - x)%nat as [|m] eqn:E; [lia | ].
  replace (n - S x)%nat with m by lia.
  rewrite (replicate_S_end x true), <- app_assoc. reflexivity.
Qed.

(** On a row of [n] text pixels of which the first [x] are marked, a call
    at pixel [x] with no more activations than pixels left overflows. *)
Lemma floodFill_row_overflow (n : nat) : forall (k x : nat) st,
  Z.of_nat n <= int_max -> (x < n)%nat -> (k <= n - x)%nat ->
  visited st = [replicate x true ++ replicate (n - x) false] ->
  floodFillComponent k (rowImage (Z.of_nat n)) (Z.of_nat x) 0 st = StackOverflow.
Proof.
  induction k as [|k IH]; intros x st Hn Hx Hk Hv; [reflexivity | ].
  cbn [floodFillComponent].
  change (Dx (rowImage (Z.of_nat n))) with (Z.of_nat n).
  change (Dy (rowImage (Z.of_nat n))) with 1.
  destruct (Z.ltb_spec (Z.of_nat x) 0); [lia | ].
  rewrite Z.geb_leb. destruct (Z.leb_spec (Z.of_nat n) (Z.of_nat x)); [lia | ].
  cbn [orb Z.ltb Z.geb Z.compare].
  rewrite Hv. unfold visitedAt, markVisited.
  change (index [replicate x true ++ replicate (n - x) false] 0)
    with (Done (replicate x true ++ replicate (n - x) false)).
  cbn [mbind outcome_bind].
  assert (Hcell : index (replicate x true ++ replicate (n - x) false) (Z.of_nat x)
                  = Done false).
  { apply index_Done. split; [lia | ].
    rewrite Nat2Z.id. apply rowMask_lookup_unseen. assumption. }
  rewrite Hcell. cbn [mbind outcome_bind orb negb].
  change (isTextPixel (At (rowImage (Z.of_nat n)) (Z.of_nat x) 0)) with true.
  cbn [negb]. rewrite Nat2Z.id.
  change (Z.to_nat 0) with 0%nat. cbn [insert list_insert].
  rewrite rowMask_mark by assumption.
  destruct k as [|k]; [reflexivity | ].
  assert (Hleft : Z.of_nat x [+] -1 = Z.of_nat x - 1).
  { apply add_small. unfold in_range, int_min, int_max in *. lia. }
  assert (Hright : Z.of_nat x [+] 1 = Z.of_nat (S x)).
  { rewrite add_small by (unfold in_range, int_min, int_max in *; lia). lia. }
  assert (Hsame : Z.of_nat x [+] 0 = Z.of_nat x).
  { rewrite add_small by (unfold in_range, int_min, int_max in *; lia). lia. }
  unfold directions. cbn [foldM fst snd].
  change (0 [+] -1) with (-1). change (0 [+] 1) with 1. change (0 [+] 0) with 0.
  rewrite Hleft, Hright, Hsame.
  rewrite (floodFill_outside k) by (cbn [Dx Dy rowImage]; lia).
  assert (Hback : forall s,
            visited s = [replicate (S x) true ++ replicate (n - S x) false] ->
            floodFillComponent (S k) (rowImage (Z.of_nat n)) (Z.of_nat x - 1) 0 s
            = Done s).
  { intros s Hs. destruct x as [|x'].
    - apply floodFill_outside. lia.
    - apply floodFill_seen; cbn [Dx Dy rowImage]; try lia.
      rewrite Hs. unfold visitedAt.
      change (index [replicate (S (S x')) true ++ replicate (n - S (S x')) false] 0)
        with (Done (replicate (S (S x')) true ++ replicate (n - S (S x')) false)).
      cbn [mbind outcome_bind]. apply index_Done. split; [lia | ].
      replace (Z.to_nat (Z.of_nat (S x') - 1)) with x' by lia.
      apply rowMask_lookup_seen. lia. }
  rewrite Hback by reflexivity.
  rewrite !(floodFill_outside k) by (cbn [Dx Dy rowImage]; lia).
  rewrite IH; [reflexivity | assumption | lia | lia | reflexivity].
Qed.

(** ** Claims about the finder and the filter *)

(** C3, amended. [floodFillComponent] is a total function written by direct
    call recursion, one nested activation per pixel on the path it walks:
    on every image and every visited mask of the image's shape it returns,
    provided the stack can hold more activations than there are unvisited
    cells (so [width * height + 1] always suffice); it leaves the mask in
    shape and never unmarks a cell. The depth it needs grows with the
    component: on a single row of [n] text pixels, [n] activations are not
    enough. *)
Theorem floodFillComponent_total
    (stack : nat) (img : Image) (x y : Z) (st : FillState) (n : nat) :
  wellShaped img (visited st) ->
  (unvisited (visited st) < stack)%nat \/
    (Z.to_nat (Dx img) * Z.to_nat (Dy img) < stack)%nat ->
  (0 < n)%nat -> Z.of_nat n <= int_max ->
  (exists st', floodFillComponent stack img x y st = Done st' /\
               wellShaped img (visited st') /\
               (unvisited (visited st') <= unvisited (visited st))%nat) /\
  floodFillComponent n (rowImage (Z.of_nat n)) 0 0 (rowStart (Z.of_nat n))
    = StackOverflow.
Proof.
  intros Hshape Hstack Hn Hmax. split.
  - apply floodFill_total; [assumption | ].
    pose proof (wellShaped_bound img _ Hshape). lia.
  - apply (floodFill_row_overflow n n 0%nat); [assumption | lia | lia | ].
    unfold rowStart. simpl. rewrite Nat2Z.id, Nat.sub_0_r. reflexivity.
Qed.

Lemma floodFillComponent_total_witness :
  (exists st', floodFillComponent 9 (rowImage 8) 0 0 (rowStart 8) = Done st' /\
               wellShaped (rowImage 8) (visited st') /\
               (unvisited (visited st') <= unvisited (visited (rowStart 8)))%nat) /\
  floodFillComponent 8 (rowImage (Z.of_nat 8)) 0 0 (rowStart (Z.of_nat 8))
    = StackOverflow.
Proof.
  apply (floodFillComponent_total 9 (rowImage 8) 0 0 (rowStart 8) 8).
  - split; [reflexivity | ]. repeat constructor.
  - left. simpl. lia.
  - lia.
  - unfold int_max. simpl. lia.
Defined.

(** C3, as first stated, fails: the fill is not driven by a work-list but by
    nested calls, and their depth grows with the component. On a single
    row of 8 (of 16) text pixels a stack of 8 (of 16) activations
    overflows; 9 (17) are needed. *)
Lemma floodFillComponent_depth_grows_with_component :
  floodFillComponent 8 (rowImage 8) 0 0 (rowStart 8) = StackOverflow /\
  floodFillComponent 9 (rowImage 8) 0 0 (rowStart 8)
    = Done (mkFillState [replicate 8 true] 0 0 7 0) /\
  floodFillComponent 16 (rowImage 16) 0 0 (rowStart 16) = StackOverflow /\
  floodFillComponent 17 (rowImage 16) 0 0 (rowStart 16)
    = Done (mkFillState [replicate 16 true] 0 0 15 0).
Proof. repeat split; vm_compute; reflexivity. Qed.

(** C7. For image dimensions that are Go integers, [isValidWordSize]
    accepts a component of width [w] and height [h] exactly when [w >= 8],
    [h >= 10], [w <= imgWidth / 2] and [h <= imgHeight / 5] (Go's integer
    division; equivalently [2 * w <= imgWidth] and [5 * h <= imgHeight]);
    and every box that [findWordComponents] returns lies within these
    bounds, the others having been dropped. *)
Theorem isValidWordSize_accepts_exactly (w h imgWidth imgHeight : Z) :
  in_range imgWidth -> in_range imgHeight ->
  (isValidWordSize w h imgWidth imgHeight = true <->
     8 <= w /\ 10 <= h /\ w <= Z.quot imgWidth 2 /\ h <= Z.quot imgHeight 5) /\
  (isValidWordSize w h imgWidth imgHeight = true <->
     8 <= w /\ 10 <= h /\ 2 * w <= imgWidth /\ 5 * h <= imgHeight) /\
  (forall (stack : nat) (at_ : Z -> Z -> Color) (components : list WordBox),
     findWordComponents stack (mkImage imgWidth imgHeight at_) = Done components ->
     Forall (fun b => 8 <= Width b /\ 10 <= Height b /\
                      2 * Width b <= imgWidth /\ 5 * Height b <= imgHeight)
            components).
Proof.
  intros HW HH. split; [ | split].
  - rewrite isValidWordSize_true.
    rewrite !quot_small by (assumption || lia). reflexivity.
  - apply isValidWordSize_iff; assumption.
  - intros stack at_ components Hfind.
    apply findWordComponents_valid in Hfind.
    eapply Forall_impl; [exact Hfind | ].
    intros b Hb. unfold validIn in Hb. simpl in Hb.
    apply isValidWordSize_iff in Hb; assumption.
Qed.

Lemma isValidWordSize_accepts_exactly_witness :
  (isValidWordSize 10 11 40 60 = true <->
     8 <= 10 /\ 10 <= 11 /\ 10 <= Z.quot 40 2 /\ 11 <= Z.quot 60 5) /\
  (isValidWordSize 10 11 40 60 = true <->
     8 <= 10 /\ 10 <= 11 /\ 2 * 10 <= 40 /\ 5 * 11 <= 60) /\
  (forall (stack : nat) (at_ : Z -> Z -> Color) (components : list WordBox),
     findWordComponents stack (mkImage 40 60 at_) = Done components ->
     Forall (fun b => 8 <= Width b /\ 10 <= Height b /\
                      2 * Width b <= 40 /\ 5 * Height b <= 60)
            components).
Proof.
  apply (isValidWordSize_accepts_exactly 10 11 40 60);
    unfold in_range, int_min, int_max; lia.
Defined.

Lemma expandBounds_edges seen acc comp :
  in_range (X comp + Width comp) -> in_range (Y comp + Height comp) ->
  boundsOf seen acc ->
  boundsOf (seen ++ [comp]) (expandBounds acc comp).
Proof.
  intros Hxw Hyh.
  destruct acc as [[[x0 y0] x1] y1]. unfold boundsOf, expandBounds.
  rewrite !add_small by assumption.
  intros (Hall & Ex0 & Ey0 & Ex1 & Ey1).
  rewrite !Z.gtb_ltb.
  destruct (Z.ltb_spec (X comp) x0), (Z.ltb_spec (Y comp) y0),
           (Z.ltb_spec x1 (X comp + Width comp)),
           (Z.ltb_spec y1 (Y comp + Height comp));
    (split;
     [ apply Forall_app; split;
       [ eapply Forall_impl; [exact Hall | ]; simpl; intros; lia
       | constructor; [lia | constructor] ]
     | repeat split; apply Exists_app;
       first [ right; constructor; reflexivity | left; assumption ] ]).
Qed.

Lemma fold_expandBounds_edges rest : forall seen acc,
  Forall (fun c => in_range (X c + Width c) /\ in_range (Y c + Height c)) rest ->
  boundsOf seen acc ->
  boundsOf (seen ++ rest) (fold_left expandBounds rest acc).
Proof.
  induction rest as [|comp rest IH]; intros seen acc Hrest Hacc; simpl.
  - rewrite app_nil_r. assumption.
  - apply Forall_cons_1 in Hrest as [[Hxw Hyh] Hrest].
    replace (seen ++ comp :: rest) with ((seen ++ [comp]) ++ rest)
      by (rewrite <- app_assoc; reflexivity).
    apply IH; [assumption | ]. apply expandBounds_edges; assumption.
Qed.

(** On a group whose far edges and extent are representable
    [mergeComponentGroup] returns the union bounding box, wherever the
    group lies. *)
Lemma mergeComponentGroup_span group :
  group <> [] -> spanRepresentable group ->
  exists w, mergeComponentGroup group = Done w /\ unionBox group w.
Proof.
  intros Hne Hspan. destruct group as [|g0 [|g1 rest]]; [congruence | | ].
  - exists g0. split; [reflexivity | apply boundsOf_init].
  - assert (Hedges : Forall (fun c => in_range (X c + Width c) /\
                                      in_range (Y c + Height c))
                            (g0 :: g1 :: rest)).
    { apply Forall_forall. intros c Hc. apply list_elem_of_In in Hc.
      destruct (Hspan c c Hc Hc) as (H1 & H2 & _). split; assumption. }
    pose proof Hedges as Hedges'.
    apply Forall_cons_1 in Hedges' as [[Hx0 Hy0] Hrest].
    pose proof (fold_expandBounds_edges (g1 :: rest) [g0] (initBounds g0) Hrest) as Hb.
    unfold initBounds in Hb. rewrite !add_small in Hb by assumption.
    specialize (Hb (boundsOf_init g0)).
    change ([g0] ++ g1 :: rest) with (g0 :: g1 :: rest) in Hb.
    unfold mergeComponentGroup, initBounds.
    rewrite !add_small by assumption.
    destruct (fold_left expandBounds (g1 :: rest) _) as [[[x0 y0] x1] y1].
    assert (Hw : x1 [-] x0 = x1 - x0 /\ y1 [-] y0 = y1 - y0).
    { destruct Hb as (_ & Ex0 & Ey0 & Ex1 & Ey1).
      apply Exists_exists in Ex0 as (b0 & Hb0 & ->).
      apply Exists_exists in Ey0 as (b1 & Hb1 & ->).
      apply Exists_exists in Ex1 as (b2 & Hb2 & ->).
      apply Exists_exists in Ey1 as (b3 & Hb3 & ->).
      apply list_elem_of_In in Hb0, Hb1, Hb2, Hb3.
      destruct (Hspan b2 b0 Hb2 Hb0) as (_ & _ & Hx & _).
      destruct (Hspan b3 b1 Hb3 Hb1) as (_ & _ & _ & Hy).
      split; apply sub_small; assumption. }
    destruct Hw as [-> ->].
    eexists. split; [reflexivity | ].
    unfold unionBox. simpl.
    replace (x0 + (x1 - x0)) with x1 by lia.
    replace (y0 + (y1 - y0)) with y1 by lia. assumption.
Qed.

(** C9, amended. Every box that [findWordComponents] returns, whatever
    the stack, has positive width and height, and it does return on an
    image of non-negative dimensions given a stack deeper than the pixel
    count; and [mergeComponentGroup], on a non-empty group of boxes of
    positive width and height, returns a box of positive width and height
    when the group is a single box (which it returns as it is) or when
    the far edges of its members and its extent in both directions are
    representable, wherever the group lies. *)
Theorem produced_boxes_positive (stack : nat) (img : Image) (group : list WordBox) :
  0 <= Dx img -> 0 <= Dy img ->
  (Z.to_nat (Dx img) * Z.to_nat (Dy img) < stack)%nat ->
  group <> [] -> Forall positive_box group ->
  spanRepresentable group \/ (exists g, group = [g]) ->
  (exists components, findWordComponents stack img = Done components) /\
  (forall (k : nat) components,
     findWordComponents k img = Done components ->
     Forall positive_box components) /\
  (exists w, mergeComponentGroup group = Done w /\ positive_box w).
Proof.
  intros Hx Hy Hstack Hne Hpos Hspan. split; [ | split].
  - apply findWordComponents_total; assumption.
  - intros k components Hfind.
    apply findWordComponents_valid in Hfind.
    eapply Forall_impl; [exact Hfind | ].
    intros b Hb. apply isValidWordSize_true in Hb. unfold positive_box. lia.
  - destruct Hspan as [Hspan | [g ->]].
    + destruct (mergeComponentGroup_span group Hne Hspan) as (w & Hw & Hunion).
      exists w. split; [assumption | ].
      eapply unionBox_positive; eassumption.
    + exists g. split; [reflexivity | ].
      apply Forall_cons_1 in Hpos as [Hg _]. assumption.
Qed.

Lemma produced_boxes_positive_witness :
  (exists components, findWordComponents 2401 pageImage = Done components) /\
  (forall (k : nat) components,
     findWordComponents k pageImage = Done components ->
     Forall positive_box components) /\
  (exists w, mergeComponentGroup [boxOverEdge; boxBeside] = Done w /\ positive_box w).
Proof.
  apply (produced_boxes_positive 2401 pageImage [boxOverEdge; boxBeside]).
  - simpl. lia.
  - simpl. lia.
  - simpl. lia.
  - discriminate.
  - repeat constructor.
  - left. intros a b [<- | [<- | []]] [<- | [<- | []]];
      unfold in_range, int_min, int_max; simpl; lia.
Defined.

(** C9, as first stated, fails: two boxes of one pixel each at the two
    ends of the range of [int] have positive width and height, but the
    difference of their outer edges wraps around and the merged box has
    width -1. *)
Lemma mergeComponentGroup_width_wraps :
  [boxFarLeft; boxFarRight] <> [] /\
  Forall positive_box [boxFarLeft; boxFarRight] /\
  mergeComponentGroup [boxFarLeft; boxFarRight]
  = Done (mkWordBox int_min 0 (-1) 1 "merged_word_2") /\
  ~ positive_box (mkWordBox int_min 0 (-1) 1 "merged_word_2") /\
  ~ spanRepresentable [boxFarLeft; boxFarRight].
Proof.
  split; [discriminate | ]. split; [repeat constructor | ].
  split; [vm_compute; reflexivity | ]. split.
  - unfold positive_box. simpl. lia.
  - intros Hspan.
    destruct (Hspan boxFarRight boxFarLeft) as (_ & _ & Hx & _);
      [right; left; reflexivity | left; reflexivity | ].
    unfold boxFarRight, boxFarLeft in Hx. cbn [X Width] in Hx.
    unfold in_range, int_min, int_max in Hx. lia.
Qed.

(** ** Insertion sort *)

Section InsertionSortFacts.

Context {A : Type}.
Variable less : A -> A -> bool.

Lemma sinkLeft_perm x r : sinkLeft less x r ≡ₚ x :: r.
Proof.
  induction r as [|y r IH]; simpl; [reflexivity | ].
  destruct (less x y); [ | reflexivity].
  rewrite IH. apply Permutation_swap.
Qed.

Lemma fold_sinkLeft_perm data : forall acc,
  fold_left (fun revPrefix x => sinkLeft less x revPrefix) data acc ≡ₚ data ++ acc.
Proof.
  induction data as [|x data IH]; intros acc; simpl; [reflexivity | ].
  rewrite IH, sinkLeft_perm. symmetry. apply Permutation_middle.
Qed.

Lemma insertionSort_perm data : insertionSort_func less data ≡ₚ data.
Proof.
  unfold insertionSort_func. rewrite <- Permutation_rev.
  rewrite fold_sinkLeft_perm. rewrite app_nil_r. reflexivity.
Qed.

(** Whatever the comparator, the inner loop leaves the element it sinks
    behind a neighbour it is not less than and before one it is less
    than; the other neighbours stay as they were. *)
Lemma sinkLeft_neighbours x r :
  neighbours (fun b a => uncontradicted less a b) r ->
  neighbours (fun b a => uncontradicted less a b) (sinkLeft less x r) /\
  (head (sinkLeft less x r) = Some x \/ head (sinkLeft less x r) = head r).
Proof.
  induction r as [|y r IH]; intros Hr; simpl.
  - split; [exact I | left; reflexivity].
  - destruct (less x y) eqn:Hxy.
    + assert (Hr' : neighbours (fun b a => uncontradicted less a b) r)
        by (destruct r; [exact I | apply Hr]).
      destruct (IH Hr') as [Hsunk Hhead]. split; [ | right; reflexivity].
      destruct (sinkLeft less x r) as [|h t] eqn:Esunk; [exact I | ].
      split; [ | assumption].
      destruct Hhead as [Hh | Hh]; simpl in Hh.
      * injection Hh as ->. right. assumption.
      * destruct r as [|h' r'']; [discriminate | ]. simpl in Hh.
        injection Hh as ->. apply Hr.
    + split; [ | left; reflexivity].
      split; [left; assumption | assumption].
Qed.

Lemma fold_sinkLeft_neighbours data : forall acc,
  neighbours (fun b a => uncontradicted less a b) acc ->
  neighbours (fun b a => uncontradicted less a b)
    (fold_left (fun revPrefix x => sinkLeft less x revPrefix) data acc).
Proof.
  induction data as [|x data IH]; intros acc Hacc; simpl; [assumption | ].
  apply IH. apply sinkLeft_neighbours. assumption.
Qed.

Lemma neighbours_rev_append (R : A -> A -> Prop) l : forall acc,
  neighbours (fun b a => R a b) l -> neighbours R acc ->
  (forall a b, head l = Some a -> head acc = Some b -> R a b) ->
  neighbours R (rev_append l acc).
Proof.
  induction l as [|a l IH]; intros acc Hl Hacc Hjoin; simpl; [assumption | ].
  apply IH.
  - destruct l; [exact I | apply Hl].
  - destruct acc as [|b acc']; [exact I | ].
    split; [apply Hjoin; reflexivity | assumption].
  - intros a' b Ha' Hb. simpl in Hb. injection Hb as <-.
    destruct l as [|a'' l']; [discriminate | ]. simpl in Ha'. injection Ha' as ->.
    apply Hl.
Qed.

(** The insertion sort leaves no two neighbours in an order that the
    comparator contradicts, whatever the comparator. *)
Lemma insertionSort_neighbours data :
  neighbours (uncontradicted less) (insertionSort_func less data).
Proof.
  unfold insertionSort_func. rewrite rev_alt.
  apply neighbours_rev_append.
  - apply fold_sinkLeft_neighbours. exact I.
  - exact I.
  - intros a b _ Hb. discriminate.
Qed.

Variable key : A -> Z.

Lemma sinkLeft_descending x r :
  (forall y, y ∈ r -> less x y = (key x <? key y)) ->
  descending key r -> descending key (sinkLeft less x r).
Proof.
  unfold descending. induction r as [|y r IH]; intros Hless Hsorted; simpl.
  - repeat constructor.
  - apply StronglySorted_cons in Hsorted as [Hy Hr].
    rewrite (Hless y) by (left).
    destruct (Z.ltb_spec (key x) (key y)) as [Hlt|Hge].
    + apply StronglySorted_cons. split.
      * rewrite sinkLeft_perm. constructor; [lia | assumption].
      * apply IH; [ | assumption]. intros z Hz. apply Hless. right. assumption.
    + apply StronglySorted_cons. split.
      * constructor; [assumption | ].
        eapply Forall_impl; [exact Hy | ]. simpl. intros; lia.
      * apply StronglySorted_cons. split; assumption.
Qed.

Lemma fold_sinkLeft_descending data : forall acc,
  (forall a b, a ∈ data ++ acc -> b ∈ data ++ acc -> less a b = (key a <? key b)) ->
  descending key acc ->
  descending key (fold_left (fun revPrefix x => sinkLeft less x revPrefix) data acc).
Proof.
  induction data as [|x data IH]; intros acc Hless Hacc; simpl; [assumption | ].
  apply IH.
  - intros a b Ha Hb. apply Hless.
    + rewrite elem_of_app in Ha. rewrite (sinkLeft_perm x acc) in Ha.
      rewrite elem_of_app, !elem_of_cons in *. tauto.
    + rewrite elem_of_app in Hb. rewrite (sinkLeft_perm x acc) in Hb.
      rewrite elem_of_app, !elem_of_cons in *. tauto.
  - apply sinkLeft_descending; [ | assumption].
    intros y Hy. apply Hless.
    + left.
    + rewrite elem_of_app, elem_of_cons. tauto.
Qed.

Lemma descending_rev l :
  descending key l -> StronglySorted (fun a b => key a <= key b) (rev l).
Proof.
  unfold descending. induction l as [|x l IH]; intros Hl; simpl; [constructor | ].
  apply StronglySorted_cons in Hl as [Hx Hl].
  apply StronglySorted_app. split; [ | split].
  - intros a b Ha Hb. apply list_elem_of_singleton in Hb as ->.
    rewrite Forall_forall in Hx. apply Hx.
    apply list_elem_of_In, in_rev, list_elem_of_In. assumption.
  - apply IH. assumption.
  - repeat constructor.
Qed.

Lemma insertionSort_sorted data :
  (forall a b, a ∈ data -> b ∈ data -> less a b = (key a <? key b)) ->
  StronglySorted (fun a b => key a <= key b) (insertionSort_func less data).
Proof.
  intros Hless. unfold insertionSort_func. apply descending_rev.
  apply fold_sinkLeft_descending; [ | constructor].
  rewrite app_nil_r. assumption.
Qed.

End InsertionSortFacts.

(** ** LineGrouper *)

Lemma createLineFromWords_Words ws : Words (createLineFromWords ws) = ws.
Proof.
  destruct ws as [|w0 rest]; [reflexivity | ].
  unfold createLineFromWords.
  destruct (fold_left expandBounds rest (initBounds w0)) as [[[x0 y0] x1] y1].
  reflexivity.
Qed.

Lemma len_zero {A} (l : list A) : (len l =? 0) = true <-> l = [].
Proof.
  unfold len. rewrite Z.eqb_eq. destruct l; simpl; split; intros; (lia || congruence).
Qed.

Lemma len_pos {A} (l : list A) : (len l >? 0) = true <-> l <> [].
Proof.
  unfold len. rewrite Z.gtb_ltb, Z.ltb_lt.
  destruct l; simpl; split; intros; (lia || congruence).
Qed.

Section GrouperFacts.

Variable sameLine : list WordBox -> WordBox -> bool.

Lemma groupStep_held st word :
  held (groupStep sameLine st word) = held st ++ [word].
Proof.
  destruct st as [cur lines]. unfold groupStep, held.
  destruct (len cur =? 0) eqn:Hzero; simpl.
  { rewrite app_assoc. reflexivity. }
  destruct (sameLine cur word); simpl.
  { rewrite app_assoc. reflexivity. }
  destruct (len cur >? 0) eqn:Hpos.
  - rewrite map_app, concat_app. simpl.
    rewrite createLineFromWords_Words, app_nil_r. reflexivity.
  - exfalso. unfold len in *.
    rewrite Z.gtb_ltb in Hpos. apply Z.ltb_ge in Hpos. apply Z.eqb_neq in Hzero. lia.
Qed.

Lemma fold_groupStep_held words : forall st,
  held (fold_left (groupStep sameLine) words st) = held st ++ words.
Proof.
  induction words as [|w words IH]; intros st; simpl.
  - rewrite app_nil_r. reflexivity.
  - rewrite IH, groupStep_held, <- app_assoc. reflexivity.
Qed.

(** The lines returned are consecutive runs of the sorted sequence. *)
Lemma groupWordsIntoLines_concat sort_Slice words :
  words <> [] ->
  concat (map Words (groupWordsIntoLinesWith sort_Slice sameLine words))
  = sort_Slice lessWords words.
Proof.
  intros Hne. unfold groupWordsIntoLinesWith.
  destruct (len words =? 0) eqn:Hzero.
  { apply len_zero in Hzero. contradiction. }
  pose proof (fold_groupStep_held (sort_Slice lessWords words) ([], [])) as Hheld.
  destruct (fold_left _ _ _) as [cur lines]. unfold held in Hheld. simpl in Hheld.
  destruct (len cur >? 0) eqn:Hpos.
  - rewrite map_app, concat_app. simpl.
    rewrite createLineFromWords_Words, app_nil_r. assumption.
  - assert (cur = []) as ->.
    { destruct cur; [reflexivity | ]. unfold len in Hpos. simpl in Hpos.
      rewrite Z.gtb_ltb in Hpos. apply Z.ltb_ge in Hpos. lia. }
    rewrite app_nil_r in Hheld. assumption.
Qed.

Lemma groupWordsIntoLines_nil sort_Slice :
  groupWordsIntoLinesWith sort_Slice sameLine [] = [].
Proof. reflexivity. Qed.

End GrouperFacts.

Lemma concat_leftToRight (lines : list LineBox) :
  leftToRight (concat (map Words lines)) ->
  Forall (fun line => leftToRight (Words line)) lines.
Proof.
  unfold leftToRight. induction lines as [|line lines IH]; simpl; intros H.
  - constructor.
  - apply StronglySorted_app in H as (_ & Hline & Hrest).
    constructor; [assumption | apply IH; assumption].
Qed.

Lemma lessWords_sameRow a b : sameRow a b = true -> lessWords a b = (X a <? X b).
Proof. unfold sameRow, lessWords. intros ->. reflexivity. Qed.

(** C10. Whatever permutation of its input [sort.Slice] produces,
    [groupWordsIntoLines] of either package partitions its input without
    loss or duplication: the word sequences of the returned lines,
    concatenated, are a permutation of the input. *)
Theorem groupWordsIntoLines_partitions
    (sort_Slice : (WordBox -> WordBox -> bool) -> list WordBox -> list WordBox)
    (words : list WordBox) :
  (forall less l, Permutation (sort_Slice less l) l) ->
  Permutation (concat (map Words (Ocr.groupWordsIntoLines sort_Slice words))) words /\
  Permutation (concat (map Words (Hocr.groupWordsIntoLines sort_Slice words))) words.
Proof.
  intros Hperm. rewrite <- groupWordsIntoLines_same.
  assert (H : Permutation
                (concat (map Words (Ocr.groupWordsIntoLines sort_Slice words))) words).
  { destruct words as [|w0 words]; [constructor | ].
    unfold Ocr.groupWordsIntoLines.
    rewrite groupWordsIntoLines_concat by discriminate. apply Hperm. }
  split; exact H.
Qed.

Lemma groupWordsIntoLines_partitions_witness :
  Permutation
    (concat (map Words (Ocr.groupWordsIntoLines insertionSort_func [wordLeft; wordRight])))
    [wordLeft; wordRight] /\
  Permutation
    (concat (map Words (Hocr.groupWordsIntoLines insertionSort_func [wordLeft; wordRight])))
    [wordLeft; wordRight].
Proof.
  apply (groupWordsIntoLines_partitions insertionSort_func [wordLeft; wordRight]).
  intros less l. apply insertionSort_perm.
Defined.

Lemma neighbours_app_inv {A} (R : A -> A -> Prop) (l1 l2 : list A) :
  neighbours R (l1 ++ l2) -> neighbours R l1 /\ neighbours R l2.
Proof.
  induction l1 as [|a [|b l1] IH]; simpl; intros H.
  - split; [exact I | assumption].
  - split; [exact I | ]. destruct l2; [exact I | apply H].
  - destruct H as [Hab H]. destruct (IH H) as [H1 H2].
    split; [split | ]; assumption.
Qed.

Lemma neighbours_concat {A} (R : A -> A -> Prop) (ls : list (list A)) :
  neighbours R (concat ls) -> Forall (neighbours R) ls.
Proof.
  induction ls as [|l ls IH]; simpl; intros H; [constructor | ].
  apply neighbours_app_inv in H as [Hl Hls].
  constructor; [assumption | apply IH; assumption].
Qed.

Lemma neighbours_impl {A} (R R' : A -> A -> Prop) (l : list A) :
  (forall a b, R a b -> R' a b) -> neighbours R l -> neighbours R' l.
Proof.
  intros HR. induction l as [|a [|b l] IH]; simpl; auto.
  intros [Hab H]. split; [apply HR; assumption | apply IH; assumption].
Qed.

Lemma neighbours_mp {A} (P Q : A -> A -> Prop) (l : list A) :
  neighbours (fun a b => P a b -> Q a b) l -> neighbours P l -> neighbours Q l.
Proof.
  induction l as [|a [|b l] IH]; simpl; auto.
  intros [Hab H] [Pab HP]. split; [apply Hab; assumption | apply IH; assumption].
Qed.

Lemma neighbours_leftToRight (l : list WordBox) :
  neighbours (fun a b => X a <= X b) l -> leftToRight l.
Proof.
  unfold leftToRight. induction l as [|a [|b l] IH]; simpl; intros H.
  - constructor.
  - repeat constructor.
  - destruct H as [Hab H]. specialize (IH H).
    constructor; [assumption | ].
    constructor; [assumption | ].
    apply StronglySorted_inv in IH as [_ Hb].
    eapply Forall_impl; [exact Hb | ]. simpl. intros c Hc. lia.
Qed.

(** Two neighbours that the comparator does not contradict and that pass
    its same-row test both ways are in left-to-right order. *)
Lemma uncontradicted_sameRow a b :
  uncontradicted lessWords a b -> sameRowBoth a b -> X a <= X b.
Proof.
  intros Hab [Rab Rba]. unfold uncontradicted in Hab.
  rewrite (lessWords_sameRow a b Rab), (lessWords_sameRow b a Rba) in Hab.
  destruct Hab as [H | H]; [apply Z.ltb_ge in H | apply Z.ltb_lt in H]; lia.
Qed.

(** C4, amended. The lines that [groupWordsIntoLines] of either package
    returns are consecutive runs of the sequence the sort left, so the
    words of a line keep the order of the sort ([sort.Slice] permuting
    its input). If [sort.Slice] leaves no two neighbours in an order that
    the comparator contradicts, any two consecutive words of a line that
    pass the same-row test [|dy| < height/2] of the comparator both ways
    are in left-to-right order (non-decreasing X), and so a line whose
    consecutive words all pass that test is in left-to-right order. If
    [sort.Slice] orders by a key whenever the comparator is the strict
    order of that key on the input, every line is in left-to-right order
    when all input words pass the same-row test pairwise. *)
Theorem lines_keep_sort_order
    (sort_Slice : (WordBox -> WordBox -> bool) -> list WordBox -> list WordBox)
    (words : list WordBox) :
  (forall less l, Permutation (sort_Slice less l) l) ->
  concat (map Words (Ocr.groupWordsIntoLines sort_Slice words))
    = sort_Slice lessWords words /\
  Hocr.groupWordsIntoLines sort_Slice words
    = Ocr.groupWordsIntoLines sort_Slice words /\
  ((forall l, neighbours (uncontradicted lessWords) (sort_Slice lessWords l)) ->
   Forall (fun line =>
             neighbours (fun a b => sameRowBoth a b -> X a <= X b) (Words line))
          (Ocr.groupWordsIntoLines sort_Slice words) /\
   Forall (fun line =>
             neighbours sameRowBoth (Words line) -> leftToRight (Words line))
          (Ocr.groupWordsIntoLines sort_Slice words)) /\
  ((forall (key : WordBox -> Z) less l,
      (forall a b, In a l -> In b l -> less a b = (key a <? key b)) ->
      StronglySorted (fun a b => key a <= key b) (sort_Slice less l)) ->
   (forall a b, In a words -> In b words -> sameRow a b = true) ->
   Forall (fun line => leftToRight (Words line))
          (Ocr.groupWordsIntoLines sort_Slice words)).
Proof.
  intros Hperm.
  assert (Hconcat : concat (map Words (Ocr.groupWordsIntoLines sort_Slice words))
                    = sort_Slice lessWords words).
  { destruct words as [|w0 words].
    - symmetry. apply Permutation_nil. symmetry. apply Hperm.
    - apply groupWordsIntoLines_concat. discriminate. }
  split; [exact Hconcat | ].
  split; [symmetry; apply groupWordsIntoLines_same | ].
  split.
  - intros Hlocal.
    assert (Hpairs : Forall (fun line =>
                       neighbours (fun a b => sameRowBoth a b -> X a <= X b)
                                  (Words line))
                       (Ocr.groupWordsIntoLines sort_Slice words)).
    { pose proof (Hlocal words) as Hn. rewrite <- Hconcat in Hn.
      apply neighbours_concat in Hn. rewrite Forall_map in Hn.
      eapply Forall_impl; [exact Hn | ]. simpl. intros line Hline.
      eapply neighbours_impl; [ | exact Hline].
      intros a b Hab Hrow. apply uncontradicted_sameRow; assumption. }
    split; [exact Hpairs | ].
    eapply Forall_impl; [exact Hpairs | ]. simpl. intros line Hline Hrow.
    apply neighbours_leftToRight. eapply neighbours_mp; eassumption.
  - intros Hsorted Hrow. apply concat_leftToRight. rewrite Hconcat.
    apply (Hsorted X). intros a b Ha Hb. apply lessWords_sameRow.
    apply Hrow; assumption.
Qed.

Lemma lines_keep_sort_order_witness :
  concat (map Words (Ocr.groupWordsIntoLines insertionSort_func
                       [wordSecond; wordFirst]))
    = insertionSort_func lessWords [wordSecond; wordFirst] /\
  Hocr.groupWordsIntoLines insertionSort_func [wordSecond; wordFirst]
    = Ocr.groupWordsIntoLines insertionSort_func [wordSecond; wordFirst] /\
  Forall (fun line =>
            neighbours (fun a b => sameRowBoth a b -> X a <= X b) (Words line))
         (Ocr.groupWordsIntoLines insertionSort_func [wordSecond; wordFirst]) /\
  Forall (fun line =>
            neighbours sameRowBoth (Words line) -> leftToRight (Words line))
         (Ocr.groupWordsIntoLines insertionSort_func [wordSecond; wordFirst]) /\
  Forall (fun line => leftToRight (Words line))
         (Ocr.groupWordsIntoLines insertionSort_func [wordSecond; wordFirst]) /\
  Ocr.groupWordsIntoLines insertionSort_func [wordSecond; wordFirst]
    = [mkLineBox [wordFirst; wordSecond] 0 0 50 12] /\
  neighbours sameRowBoth [wordFirst; wordSecond].
Proof.
  destruct (lines_keep_sort_order insertionSort_func [wordSecond; wordFirst])
    as (Hconcat & Hsame & Hlocal & Hkey).
  { intros less l. apply insertionSort_perm. }
  destruct Hlocal as [Hpairs Hlines].
  { intros l. apply insertionSort_neighbours. }
  split; [exact Hconcat | ]. split; [exact Hsame | ].
  split; [exact Hpairs | ]. split; [exact Hlines | ].
  split; [ | split].
  - apply Hkey.
    + intros key less l Hless. apply insertionSort_sorted.
      intros a b Ha Hb. apply Hless; apply list_elem_of_In; assumption.
    + intros a b [<- | [<- | []]] [<- | [<- | []]]; vm_compute; reflexivity.
  - vm_compute. reflexivity.
  - simpl. split; [ | exact I]. split; vm_compute; reflexivity.
Defined.

(** C4, as first stated, fails: [wordRight] and [wordLeft] overlap
    vertically and end up in one line, but their tops are 8 pixels apart,
    not less than half of the height 10, so the comparator orders them by
    Y and the line holds the right word before the left one. *)
Lemma line_words_not_left_to_right :
  lessWords wordRight wordLeft = true /\ lessWords wordLeft wordRight = false /\
  Ocr.groupWordsIntoLines insertionSort_func [wordLeft; wordRight]
    = [mkLineBox [wordRight; wordLeft] 0 0 120 18] /\
  Hocr.groupWordsIntoLines insertionSort_func [wordLeft; wordRight]
    = [mkLineBox [wordRight; wordLeft] 0 0 120 18] /\
  ~ leftToRight [wordRight; wordLeft].
Proof.
  repeat (split; [vm_compute; reflexivity | ]).
  unfold leftToRight. intros H.
  apply StronglySorted_cons in H as [H _].
  apply Forall_cons_1 in H as [H _]. simpl in H. lia.
Qed.

(** ** Edit distance and accuracy metrics *)

Import Metrics.

Section EditDistanceFacts.

Context {T : Type}.
Variable eqb : T -> T -> bool.

Lemma distance_nil_l candidate : distance eqb [] candidate = length candidate.
Proof.
  unfold distance, costMatrix, cell. simpl.
  destruct (length candidate) as [|m]; [reflexivity | ].
  rewrite seq_nth by lia. reflexivity.
Qed.

Lemma rowsFrom_nil reference : forall prev i,
  rowsFrom eqb reference [] prev i = map (fun k => [k]) (seq i (length reference)).
Proof.
  induction reference as [|r reference IH]; intros prev i; simpl; [reflexivity | ].
  rewrite IH. reflexivity.
Qed.

Lemma distance_nil_r reference : distance eqb reference [] = length reference.
Proof.
  unfold distance, costMatrix, cell. simpl length at 1. simpl seq.
  rewrite rowsFrom_nil.
  change ([0%nat] :: map (fun k => [k]) (seq 1 (length reference)))
    with (map (fun k : nat => [k]) (seq 0 (S (length reference)))).
  rewrite (nth_indep _ [] [0%nat]) by (rewrite length_map, length_seq; lia).
  rewrite (map_nth (fun k : nat => [k])). rewrite seq_nth by lia. reflexivity.
Qed.

(** On the first row of the matrix the walk back to the origin counts one
    insertion per column. *)
Lemma backtrack_row0 M reference candidate : forall j fuel acc,
  (j <= fuel)%nat ->
  backtrack eqb fuel M reference candidate 0 j acc
  = mkAlignment (matches acc) (substitutions acc) (deletions acc)
      (insertions acc + j).
Proof.
  induction j as [|j IH]; intros fuel acc Hle.
  - destruct fuel, acc; simpl; f_equal; lia.
  - destruct fuel as [|fuel]; [lia | ]. simpl.
    rewrite IH by lia. simpl. f_equal. lia.
Qed.

Lemma align_nil_l candidate :
  align eqb [] candidate = mkAlignment 0 0 0 (length candidate).
Proof. unfold align. simpl. rewrite backtrack_row0 by lia. reflexivity. Qed.

End EditDistanceFacts.

Lemma length_list_ascii_of_string s :
  length (list_ascii_of_string s) = String.length s.
Proof. induction s as [|c s IH]; simpl; [reflexivity | rewrite IH; reflexivity]. Qed.

(** C5. The edit distance reproduces the literal vectors of the design
    document, and the distance between any string and the empty string,
    in either order, is the length of the string. *)
Theorem levenshteinDistance_vectors_and_base_cases :
  levenshteinDistance "kitten" "kitten" = 0 /\
  levenshteinDistance "book" "back" = 2 /\
  levenshteinDistance "a" "b" = 1 /\
  levenshteinDistance "kitten" "sitting" = 3 /\
  levenshteinDistance "flaw" "lawn" = 2 /\
  levenshteinDistance "gumbo" "gambol" = 2 /\
  levenshteinDistance "abc" "yabd" = 2 /\
  levenshteinDistance "intention" "execution" = 5 /\
  levenshteinDistance "distance" "difference" = 5 /\
  levenshteinDistance "Saturday" "Sunday" = 3 /\
  levenshteinDistance "abc" "abcdef" = 3 /\
  (forall s : string, levenshteinDistance s "" = Z.of_nat (String.length s)) /\
  (forall s : string, levenshteinDistance "" s = Z.of_nat (String.length s)).
Proof.
  repeat (split; [vm_compute; reflexivity | ]).
  split; intros s; unfold levenshteinDistance; simpl list_ascii_of_string.
  - rewrite distance_nil_r, length_list_ascii_of_string. reflexivity.
  - rewrite distance_nil_l, length_list_ascii_of_string. reflexivity.
Qed.

Lemma clamp01_range q : (0 <= clamp01 q <= 1)%Q.
Proof.
  unfold clamp01. destruct (Qle_bool q 0) eqn:Hlow.
  - split; [apply Qle_refl | discriminate].
  - destruct (Qle_bool 1 q) eqn:Hhigh.
    + split; [discriminate | apply Qle_refl].
    + split.
      * apply Qlt_le_weak, Qnot_le_lt. intros H.
        apply Qle_bool_iff in H. congruence.
      * apply Qlt_le_weak, Qnot_le_lt. intros H.
        apply Qle_bool_iff in H. congruence.
Qed.

Lemma denominator_pos n : (0 < inject_Z (Z.max 1 n))%Q.
Proof. unfold Qlt. simpl. lia. Qed.

Lemma ratio_nonneg a n : 0 <= a -> (0 <= ratio a n)%Q.
Proof.
  intros Ha. unfold ratio. apply Qle_shift_div_l; [apply denominator_pos | ].
  rewrite Qmult_0_l. unfold Qle. simpl. lia.
Qed.

Lemma ratio_zero_total a : (ratio a 0 == inject_Z a)%Q.
Proof.
  unfold ratio. change (Z.max 1 0) with 1.
  unfold Qdiv, Qeq. simpl. lia.
Qed.

(** C6. The word-level metrics of [CalculateAccuracyMetrics] are the
    quotients of the design document: word accuracy is the number of
    matches, and word error rate the number of substitutions, deletions
    and insertions, over [max(1, len(original_words))]; word similarity is
    one minus the error rate clamped to [[0, 1]]. The denominators are
    positive, so nothing is divided by zero; in particular for a reference
    without words the accuracy is 0 and the error rate is the number of
    transcribed words. *)
Theorem CalculateAccuracyMetrics_word_metrics (original corrected : string) :
  let m := CalculateAccuracyMetrics original corrected in
  let al := align String.eqb (fields original) (fields corrected) in
  let n := Z.max 1 (len (fields original)) in
  (CorrectWords m = Z.of_nat (matches al) /\
   Substitutions m = Z.of_nat (substitutions al) /\
   Deletions m = Z.of_nat (deletions al) /\
   Insertions m = Z.of_nat (insertions al) /\
   TotalWordsOriginal m = len (fields original)) /\
  (0 < inject_Z n /\
   0 < inject_Z (Z.max 1 (Z.of_nat (String.length original))))%Q /\
  (WordAccuracy m == inject_Z (CorrectWords m) / inject_Z n)%Q /\
  (WordErrorRate m
   == inject_Z (Substitutions m + Deletions m + Insertions m) / inject_Z n)%Q /\
  (WordSimilarity m == clamp01 (1 - WordErrorRate m))%Q /\
  (0 <= WordSimilarity m <= 1 /\ 0 <= CharacterSimilarity m <= 1 /\
   0 <= WordAccuracy m /\ 0 <= WordErrorRate m)%Q /\
  (fields original = [] ->
   (WordAccuracy m == 0 /\
    WordErrorRate m == inject_Z (TotalWordsTranscribed m))%Q).
Proof.
  intros m al n. subst m al n. unfold CalculateAccuracyMetrics. simpl.
  split; [repeat split | ].
  split; [split; apply denominator_pos | ].
  split; [reflexivity | ]. split; [reflexivity | ]. split; [reflexivity | ].
  split.
  - split; [apply clamp01_range | ]. split; [apply clamp01_range | ].
    split; apply ratio_nonneg; lia.
  - intros ->. rewrite align_nil_l. simpl.
    split; apply ratio_zero_total.
Qed.

(** * Further properties of the segmentation code *)

(** ** More on loops *)

Lemma foldM_preserves_In {A B} (P : B -> Prop) (f : B -> A -> outcome B) l :
  (forall b a b', In a l -> P b -> f b a = Done b' -> P b') ->
  forall b b', P b -> foldM f l b = Done b' -> P b'.
Proof.
  induction l as [|a l IH]; intros Hf b b' Hb; simpl.
  - intros [= <-]. assumption.
  - destruct (f b a) as [b1| |] eqn:E; try discriminate.
    apply IH.
    + intros b0 a0 b0' Hin. apply Hf. right. assumption.
    + eapply Hf; [left; reflexivity | eassumption | eassumption].
Qed.

Lemma foldM_fixed {A B} (f : B -> A -> outcome B) l b :
  (forall a, In a l -> f b a = Done b) -> foldM f l b = Done b.
Proof.
  induction l as [|a l IH]; intros Hf; simpl; [reflexivity | ].
  rewrite (Hf a) by (left; reflexivity).
  apply IH. intros a0 Hin. apply Hf. right. assumption.
Qed.

(** ** The bounding box of a fill stays inside the image *)

Lemma floodFill_unfold (stack : nat) img x y st :
  floodFillComponent (S stack) img x y st =
  if (x <? 0) || (x >=? Dx img) || (y <? 0) || (y >=? Dy img) then Done st
  else
    seen ← visitedAt (visited st) x y;
    if seen || negb (isTextPixel (At img x y)) then Done st
    else
      v' ← markVisited (visited st) x y;
      foldM (fun s dir =>
               floodFillComponent stack img (x [+] dir.1) (y [+] dir.2) s)
            directions
            (mkFillState v'
               (if x <? minX st then x else minX st)
               (if y <? minY st then y else minY st)
               (if x >? maxX st then x else maxX st)
               (if y >? maxY st then y else maxY st)).
Proof. reflexivity. Qed.

(** The guard of [floodFillComponent] lets a pixel through exactly when it
    is inside the image. *)
Lemma guard_false img x y :
  (x <? 0) || (x >=? Dx img) || (y <? 0) || (y >=? Dy img) = false <->
  inBounds img x y.
Proof.
  unfold inBounds. rewrite !orb_false_iff, !Z.ltb_ge, !Z.geb_leb, !Z.leb_gt. tauto.
Qed.

Lemma floodFill_bboxIn img : forall (stack : nat) x y st st',
  bboxIn img st ->
  floodFillComponent stack img x y st = Done st' -> bboxIn img st'.
Proof.
  induction stack as [|stack IH]; intros x y st st' Hin; [discriminate | ].
  rewrite floodFill_unfold.
  destruct ((x <? 0) || (x >=? Dx img) || (y <? 0) || (y >=? Dy img)) eqn:Hout.
  { intros [= <-]. assumption. }
  apply guard_false in Hout as [[Hx0 Hx1] [Hy0 Hy1]].
  intros H. apply bind_Done in H as (seen & _ & H).
  destruct (seen || negb (isTextPixel (At img x y))).
  { injection H as <-. assumption. }
  apply bind_Done in H as (v' & _ & H). revert H.
  apply (foldM_preserves (bboxIn img)).
  - intros s dir s' Hs. apply IH. assumption.
  - destruct Hin as (Hmx & HMx & Hmy & HMy). unfold bboxIn. simpl.
    rewrite !Z.gtb_ltb.
    destruct (Z.ltb_spec x (minX st)), (Z.ltb_spec (maxX st) x),
             (Z.ltb_spec y (minY st)), (Z.ltb_spec (maxY st) y); lia.
Qed.

Lemma scanPixel_inside (stack : nat) img y x s s' :
  in_range (Dx img) -> in_range (Dy img) ->
  0 <= x < Dx img -> 0 <= y < Dy img ->
  Forall (insideImage img) s.2 ->
  scanPixel stack img y s x = Done s' -> Forall (insideImage img) s'.2.
Proof.
  intros HW HH Hx Hy. destruct s as [v components]. simpl. intros Hall.
  unfold scanPixel. intros H. apply bind_Done in H as (seen & _ & H).
  destruct (negb seen && isTextPixel (At img x y)); [ | injection H as <-; assumption].
  apply bind_Done in H as (st & Hfill & H).
  apply floodFill_bboxIn in Hfill; [ | unfold bboxIn; simpl; lia].
  destruct Hfill as (Hmx & HMx & Hmy & HMy).
  assert (Hw : maxX st [-] minX st [+] 1 = maxX st - minX st + 1).
  { rewrite sub_small, add_small; unfold in_range, int_min, int_max in *; lia. }
  assert (Hh : maxY st [-] minY st [+] 1 = maxY st - minY st + 1).
  { rewrite sub_small, add_small; unfold in_range, int_min, int_max in *; lia. }
  rewrite Hw, Hh in H.
  destruct (isValidWordSize _ _ _ _); injection H as <-; simpl; [ | assumption].
  apply Forall_app. split; [assumption | ].
  constructor; [ | constructor]. unfold insideImage. simpl. lia.
Qed.

Lemma findWordComponents_inside (stack : nat) img components :
  in_range (Dx img) -> in_range (Dy img) ->
  findWordComponents stack img = Done components ->
  Forall (insideImage img) components.
Proof.
  intros HW HH. unfold findWordComponents. intros H.
  apply bind_Done in H as (v & _ & H).
  apply bind_Done in H as (s & Hs & H). injection H as <-.
  revert Hs.
  apply (foldM_preserves_In (fun s => Forall (insideImage img) s.2)); [ | constructor].
  intros s0 y s1 Hy Hs0. apply In_upto in Hy.
  apply (foldM_preserves_In (fun s => Forall (insideImage img) s.2)); [ | assumption].
  intros s2 x s3 Hx. apply In_upto in Hx.
  apply scanPixel_inside; assumption.
Qed.

Lemma insideImage_pixel_box img b :
  in_range (Dx img) -> in_range (Dy img) ->
  validIn img b -> insideImage img b -> pixel_box b.
Proof.
  intros HW HH Hvalid (Hx & Hy & Hxw & Hyh).
  apply isValidWordSize_true in Hvalid.
  unfold pixel_box, in_range, int_min, int_max in *. lia.
Qed.

(** X1. Every box that [findWordComponents] returns lies inside the image:
    its corner is at non-negative coordinates and its far edges do not
    pass the image's width and height. Such a box is in pixel coordinates,
    with positive width and height. *)
Theorem findWordComponents_boxes_inside_image
    (stack : nat) (img : Image) (components : list WordBox) :
  in_range (Dx img) -> in_range (Dy img) ->
  findWordComponents stack img = Done components ->
  Forall (fun b => insideImage img b /\ pixel_box b /\ positive_box b) components.
Proof.
  intros HW HH Hfind.
  pose proof (findWordComponents_inside stack img components HW HH Hfind) as Hin.
  pose proof (findWordComponents_valid stack img components Hfind) as Hvalid.
  rewrite Forall_forall in *. intros b Hb.
  split; [apply Hin; assumption | ]. split.
  - apply (insideImage_pixel_box img); auto.
  - specialize (Hvalid b Hb). apply isValidWordSize_true in Hvalid.
    unfold positive_box. lia.
Qed.

Lemma findWordComponents_boxes_inside_image_witness :
  Forall (fun b => insideImage pageImage b /\ pixel_box b /\ positive_box b)
    [mkWordBox 5 3 10 11 "word_1"].
Proof.
  apply (findWordComponents_boxes_inside_image 200 pageImage).
  - unfold in_range, int_min, int_max. simpl. lia.
  - unfold in_range, int_min, int_max. simpl. lia.
  - vm_compute. reflexivity.
Defined.

(** ** A page without text pixels *)

(** X2. On an image of non-negative dimensions none of whose pixels is a
    text pixel, [findWordComponents] returns no component, whatever the
    stack it is given: the fill is never started. *)
Theorem findWordComponents_blank_page (stack : nat) (img : Image) :
  0 <= Dx img -> 0 <= Dy img ->
  (forall x y, inBounds img x y -> isTextPixel (At img x y) = false) ->
  findWordComponents stack img = Done [].
Proof.
  intros Hx Hy Hblank. unfold findWordComponents.
  destruct (makeVisited_spec img Hx Hy) as (v & -> & Hshape). simpl.
  rewrite foldM_fixed; [reflexivity | ].
  intros y Hy'. apply In_upto in Hy'.
  apply foldM_fixed. intros x Hx'. apply In_upto in Hx'.
  unfold scanPixel.
  destruct (visitedAt_total img v x y Hshape Hx' Hy') as [seen ->]. simpl.
  rewrite Hblank by (split; assumption).
  rewrite andb_false_r. reflexivity.
Qed.

Lemma findWordComponents_blank_page_witness :
  findWordComponents 0
    (mkImage 30 20 (fun _ _ => mkColor 65535 65535 65535 65535)) = Done [].
Proof.
  apply findWordComponents_blank_page.
  - simpl. lia.
  - simpl. lia.
  - intros x y _. reflexivity.
Defined.

(** ** Labels of the components *)

Lemma scanPixel_labels (stack : nat) img y x s s' :
  map Text s.2 = map wordLabel (seq 0 (length s.2)) ->
  scanPixel stack img y s x = Done s' ->
  map Text s'.2 = map wordLabel (seq 0 (length s'.2)).
Proof.
  destruct s as [v components]. simpl. intros Hlab. unfold scanPixel.
  intros H. apply bind_Done in H as (seen & _ & H).
  destruct (negb seen && isTextPixel (At img x y)); [ | injection H as <-; assumption].
  apply bind_Done in H as (st & _ & H).
  destruct (isValidWordSize _ _ _ _); injection H as <-; simpl; [ | assumption].
  rewrite length_app, Nat.add_1_r, seq_S, !map_app, Hlab. simpl. reflexivity.
Qed.

(** X4. The boxes that [findWordComponents] returns are labelled
    [word_1], [word_2], ... in the order in which they are returned; a
    blob that fails the size test uses up no number. *)
Theorem findWordComponents_labels_consecutive
    (stack : nat) (img : Image) (components : list WordBox) :
  findWordComponents stack img = Done components ->
  map Text components = map wordLabel (seq 0 (length components)).
Proof.
  unfold findWordComponents. intros H.
  apply bind_Done in H as (v & _ & H).
  apply bind_Done in H as (s & Hs & H). injection H as <-.
  revert Hs.
  apply (foldM_preserves
           (fun s => map Text s.2 = map wordLabel (seq 0 (length s.2))));
    [ | reflexivity].
  intros s0 y s1 Hs0.
  apply (foldM_preserves
           (fun s => map Text s.2 = map wordLabel (seq 0 (length s.2))));
    [ | assumption].
  intros s2 x s3. apply scanPixel_labels.
Qed.

Lemma findWordComponents_labels_consecutive_witness :
  map Text [mkWordBox 5 3 10 11 "word_1"]
  = map wordLabel (seq 0 (length [mkWordBox 5 3 10 11 "word_1"])).
Proof.
  apply (findWordComponents_labels_consecutive 200 pageImage).
  vm_compute. reflexivity.
Defined.

(** ** What a fill marks *)

Lemma visitedAt_spec v x y c :
  visitedAt v x y = Done c <->
  0 <= x /\ 0 <= y /\
  exists row, v !! Z.to_nat y = Some row /\ row !! Z.to_nat x = Some c.
Proof.
  unfold visitedAt. rewrite bind_Done. split.
  - intros (row & Hrow & Hc). apply index_Done in Hrow as [Hy Hrow].
    apply index_Done in Hc as [Hx Hc]. eauto 6.
  - intros (Hx & Hy & row & Hrow & Hc). exists row.
    split; apply index_Done; auto.
Qed.

Lemma marked_dec v x y : marked v x y \/ ~ marked v x y.
Proof.
  unfold marked. destruct (visitedAt v x y) as [[|]| |]; auto;
    right; discriminate.
Qed.

Lemma markVisited_marked v x y v' :
  markVisited v x y = Done v' ->
  forall x' y', marked v' x' y' <-> marked v x' y' \/ (x' = x /\ y' = y).
Proof.
  unfold markVisited. intros H.
  apply bind_Done in H as (row & Hrow & H).
  apply bind_Done in H as (c0 & Hc0 & H). injection H as <-.
  apply index_Done in Hrow as [Hy Hrow]. apply index_Done in Hc0 as [Hx Hc0].
  pose proof (lookup_lt_Some _ _ _ Hrow) as Hylt.
  pose proof (lookup_lt_Some _ _ _ Hc0) as Hxlt.
  intros x' y'. unfold marked. rewrite !visitedAt_spec. split.
  - intros (Hx' & Hy' & r & Hr & Hc).
    destruct (decide (Z.to_nat y = Z.to_nat y')) as [Ey|Ny].
    + rewrite <- Ey, list_lookup_insert_eq in Hr by assumption.
      injection Hr as <-.
      destruct (decide (Z.to_nat x = Z.to_nat x')) as [Ex|Nx].
      * right. lia.
      * rewrite list_lookup_insert_ne in Hc by assumption.
        left. rewrite <- Ey. eauto 6.
    + rewrite list_lookup_insert_ne in Hr by assumption. left. eauto 6.
  - intros [(Hx' & Hy' & r & Hr & Hc) | [-> ->]].
    + split; [assumption | ]. split; [assumption | ].
      destruct (decide (Z.to_nat y = Z.to_nat y')) as [Ey|Ny].
      * rewrite <- Ey in *. rewrite Hrow in Hr. injection Hr as <-.
        exists (<[Z.to_nat x := true]> row).
        split; [apply list_lookup_insert_eq; assumption | ].
        destruct (decide (Z.to_nat x = Z.to_nat x')) as [Ex|Nx].
        -- rewrite <- Ex. apply list_lookup_insert_eq. assumption.
        -- rewrite list_lookup_insert_ne by assumption. assumption.
      * exists r. rewrite list_lookup_insert_ne by assumption. auto.
    + split; [assumption | ]. split; [assumption | ].
      exists (<[Z.to_nat x := true]> row).
      split; apply list_lookup_insert_eq; assumption.
Qed.

Lemma grows_refl st : grows st st.
Proof. unfold grows. repeat split; auto; lia. Qed.

Lemma grows_trans a b c : grows a b -> grows b c -> grows a c.
Proof.
  intros (Hm & Hb) (Hm' & Hb'). split; [ | lia].
  intros x y Hxy. apply Hm', Hm, Hxy.
Qed.

Lemma fillable_mono img (v v' : list (list bool)) x y :
  (forall x y, marked v x y -> marked v' x y) ->
  fillable img v' x y -> fillable img v x y.
Proof.
  intros Hm (Hin & Htext & Hun). split; [assumption | ]. split; [assumption | ].
  intros H. apply Hun, Hm, H.
Qed.

Lemma reach_mono img (v v' : list (list bool)) x y x' y' :
  (forall x y, marked v x y -> marked v' x y) ->
  reach img v' x y x' y' -> reach img v x y x' y'.
Proof.
  intros Hm. induction 1 as [Hseed | x1 y1 dx dy _ IH Hdir Hfill].
  - apply reach_seed. eapply fillable_mono; eassumption.
  - apply reach_step; [assumption | assumption | ].
    eapply fillable_mono; eassumption.
Qed.

Lemma reach_trans img v x y x1 y1 x2 y2 :
  reach img v x y x1 y1 -> reach img v x1 y1 x2 y2 -> reach img v x y x2 y2.
Proof.
  intros H1. induction 1 as [_ | x3 y3 dx dy _ IH Hdir Hfill].
  - assumption.
  - apply reach_step; assumption.
Qed.

Lemma reach_source_fillable img v x y x' y' :
  reach img v x y x' y' -> fillable img v x y.
Proof. induction 1; assumption. Qed.

Lemma reach_target_fillable img v x y x' y' :
  reach img v x y x' y' -> fillable img v x' y'.
Proof. induction 1; assumption. Qed.

Lemma reach_prepend img v x y dx dy x' y' :
  fillable img v x y -> In (dx, dy) directions ->
  reach img v (x + dx) (y + dy) x' y' -> reach img v x y x' y'.
Proof.
  intros Hfill Hdir Hreach.
  apply (reach_trans img v x y (x + dx) (y + dy)); [ | assumption].
  apply reach_step; [apply reach_seed; assumption | assumption | ].
  eapply reach_source_fillable. eassumption.
Qed.

Lemma fresh_split (a b c : list (list bool)) x y :
  fresh a c x y -> fresh a b x y \/ fresh b c x y.
Proof.
  intros [Hc Ha]. destruct (marked_dec b x y) as [Hb|Hb].
  - left. split; assumption.
  - right. split; assumption.
Qed.

Lemma fresh_earlier (a b c : list (list bool)) x y :
  (forall x y, marked b x y -> marked c x y) ->
  fresh a b x y -> fresh a c x y.
Proof. intros Hm [Hb Ha]. split; auto. Qed.

Lemma fresh_later (a b c : list (list bool)) x y :
  (forall x y, marked a x y -> marked b x y) ->
  fresh b c x y -> fresh a c x y.
Proof. intros Hm [Hc Hb]. split; auto. Qed.

Lemma fillSpec_refl img st : fillSpec img st st.
Proof.
  split; [apply grows_refl | ]. split; [ | split].
  - intros x y [H1 H2]. contradiction.
  - unfold tight. auto.
  - intros x y dx dy [H1 H2]. contradiction.
Qed.

Lemma tight_trans a b c :
  grows a b -> grows b c -> tight a b -> tight b c -> tight a c.
Proof.
  intros [Hab _] [Hbc _] (T1 & T2 & T3 & T4) (U1 & U2 & U3 & U4).
  assert (Hold : forall x y, fresh (visited a) (visited b) x y ->
                             fresh (visited a) (visited c) x y).
  { intros x y. apply fresh_earlier. assumption. }
  assert (Hnew : forall x y, fresh (visited b) (visited c) x y ->
                             fresh (visited a) (visited c) x y).
  { intros x y. apply fresh_later. assumption. }
  unfold tight. repeat split.
  - destruct U1 as [E | (x & y & F & E)]; [ | right; eauto].
    destruct T1 as [E' | (x & y & F & E')]; [left; congruence | ].
    right. exists x, y. split; [auto | congruence].
  - destruct U2 as [E | (x & y & F & E)]; [ | right; eauto].
    destruct T2 as [E' | (x & y & F & E')]; [left; congruence | ].
    right. exists x, y. split; [auto | congruence].
  - destruct U3 as [E | (x & y & F & E)]; [ | right; eauto].
    destruct T3 as [E' | (x & y & F & E')]; [left; congruence | ].
    right. exists x, y. split; [auto | congruence].
  - destruct U4 as [E | (x & y & F & E)]; [ | right; eauto].
    destruct T4 as [E' | (x & y & F & E')]; [left; congruence | ].
    right. exists x, y. split; [auto | congruence].
Qed.

Lemma inBBox_grows b c x y : grows b c -> inBBox b x y -> inBBox c x y.
Proof. intros (_ & Hb) Hin. unfold inBBox in *. lia. Qed.

Lemma fillSpec_trans img a b c :
  fillSpec img a b -> fillSpec img b c -> fillSpec img a c.
Proof.
  intros (Gab & Sab & Tab & Cab) (Gbc & Sbc & Tbc & Cbc).
  split; [eapply grows_trans; eassumption | ]. split; [ | split].
  - intros x y F. destruct (fresh_split _ (visited b) _ x y F) as [F1|F2].
    + destruct (Sab x y F1) as [Hf Hin]. split; [assumption | ].
      eapply inBBox_grows; eassumption.
    + destruct (Sbc x y F2) as [Hf Hin]. split; [ | assumption].
      eapply fillable_mono; [apply (proj1 Gab) | assumption].
  - eapply tight_trans; eassumption.
  - intros x y dx dy F Hdir Hin Htext.
    destruct (fresh_split _ (visited b) _ x y F) as [F1|F2].
    + apply (proj1 Gbc). eapply Cab; eassumption.
    + eapply Cbc; eassumption.
Qed.

Lemma add_direction img x y dx dy :
  in_range (Dx img) -> in_range (Dy img) -> inBounds img x y ->
  In (dx, dy) directions ->
  x [+] dx = x + dx /\ y [+] dy = y + dy.
Proof.
  intros HW HH [Hx Hy] Hdir.
  assert (Hd : -1 <= dx <= 1 /\ -1 <= dy <= 1).
  { unfold directions in Hdir. simpl in Hdir.
    repeat (destruct Hdir as [[= <- <-] | Hdir]; [lia | ]). contradiction. }
  split; apply add_small; unfold in_range, int_min, int_max in *; lia.
Qed.

(** The neighbours visited one after the other by a frame at (x, y). *)
Lemma children_spec img (stack : nat) (x y : Z) :
  (forall x y st st',
     floodFillComponent stack img x y st = Done st' -> callSpec img x y st st') ->
  forall ds s0 s',
    foldM (fun s dir => floodFillComponent stack img (x [+] dir.1) (y [+] dir.2) s)
          ds s0 = Done s' ->
    fillSpec img s0 s' /\
    (forall d, In d ds ->
       inBounds img (x [+] d.1) (y [+] d.2) ->
       isTextPixel (At img (x [+] d.1) (y [+] d.2)) = true ->
       marked (visited s') (x [+] d.1) (y [+] d.2)) /\
    (forall x' y', fresh (visited s0) (visited s') x' y' ->
       exists d, In d ds /\
                 reach img (visited s0) (x [+] d.1) (y [+] d.2) x' y').
Proof.
  intros Hcall. induction ds as [|d ds IH]; intros s0 s'; simpl.
  - intros [= <-]. split; [apply fillSpec_refl | ]. split.
    + intros d [].
    + intros x' y' [H1 H2]. contradiction.
  - destruct (floodFillComponent stack img (x [+] d.1) (y [+] d.2) s0)
      as [s1| |] eqn:Hfirst; try discriminate.
    intros Hrest.
    destruct (Hcall _ _ _ _ Hfirst) as (S1 & M1 & R1).
    destruct (IH _ _ Hrest) as (S2 & M2 & R2).
    split; [eapply fillSpec_trans; eassumption | ]. split.
    + intros d' [<- | Hin] Hb Ht.
      * apply (proj1 (proj1 S2)). apply M1; assumption.
      * apply M2; assumption.
    + intros x' y' F.
      destruct (fresh_split _ (visited s1) _ x' y' F) as [F1|F2].
      * exists d. split; [left; reflexivity | apply R1; assumption].
      * destruct (R2 x' y' F2) as (d' & Hin & Hreach).
        exists d'. split; [right; assumption | ].
        eapply reach_mono; [apply (proj1 (proj1 S1)) | exact Hreach].
Qed.

Lemma callSpec_unchanged img x y st :
  (inBounds img x y -> isTextPixel (At img x y) = true ->
   marked (visited st) x y) ->
  callSpec img x y st st.
Proof.
  intros Hseed. split; [apply fillSpec_refl | ]. split; [assumption | ].
  intros x' y' [H1 H2]. contradiction.
Qed.

(** A frame that marks (x, y) and then lets its children run. *)
Lemma frame_spec img x y st v' st' :
  in_range (Dx img) -> in_range (Dy img) ->
  inBounds img x y -> isTextPixel (At img x y) = true ->
  visitedAt (visited st) x y = Done false ->
  markVisited (visited st) x y = Done v' ->
  let st1 := mkFillState v'
               (if x <? minX st then x else minX st)
               (if y <? minY st then y else minY st)
               (if x >? maxX st then x else maxX st)
               (if y >? maxY st then y else maxY st) in
  fillSpec img st1 st' ->
  (forall d, In d directions ->
     inBounds img (x [+] d.1) (y [+] d.2) ->
     isTextPixel (At img (x [+] d.1) (y [+] d.2)) = true ->
     marked (visited st') (x [+] d.1) (y [+] d.2)) ->
  (forall x' y', fresh v' (visited st') x' y' ->
     exists d, In d directions /\ reach img v' (x [+] d.1) (y [+] d.2) x' y') ->
  callSpec img x y st st'.
Proof.
  intros HW HH Hin Htext Hseen Hmark st1 S2 M2 R2.
  pose proof (markVisited_marked _ _ _ _ Hmark) as Hmm.
  assert (Hunseen : ~ marked (visited st) x y).
  { unfold marked. rewrite Hseen. discriminate. }
  assert (Hseed : fillable img (visited st) x y) by (repeat split; auto; apply Hin).
  assert (Hsub : forall a b, marked (visited st) a b -> marked v' a b).
  { intros a b Hab. apply Hmm. left. assumption. }
  assert (Hself : marked v' x y) by (apply Hmm; right; split; reflexivity).
  assert (Hfresh1 : forall a b, fresh (visited st) v' a b -> a = x /\ b = y).
  { intros a b [Hv' Hv]. apply Hmm in Hv' as [Hv' | Heq]; [contradiction | assumption]. }
  assert (Hbox1 : inBBox st1 x y).
  { unfold inBBox, st1. simpl. rewrite !Z.gtb_ltb.
    destruct (Z.ltb_spec x (minX st)), (Z.ltb_spec (maxX st) x),
             (Z.ltb_spec y (minY st)), (Z.ltb_spec (maxY st) y); lia. }
  assert (G01 : grows st st1).
  { split; [exact Hsub | ]. unfold st1. simpl. rewrite !Z.gtb_ltb.
    destruct (Z.ltb_spec x (minX st)), (Z.ltb_spec (maxX st) x),
             (Z.ltb_spec y (minY st)), (Z.ltb_spec (maxY st) y); lia. }
  assert (Hseedfresh : fresh (visited st) (visited st') x y).
  { split; [ | assumption]. apply (proj1 (proj1 S2)). exact Hself. }
  destruct S2 as (G12 & Snd & T12 & C12).
  split; [ | split].
  - split; [eapply grows_trans; eassumption | ]. split; [ | split].
    + intros a b F. destruct (fresh_split _ v' _ a b F) as [F1|F2].
      * destruct (Hfresh1 a b F1) as [-> ->]. split; [assumption | ].
        eapply inBBox_grows; eassumption.
      * destruct (Snd a b F2) as [Hf Hb]. split; [ | assumption].
        eapply fillable_mono; [exact Hsub | exact Hf].
    + assert (Hnew : forall a b, fresh v' (visited st') a b ->
                                 fresh (visited st) (visited st') a b).
      { intros a b. apply fresh_later. exact Hsub. }
      destruct T12 as (U1 & U2 & U3 & U4). unfold st1 in U1, U2, U3, U4.
      simpl in U1, U2, U3, U4. rewrite Z.gtb_ltb in U2, U4.
      unfold tight. repeat split.
      * destruct U1 as [E | (a & b & F & E)]; [ | right; eauto].
        destruct (Z.ltb_spec x (minX st)); [ | left; assumption].
        right. exists x, y. split; [assumption | congruence].
      * destruct U2 as [E | (a & b & F & E)]; [ | right; eauto].
        destruct (Z.ltb_spec (maxX st) x); [ | left; assumption].
        right. exists x, y. split; [assumption | congruence].
      * destruct U3 as [E | (a & b & F & E)]; [ | right; eauto].
        destruct (Z.ltb_spec y (minY st)); [ | left; assumption].
        right. exists x, y. split; [assumption | congruence].
      * destruct U4 as [E | (a & b & F & E)]; [ | right; eauto].
        destruct (Z.ltb_spec (maxY st) y); [ | left; assumption].
        right. exists x, y. split; [assumption | congruence].
    + intros a b dx dy F Hdir Hb Ht.
      destruct (fresh_split _ v' _ a b F) as [F1|F2].
      * destruct (Hfresh1 a b F1) as [-> ->].
        destruct (add_direction img x y dx dy HW HH Hin Hdir) as [Ex Ey].
        specialize (M2 (dx, dy) Hdir). simpl in M2. rewrite Ex, Ey in M2.
        apply M2; assumption.
      * eapply C12; eassumption.
  - intros _ _. apply (proj1 G12). exact Hself.
  - intros a b F. destruct (fresh_split _ v' _ a b F) as [F1|F2].
    + destruct (Hfresh1 a b F1) as [-> ->]. apply reach_seed. assumption.
    + destruct (R2 a b F2) as ([dx dy] & Hdir & Hreach). simpl in Hreach.
      destruct (add_direction img x y dx dy HW HH Hin Hdir) as [Ex Ey].
      rewrite Ex, Ey in Hreach.
      apply (reach_prepend img _ x y dx dy); [assumption | assumption | ].
      eapply reach_mono; [exact Hsub | exact Hreach].
Qed.

Lemma floodFill_callSpec img :
  in_range (Dx img) -> in_range (Dy img) ->
  forall (stack : nat) x y st st',
    floodFillComponent stack img x y st = Done st' -> callSpec img x y st st'.
Proof.
  intros HW HH. induction stack as [|stack IH]; intros x y st st' H; [discriminate | ].
  rewrite floodFill_unfold in H.
  destruct ((x <? 0) || (x >=? Dx img) || (y <? 0) || (y >=? Dy img)) eqn:Hout.
  { injection H as <-. apply callSpec_unchanged. intros Hin.
    apply guard_false in Hin. congruence. }
  apply guard_false in Hout.
  apply bind_Done in H as (seen & Hseen & H).
  destruct seen; cbn [orb negb] in H.
  { injection H as <-. apply callSpec_unchanged. intros _ _. exact Hseen. }
  destruct (isTextPixel (At img x y)) eqn:Htext; cbn [orb negb] in H.
  - apply bind_Done in H as (v' & Hmark & Hfold).
    destruct (children_spec img stack x y IH _ _ _ Hfold) as (S2 & M2 & R2).
    eapply frame_spec; eassumption.
  - injection H as <-. apply callSpec_unchanged. intros _ Ht. congruence.
Qed.

Lemma callSpec_fresh_iff_reach img x y st st' :
  callSpec img x y st st' -> fillable img (visited st) x y ->
  forall x' y', fresh (visited st) (visited st') x' y' <->
                reach img (visited st) x y x' y'.
Proof.
  intros ((G & Snd & T & C) & Hseed & Hreach) (Hin & Htext & Hun) x' y'.
  split; [apply Hreach | ].
  induction 1 as [_ | x1 y1 dx dy _ IH Hdir Hfill].
  - split; [apply Hseed; assumption | assumption].
  - destruct Hfill as (Hin1 & Htext1 & Hun1). split; [ | assumption].
    eapply C; eassumption.
Qed.

(** X3. On return, [floodFillComponent] called at (x, y) has marked exactly
    the pixels joined to (x, y) by a path of text pixels that were not yet
    marked - the 8-connected component of the seed - when the seed is such
    a pixel, and has changed nothing otherwise. It never unmarks a cell or
    shrinks the bounding box; every pixel it marked lies in the bounding
    box it returns, and each edge of that box is the edge it was given or
    passes through a pixel it marked. *)
Theorem floodFillComponent_marks_component
    (stack : nat) (img : Image) (x y : Z) (st st' : FillState) :
  in_range (Dx img) -> in_range (Dy img) ->
  floodFillComponent stack img x y st = Done st' ->
  grows st st' /\ tight st st' /\
  (forall x' y', fresh (visited st) (visited st') x' y' -> inBBox st' x' y') /\
  (fillable img (visited st) x y ->
   forall x' y', fresh (visited st) (visited st') x' y' <->
                 reach img (visited st) x y x' y') /\
  (~ fillable img (visited st) x y -> st' = st).
Proof.
  intros HW HH Hrun.
  pose proof (floodFill_callSpec img HW HH stack x y st st' Hrun) as Hspec.
  pose proof Hspec as ((G & Snd & T & C) & Hseed & Hreach).
  split; [assumption | ]. split; [assumption | ]. split; [ | split].
  - intros x' y' F. apply Snd. assumption.
  - apply callSpec_fresh_iff_reach. assumption.
  - intros Hnot. destruct stack as [|stack]; [discriminate | ].
    rewrite floodFill_unfold in Hrun.
    destruct ((x <? 0) || (x >=? Dx img) || (y <? 0) || (y >=? Dy img)) eqn:Hout.
    { injection Hrun as <-. reflexivity. }
    apply guard_false in Hout.
    apply bind_Done in Hrun as (seen & Hseen & Hrun).
    destruct seen; cbn [orb negb] in Hrun; [injection Hrun as <-; reflexivity | ].
    destruct (isTextPixel (At img x y)) eqn:Htext; cbn [orb negb] in Hrun;
      [ | injection Hrun as <-; reflexivity].
    exfalso. apply Hnot. split; [assumption | ]. split; [assumption | ].
    unfold marked. rewrite Hseen. discriminate.
Qed.

Lemma floodFillComponent_marks_component_witness :
  grows (rowStart 8) rowFilled /\ tight (rowStart 8) rowFilled /\
  (forall x' y', fresh (visited (rowStart 8)) (visited rowFilled) x' y' ->
                 inBBox rowFilled x' y') /\
  (fillable (rowImage 8) (visited (rowStart 8)) 0 0 ->
   forall x' y', fresh (visited (rowStart 8)) (visited rowFilled) x' y' <->
                 reach (rowImage 8) (visited (rowStart 8)) 0 0 x' y') /\
  (~ fillable (rowImage 8) (visited (rowStart 8)) 0 0 -> rowFilled = rowStart 8).
Proof.
  apply (floodFillComponent_marks_component 9 (rowImage 8) 0 0).
  - unfold in_range, int_min, int_max. simpl. lia.
  - unfold in_range, int_min, int_max. simpl. lia.
  - vm_compute. reflexivity.
Defined.

(** ** The boxes of the finder are the boxes of components *)

Lemma marked_nil x y : ~ marked [] x y.
Proof.
  unfold marked, visitedAt, index. destruct (y <? 0); simpl; discriminate.
Qed.

Lemma directions_opposite dx dy :
  In (dx, dy) directions -> In (- dx, - dy) directions.
Proof.
  unfold directions. simpl. intros H.
  repeat (destruct H as [[= <- <-] | H]; [simpl; tauto | ]). contradiction.
Qed.

Lemma reach_closed_iff img v x y :
  closedMask img v -> fillable img v x y ->
  forall x' y', reach img v x y x' y' <-> connected img x y x' y'.
Proof.
  intros Hclosed Hseed x' y'. unfold connected. split.
  - apply reach_mono. intros a b H. destruct (marked_nil a b H).
  - induction 1 as [_ | x1 y1 dx dy _ IH Hdir Hfill].
    + apply reach_seed. assumption.
    + apply reach_step; [assumption | assumption | ].
      destruct Hfill as (Hin & Htext & _).
      split; [assumption | ]. split; [assumption | ].
      intros Hm.
      destruct (reach_target_fillable _ _ _ _ _ _ IH) as (Hin1 & Htext1 & Hun1).
      apply Hun1.
      pose proof (Hclosed _ _ (- dx) (- dy) Hm (directions_opposite _ _ Hdir)) as Hback.
      replace (x1 + dx + - dx) with x1 in Hback by lia.
      replace (y1 + dy + - dy) with y1 in Hback by lia.
      apply Hback; assumption.
Qed.

Lemma closedMask_fill img st st' :
  closedMask img (visited st) -> fillSpec img st st' ->
  closedMask img (visited st').
Proof.
  intros Hclosed (G & Snd & T & C) x y dx dy Hm Hdir Hin Htext.
  destruct (marked_dec (visited st) x y) as [Hold|Hnew].
  - apply (proj1 G). eapply Hclosed; eassumption.
  - eapply C; [split | | | ]; eassumption.
Qed.

Lemma closedMask_initial img v :
  makeVisited (Dx img) (Dy img) = Done v -> closedMask img v.
Proof.
  unfold makeVisited. destruct (_ || _); [discriminate | ]. intros [= <-].
  intros x y dx dy Hm. exfalso. unfold marked in Hm.
  apply visitedAt_spec in Hm as (_ & _ & row & Hrow & Hc).
  apply lookup_replicate in Hrow as [-> _].
  apply lookup_replicate in Hc as [Hc _]. discriminate.
Qed.

Lemma scanPixel_components (stack : nat) img y x s s' :
  in_range (Dx img) -> in_range (Dy img) ->
  0 <= x < Dx img -> 0 <= y < Dy img ->
  closedMask img s.1 /\ Forall (componentBox img) s.2 ->
  scanPixel stack img y s x = Done s' ->
  closedMask img s'.1 /\ Forall (componentBox img) s'.2.
Proof.
  intros HW HH Hx Hy. destruct s as [v components]. simpl. intros [Hclosed Hall].
  unfold scanPixel. intros H. apply bind_Done in H as (seen & Hseen & H).
  destruct (negb seen && isTextPixel (At img x y)) eqn:Hcond;
    [ | injection H as <-; split; assumption].
  apply andb_true_iff in Hcond as [Hunseen Htext].
  apply negb_true_iff in Hunseen. subst seen.
  apply bind_Done in H as (st & Hfill & H).
  assert (Hseed : fillable img v x y).
  { split; [split; assumption | ]. split; [assumption | ].
    unfold marked. rewrite Hseen. discriminate. }
  pose proof (floodFill_callSpec img HW HH _ _ _ _ _ Hfill) as Hspec.
  pose proof (callSpec_fresh_iff_reach img x y _ st Hspec Hseed) as Hiff.
  simpl in Hiff.
  pose proof (reach_closed_iff img v x y Hclosed Hseed) as Hconn.
  destruct Hspec as (Hfs & _ & _).
  pose proof (closedMask_fill img (mkFillState v x y x y) st Hclosed Hfs) as Hclosed'.
  simpl in Hclosed'.
  apply floodFill_bboxIn in Hfill; [ | unfold bboxIn; simpl; lia].
  destruct Hfill as (Hmx & HMx & Hmy & HMy).
  assert (Hw : maxX st [-] minX st [+] 1 = maxX st - minX st + 1).
  { rewrite sub_small, add_small; unfold in_range, int_min, int_max in *; lia. }
  assert (Hh : maxY st [-] minY st [+] 1 = maxY st - minY st + 1).
  { rewrite sub_small, add_small; unfold in_range, int_min, int_max in *; lia. }
  rewrite Hw, Hh in H.
  destruct (isValidWordSize _ _ _ _); injection H as <-; simpl;
    (split; [assumption | ]); [ | assumption].
  apply Forall_app. split; [assumption | ].
  constructor; [ | constructor].
  exists x, y. split; [split; assumption | ]. split; [assumption | ].
  destruct Hfs as (_ & Snd & (T1 & T2 & T3 & T4) & _). simpl in *.
  assert (Hself : connected img x y x y).
  { apply Hconn. apply reach_seed. assumption. }
  assert (Hfc : forall a b, fresh v (visited st) a b -> connected img x y a b).
  { intros a b F. apply Hconn, Hiff. assumption. }
  unfold exactBox. simpl. split; [ | split; [ | split; [ | split]]].
  - intros a b Hab. apply Hconn, Hiff in Hab.
    destruct (Snd a b Hab) as [_ [Hbx Hby]]. lia.
  - destruct T1 as [E | (a & b & F & E)].
    + exists x, y. split; [assumption | lia].
    + exists a, b. split; [auto | assumption].
  - destruct T2 as [E | (a & b & F & E)].
    + exists x, y. split; [assumption | lia].
    + exists a, b. split; [auto | lia].
  - destruct T3 as [E | (a & b & F & E)].
    + exists x, y. split; [assumption | lia].
    + exists a, b. split; [auto | assumption].
  - destruct T4 as [E | (a & b & F & E)].
    + exists x, y. split; [assumption | lia].
    + exists a, b. split; [auto | lia].
Qed.

Lemma findWordComponents_components (stack : nat) img components :
  in_range (Dx img) -> in_range (Dy img) ->
  findWordComponents stack img = Done components ->
  Forall (componentBox img) components.
Proof.
  intros HW HH. unfold findWordComponents. intros H.
  apply bind_Done in H as (v & Hv & H).
  apply bind_Done in H as (s & Hs & H). injection H as <-.
  apply closedMask_initial in Hv.
  enough (closedMask img s.1 /\ Forall (componentBox img) s.2) by tauto.
  revert Hs.
  apply (foldM_preserves_In
           (fun s => closedMask img s.1 /\ Forall (componentBox img) s.2));
    [ | split; [assumption | constructor]].
  intros s0 y s1 Hy Hs0. apply In_upto in Hy.
  apply (foldM_preserves_In
           (fun s => closedMask img s.1 /\ Forall (componentBox img) s.2));
    [ | assumption].
  intros s2 x s3 Hx. apply In_upto in Hx.
  apply scanPixel_components; assumption.
Qed.

(** X5. Every box that [findWordComponents] returns is the exact bounding
    box of an 8-connected component of text pixels of the image: it holds
    all pixels of the component and each of its four edges passes through
    one of them. *)
Theorem findWordComponents_boxes_are_components
    (stack : nat) (img : Image) (components : list WordBox) :
  in_range (Dx img) -> in_range (Dy img) ->
  findWordComponents stack img = Done components ->
  Forall (componentBox img) components.
Proof. apply findWordComponents_components. Qed.

Lemma findWordComponents_boxes_are_components_witness :
  Forall (componentBox pageImage) [mkWordBox 5 3 10 11 "word_1"].
Proof.
  apply (findWordComponents_boxes_are_components 200 pageImage).
  - unfold in_range, int_min, int_max. simpl. lia.
  - unfold in_range, int_min, int_max. simpl. lia.
  - vm_compute. reflexivity.
Defined.

(** ** Every component is found *)

Lemma foldM_prefix {A B} (P : list A -> B -> Prop) (f : B -> A -> outcome B) :
  forall l pre b b',
    P pre b ->
    (forall pre a b b', In a l -> P pre b -> f b a = Done b' -> P (pre ++ [a]) b') ->
    foldM f l b = Done b' -> P (pre ++ l) b'.
Proof.
  induction l as [|a l IH]; intros pre b b' Hb Hf; simpl.
  - intros [= <-]. rewrite app_nil_r. assumption.
  - destruct (f b a) as [b1| |] eqn:E; try discriminate. intros Hrest.
    replace (pre ++ a :: l) with ((pre ++ [a]) ++ l)
      by (rewrite <- app_assoc; reflexivity).
    apply (IH _ b1); [ | | assumption].
    + eapply Hf; [left; reflexivity | eassumption | eassumption].
    + intros pre0 a0 b0 b0' Hin. apply Hf. right. assumption.
Qed.

Lemma connected_sym img x y x' y' :
  connected img x y x' y' -> connected img x' y' x y.
Proof.
  unfold connected. induction 1 as [Hseed | x1 y1 dx dy _ IH Hdir Hfill].
  - apply reach_seed. assumption.
  - apply (reach_prepend img [] _ _ (- dx) (- dy));
      [assumption | apply directions_opposite; assumption | ].
    replace (x1 + dx + - dx) with x1 by lia.
    replace (y1 + dy + - dy) with y1 by lia. assumption.
Qed.

Lemma connected_same_component img x y x' y' a b :
  connected img x y x' y' ->
  (connected img x y a b <-> connected img x' y' a b).
Proof.
  intros H. split; intros Hab.
  - eapply reach_trans; [apply connected_sym; exact H | exact Hab].
  - eapply reach_trans; [exact H | exact Hab].
Qed.

Lemma exactBox_same_component img x y x' y' b :
  connected img x y x' y' -> exactBox img x' y' b -> exactBox img x y b.
Proof.
  intros H (Hall & E1 & E2 & E3 & E4).
  assert (Hiff : forall a c, connected img x y a c <-> connected img x' y' a c).
  { intros a c. apply connected_same_component. assumption. }
  split; [ | split; [ | split; [ | split]]].
  - intros a c Hac. apply Hall, Hiff, Hac.
  - destruct E1 as (a & c & Hac & E). exists a, c. split; [apply Hiff | ]; assumption.
  - destruct E2 as (a & c & Hac & E). exists a, c. split; [apply Hiff | ]; assumption.
  - destruct E3 as (a & c & Hac & E). exists a, c. split; [apply Hiff | ]; assumption.
  - destruct E4 as (a & c & Hac & E). exists a, c. split; [apply Hiff | ]; assumption.
Qed.

Lemma exactBox_unique img x y b b' :
  exactBox img x y b -> exactBox img x y b' -> sameBox b b'.
Proof.
  intros (Hall & (a1 & c1 & H1 & E1) & (a2 & c2 & H2 & E2)
               & (a3 & c3 & H3 & E3) & (a4 & c4 & H4 & E4))
         (Hall' & (a1' & c1' & H1' & E1') & (a2' & c2' & H2' & E2')
                & (a3' & c3' & H3' & E3') & (a4' & c4' & H4' & E4')).
  pose proof (Hall _ _ H1'). pose proof (Hall _ _ H2').
  pose proof (Hall _ _ H3'). pose proof (Hall _ _ H4').
  pose proof (Hall' _ _ H1). pose proof (Hall' _ _ H2).
  pose proof (Hall' _ _ H3). pose proof (Hall' _ _ H4).
  unfold sameBox. lia.
Qed.

Lemma validIn_sameBox img b b' : sameBox b b' -> validIn img b -> validIn img b'.
Proof. intros (E1 & E2 & E3 & E4). unfold validIn. rewrite E3, E4. auto. Qed.

Lemma scanInv_initial img v :
  makeVisited (Dx img) (Dy img) = Done v -> scanInv img (v, []).
Proof.
  intros Hv. split; [apply closedMask_initial; assumption | ].
  assert (Hnone : forall x y, ~ marked v x y).
  { unfold makeVisited in Hv. destruct (_ || _); [discriminate | ].
    injection Hv as <-. intros x y Hm. unfold marked in Hm.
    apply visitedAt_spec in Hm as (_ & _ & row & Hrow & Hc).
    apply lookup_replicate in Hrow as [-> _].
    apply lookup_replicate in Hc as [Hc _]. discriminate. }
  split.
  - intros x y Hm. destruct (Hnone x y Hm).
  - intros x y b Hm. destruct (Hnone x y Hm).
Qed.

(** One pixel of the scan: the invariant is kept, marks are kept, and the
    pixel is marked afterwards if it is a text pixel. *)
Lemma scanPixel_step (stack : nat) img y x s s' :
  in_range (Dx img) -> in_range (Dy img) ->
  0 <= x < Dx img -> 0 <= y < Dy img ->
  scanInv img s ->
  scanPixel stack img y s x = Done s' ->
  scanInv img s' /\
  (forall a b, marked s.1 a b -> marked s'.1 a b) /\
  (isTextPixel (At img x y) = true -> marked s'.1 x y) /\
  (forall b, In b s.2 -> In b s'.2).
Proof.
  intros HW HH Hx Hy. destruct s as [v components]. simpl.
  intros (Hclosed & Htextm & Hrec).
  unfold scanPixel. intros H. apply bind_Done in H as (seen & Hseen & H).
  destruct (negb seen && isTextPixel (At img x y)) eqn:Hcond.
  2:{ injection H as <-. simpl.
      split; [split; [assumption | split; assumption] | ].
      split; [auto | ]. split; [ | auto].
      intros Ht. rewrite Ht, andb_true_r in Hcond.
      apply negb_false_iff in Hcond. subst seen. exact Hseen. }
  apply andb_true_iff in Hcond as [Hunseen Htext].
  apply negb_true_iff in Hunseen. subst seen.
  apply bind_Done in H as (st & Hfill & H).
  assert (Hseed : fillable img v x y).
  { split; [split; assumption | ]. split; [assumption | ].
    unfold marked. rewrite Hseen. discriminate. }
  pose proof (floodFill_callSpec img HW HH _ _ _ _ _ Hfill) as Hspec.
  pose proof (callSpec_fresh_iff_reach img x y _ st Hspec Hseed) as Hiff.
  simpl in Hiff.
  pose proof (reach_closed_iff img v x y Hclosed Hseed) as Hconn.
  destruct Hspec as (Hfs & Hseedm & _). simpl in Hseedm.
  pose proof (closedMask_fill img (mkFillState v x y x y) st Hclosed Hfs) as Hclosed'.
  simpl in Hclosed'.
  pose proof Hfill as Hbox.
  apply floodFill_bboxIn in Hbox; [ | unfold bboxIn; simpl; lia].
  destruct Hbox as (Hmx & HMx & Hmy & HMy).
  assert (Hw : maxX st [-] minX st [+] 1 = maxX st - minX st + 1).
  { rewrite sub_small, add_small; unfold in_range, int_min, int_max in *; lia. }
  assert (Hh : maxY st [-] minY st [+] 1 = maxY st - minY st + 1).
  { rewrite sub_small, add_small; unfold in_range, int_min, int_max in *; lia. }
  rewrite Hw, Hh in H.
  destruct Hfs as (G & Snd & (T1 & T2 & T3 & T4) & _). simpl in *.
  assert (Hself : connected img x y x y).
  { apply Hconn. apply reach_seed. assumption. }
  assert (Hfc : forall a b, fresh v (visited st) a b -> connected img x y a b).
  { intros a b F. apply Hconn, Hiff. assumption. }
  set (box := mkWordBox (minX st) (minY st) (maxX st - minX st + 1)
                (maxY st - minY st + 1)
                ("word_" ++ sprintf_d (len components [+] 1))) in *.
  assert (Hexact : exactBox img x y box).
  { unfold exactBox, box. simpl. split; [ | split; [ | split; [ | split]]].
    - intros a b Hab. apply Hconn, Hiff in Hab.
      destruct (Snd a b Hab) as [_ [Hbx Hby]]. lia.
    - destruct T1 as [E | (a & b & F & E)].
      + exists x, y. split; [assumption | lia].
      + exists a, b. split; [auto | assumption].
    - destruct T2 as [E | (a & b & F & E)].
      + exists x, y. split; [assumption | lia].
      + exists a, b. split; [auto | lia].
    - destruct T3 as [E | (a & b & F & E)].
      + exists x, y. split; [assumption | lia].
      + exists a, b. split; [auto | assumption].
    - destruct T4 as [E | (a & b & F & E)].
      + exists x, y. split; [assumption | lia].
      + exists a, b. split; [auto | lia]. }
  assert (Htextm' : forall a b, marked (visited st) a b ->
                                inBounds img a b /\ isTextPixel (At img a b) = true).
  { intros a b Hm. destruct (marked_dec v a b) as [Hold|Hnew]; [auto | ].
    destruct (Snd a b (conj Hm Hnew)) as [(Hin & Ht & _) _]. auto. }
  assert (Hnewbox : forall a b c, fresh v (visited st) a b -> exactBox img a b c ->
                                  sameBox c box).
  { intros a b c F Hc. apply (exactBox_unique img x y); [ | assumption].
    eapply exactBox_same_component; [apply Hfc; exact F | exact Hc]. }
  destruct (isValidWordSize _ _ _ _) eqn:Hsize; injection H as <-; simpl.
  - split; [split; [assumption | split; [assumption | ]] | ].
    + intros a b c Hm Hc Hvalid.
      destruct (marked_dec v a b) as [Hold|Hnew].
      * destruct (Hrec a b c Hold Hc Hvalid) as (b' & Hin & Hsame).
        exists b'. split; [apply in_or_app; left; assumption | assumption].
      * exists box. split; [apply in_or_app; right; left; reflexivity | ].
        eapply Hnewbox; [split; eassumption | eassumption].
    + split; [apply G | ]. split; [intros _; apply Hseedm; auto; split; assumption | ].
      intros b Hb. apply in_or_app. left. assumption.
  - split; [split; [assumption | split; [assumption | ]] | ].
    + intros a b c Hm Hc Hvalid.
      destruct (marked_dec v a b) as [Hold|Hnew]; [eauto | ].
      exfalso.
      pose proof (Hnewbox a b c (conj Hm Hnew) Hc) as Hsame.
      pose proof (validIn_sameBox img _ _ Hsame Hvalid) as Hv.
      unfold validIn, box in Hv. simpl in Hv. congruence.
    + split; [apply G | ]. split; [intros _; apply Hseedm; auto; split; assumption | ].
      auto.
Qed.

Lemma upto_In x n : 0 <= x < n -> In x (upto n).
Proof.
  intros Hx. unfold upto. apply in_map_iff. exists (Z.to_nat x).
  split; [lia | ]. apply in_seq. lia.
Qed.

Lemma scanRow_step (stack : nat) img y s s' :
  in_range (Dx img) -> in_range (Dy img) -> 0 <= y < Dy img ->
  scanInv img s ->
  foldM (scanPixel stack img y) (upto (Dx img)) s = Done s' ->
  scanInv img s' /\
  (forall a b, marked s.1 a b -> marked s'.1 a b) /\
  (forall x, In x (upto (Dx img)) ->
             isTextPixel (At img x y) = true -> marked s'.1 x y).
Proof.
  intros HW HH Hy Hinv Hrun.
  pose proof (foldM_prefix
    (fun pre t => scanInv img t /\
                  (forall a b, marked s.1 a b -> marked t.1 a b) /\
                  (forall x, In x pre -> isTextPixel (At img x y) = true ->
                             marked t.1 x y))
    (scanPixel stack img y) (upto (Dx img)) [] s s') as Hfold.
  simpl in Hfold. apply Hfold; [ | | assumption].
  - split; [assumption | ]. split; [auto | intros x []].
  - intros pre x t t' Hx (Ht & Hkeep & Hrow) Hstep. apply In_upto in Hx.
    destruct (scanPixel_step stack img y x t t' HW HH Hx Hy Ht Hstep)
      as (Ht' & Hgrow & Hhere & _).
    split; [assumption | ]. split; [auto | ].
    intros x0 Hin Htext. apply in_app_or in Hin as [Hin | [<- | []]]; auto.
Qed.

Lemma scan_all (stack : nat) img v s' :
  in_range (Dx img) -> in_range (Dy img) ->
  makeVisited (Dx img) (Dy img) = Done v ->
  foldM (fun s y => foldM (scanPixel stack img y) (upto (Dx img)) s)
        (upto (Dy img)) (v, []) = Done s' ->
  scanInv img s' /\
  (forall x y, inBounds img x y -> isTextPixel (At img x y) = true ->
               marked s'.1 x y).
Proof.
  intros HW HH Hv Hrun.
  pose proof (foldM_prefix
    (fun pre t => scanInv img t /\
                  (forall x y, In y pre -> In x (upto (Dx img)) ->
                               isTextPixel (At img x y) = true -> marked t.1 x y))
    (fun s y => foldM (scanPixel stack img y) (upto (Dx img)) s)
    (upto (Dy img)) [] (v, []) s') as Hfold.
  simpl in Hfold. destruct Hfold as [Hinv Hall]; [ | | assumption | ].
  - split; [apply scanInv_initial; assumption | intros x y []].
  - intros pre y t t' Hy (Ht & Hrows) Hstep. apply In_upto in Hy.
    destruct (scanRow_step stack img y t t' HW HH Hy Ht Hstep)
      as (Ht' & Hgrow & Hrow).
    split; [assumption | ].
    intros x y0 Hin Hx Htext. apply in_app_or in Hin as [Hin | [<- | []]]; auto.
  - split; [assumption | ].
    intros x y [Hx Hy] Htext. apply Hall; [ | | assumption]; apply upto_In; assumption.
Qed.

(** X6. [findWordComponents] misses no component: for every text pixel of
    the image, if the exact bounding box of its 8-connected component
    passes the size test, a box with that corner and that size is among
    the boxes returned. *)
Theorem findWordComponents_finds_every_component
    (stack : nat) (img : Image) (components : list WordBox) :
  in_range (Dx img) -> in_range (Dy img) ->
  findWordComponents stack img = Done components ->
  forall x y b,
    inBounds img x y -> isTextPixel (At img x y) = true ->
    exactBox img x y b -> validIn img b ->
    exists b', In b' components /\ sameBox b b'.
Proof.
  intros HW HH. unfold findWordComponents. intros H.
  apply bind_Done in H as (v & Hv & H).
  apply bind_Done in H as (s & Hs & H). injection H as <-.
  destruct (scan_all stack img v s HW HH Hv Hs) as ((_ & _ & Hrec) & Hmarked).
  intros x y b Hin Htext Hexact Hvalid.
  apply (Hrec x y b); auto.
Qed.

Lemma pageImage_text x y :
  isTextPixel (At pageImage x y) = true <-> 5 <= x < 15 /\ 3 <= y < 14.
Proof.
  unfold pageImage. cbn [At].
  destruct (5 <=? x) eqn:E1, (x <? 15) eqn:E2, (3 <=? y) eqn:E3, (y <? 14) eqn:E4;
    cbn [andb]; (split; [intros Ht | intros Hb]); try (vm_compute in Ht; discriminate);
    try (vm_compute; reflexivity); lia.
Qed.

Lemma pageImage_fillable x y :
  5 <= x < 15 -> 3 <= y < 14 -> fillable pageImage [] x y.
Proof.
  intros Hx Hy. split; [ | split].
  - unfold inBounds, pageImage. cbn [Dx Dy]. lia.
  - apply pageImage_text. split; assumption.
  - apply marked_nil.
Qed.

Lemma pageImage_reach_right (n : nat) :
  (n < 10)%nat -> connected pageImage 5 3 (5 + Z.of_nat n) 3.
Proof.
  unfold connected. induction n as [ | n IH]; intros Hn.
  - apply reach_seed. apply pageImage_fillable; lia.
  - replace (5 + Z.of_nat (S n)) with ((5 + Z.of_nat n) + 1) by lia.
    change 3 with (3 + 0) at 2.
    apply reach_step; [apply IH; lia | unfold directions; simpl; tauto | ].
    apply pageImage_fillable; lia.
Qed.

Lemma pageImage_reach_down (n : nat) :
  (n < 11)%nat -> connected pageImage 5 3 5 (3 + Z.of_nat n).
Proof.
  unfold connected. induction n as [ | n IH]; intros Hn.
  - apply reach_seed. apply pageImage_fillable; lia.
  - replace (3 + Z.of_nat (S n)) with ((3 + Z.of_nat n) + 1) by lia.
    change 5 with (5 + 0) at 2.
    apply reach_step; [apply IH; lia | unfold directions; simpl; tauto | ].
    apply pageImage_fillable; lia.
Qed.

Lemma pageImage_exactBox : exactBox pageImage 5 3 (mkWordBox 5 3 10 11 "").
Proof.
  unfold exactBox. cbn [X Y Width Height]. repeat split.
  1-4: apply reach_target_fillable in H as (_ & Ht & _);
       apply pageImage_text in Ht; lia.
  - exists 5, 3. split; [apply (pageImage_reach_right 0); lia | reflexivity].
  - exists 14, 3. split; [apply (pageImage_reach_right 9); lia | reflexivity].
  - exists 5, 3. split; [apply (pageImage_reach_down 0); lia | reflexivity].
  - exists 5, 13. split; [apply (pageImage_reach_down 10); lia | reflexivity].
Qed.

Lemma findWordComponents_finds_every_component_witness :
  exists b', In b' [mkWordBox 5 3 10 11 "word_1"]
             /\ sameBox (mkWordBox 5 3 10 11 "") b'.
Proof.
  apply (findWordComponents_finds_every_component 200 pageImage
           [mkWordBox 5 3 10 11 "word_1"]) with (x := 5) (y := 3).
  - unfold in_range, int_min, int_max. simpl. lia.
  - unfold in_range, int_min, int_max. simpl. lia.
  - vm_compute. reflexivity.
  - unfold inBounds. simpl. lia.
  - vm_compute. reflexivity.
  - exact pageImage_exactBox.
  - vm_compute. reflexivity.
Defined.

(** * Further properties of the merger and the line grouper *)

(** ** The runs that are merged *)

Lemma lastInGroup_snoc g a :
  len (g ++ [a]) <= int_max -> lastInGroup (g ++ [a]) = Done a.
Proof.
  intros Hlen. unfold lastInGroup, len in *. rewrite length_app in *. simpl in *.
  rewrite sub_small by (unfold in_range, int_min, int_max in *; lia).
  apply index_Done. split; [lia | ].
  replace (Z.to_nat (Z.of_nat (length g + 1) - 1)) with (length g) by lia.
  rewrite lookup_app_r by lia. rewrite Nat.sub_diag. reflexivity.
Qed.

Lemma mergeComponentGroup_nonempty g :
  g <> [] -> exists w, mergeComponentGroup g = Done w.
Proof.
  destruct g as [|g0 [|g1 rest]]; [congruence | eauto | ].
  intros _. unfold mergeComponentGroup.
  destruct (fold_left expandBounds (g1 :: rest) (initBounds g0)) as [[[x0 y0] x1] y1].
  eauto.
Qed.

Lemma chained_snoc sm g a c :
  chained sm (g ++ [a]) -> sm a c = true -> chained sm ((g ++ [a]) ++ [c]).
Proof.
  induction g as [|b g IH]; simpl.
  - auto.
  - destruct g as [|b' g]; simpl in *.
    + intros [H _] Hac. auto.
    + intros [H Hrest] Hac. split; [assumption | ]. apply IH; assumption.
Qed.

Lemma separated_extend_last sm gs g c :
  g <> [] -> separated sm (gs ++ [g]) -> separated sm (gs ++ [g ++ [c]]).
Proof.
  intros Hne. induction gs as [|g1 gs IH]; simpl; [auto | ].
  destruct gs as [|g2 gs]; simpl in *.
  - intros [H _]. split; [ | exact I].
    intros a b Ha Hb. apply H; [assumption | ].
    destruct g; [congruence | exact Hb].
  - intros [H Hrest]. split; [assumption | ]. apply IH. assumption.
Qed.

Lemma separated_snoc sm gs g c :
  separated sm (gs ++ [g]) ->
  (forall a, last g = Some a -> sm a c = false) ->
  separated sm ((gs ++ [g]) ++ [[c]]).
Proof.
  intros Hsep Hlast. induction gs as [|g1 gs IH]; simpl.
  - split; [ | exact I]. intros a b Ha [= <-]. auto.
  - destruct gs as [|g2 gs]; simpl in *.
    + destruct Hsep as [H _]. split; [assumption | ].
      split; [ | exact I]. intros a b Ha [= <-]. auto.
    + destruct Hsep as [H Hrest]. split; [assumption | ]. apply IH. assumption.
Qed.

(** The loop of [mergeNearbyComponents]: [gs] are the groups closed so
    far, [g ++ [a]] the open group. *)
Lemma mergeLoop_spec sm : forall rest gs g a m,
  len (concat gs ++ (g ++ [a]) ++ rest) <= int_max ->
  Forall (fun g => g <> []) gs ->
  Forall (chained sm) gs -> chained sm (g ++ [a]) ->
  separated sm (gs ++ [g ++ [a]]) ->
  Forall2 (fun g w => mergeComponentGroup g = Done w) gs m ->
  exists gs' g' m',
    foldM (mergeStep sm) rest (g ++ [a], m) = Done (g', m') /\
    g' <> [] /\
    concat gs' ++ g' = concat gs ++ (g ++ [a]) ++ rest /\
    Forall (fun g => g <> []) gs' /\
    Forall (chained sm) gs' /\ chained sm g' /\
    separated sm (gs' ++ [g']) /\
    Forall2 (fun g w => mergeComponentGroup g = Done w) gs' m'.
Proof.
  induction rest as [|c rest IH]; intros gs g a m Hlen Hne Hch Hcha Hsep Hm.
  - exists gs, (g ++ [a]), m. simpl. rewrite app_nil_r.
    repeat split; auto. destruct g; discriminate.
  - simpl. rewrite lastInGroup_snoc.
    2:{ unfold len in *. rewrite !length_app in *. simpl in *. lia. }
    simpl. destruct (sm a c) eqn:Hac.
    + destruct (IH gs (g ++ [a]) c m) as (gs' & g' & m' & Hrun & H1 & H2 & H3);
        auto.
      * rewrite <- !app_assoc in *. simpl in *. assumption.
      * apply chained_snoc; assumption.
      * apply separated_extend_last; [destruct g; discriminate | assumption].
      * exists gs', g', m'. split; [assumption | ]. split; [assumption | ].
        split; [ | assumption].
        rewrite H2, <- !app_assoc. reflexivity.
    + destruct (mergeComponentGroup_nonempty (g ++ [a])) as [w Hw];
        [destruct g; discriminate | ].
      rewrite Hw. simpl.
      destruct (IH (gs ++ [g ++ [a]]) [] c (m ++ [w]))
        as (gs' & g' & m' & Hrun & H1 & H2 & H3).
      * rewrite concat_app. simpl. rewrite app_nil_r, <- !app_assoc in *.
        simpl in *. assumption.
      * apply Forall_app. split; [assumption | ].
        constructor; [destruct g; discriminate | constructor].
      * apply Forall_app. split; [assumption | ].
        constructor; [assumption | constructor].
      * exact I.
      * simpl. apply separated_snoc; [assumption | ].
        intros a' Ha'. rewrite last_snoc in Ha'. injection Ha' as <-. assumption.
      * apply Forall2_app; [assumption | ]. constructor; [assumption | constructor].
      * exists gs', g', m'. split; [assumption | ]. split; [assumption | ].
        split; [ | assumption].
        rewrite H2, concat_app. simpl. rewrite app_nil_r, <- !app_assoc.
        reflexivity.
Qed.

Lemma mergeNearbyComponents_groups sm components :
  len components <= int_max ->
  exists out groups,
    mergeNearbyComponentsWith sm components = Done out /\
    mergeRuns sm components groups /\
    Forall2 (fun g w => mergeComponentGroup g = Done w) groups out.
Proof.
  intros Hlen. destruct components as [|c0 [|c1 rest]].
  - exists [], []. split; [reflexivity | ]. split; [ | constructor].
    repeat split; constructor.
  - exists [c0], [[c0]]. split; [reflexivity | ]. split.
    + split; [reflexivity | ]. split; [repeat constructor; discriminate | ].
      split; repeat constructor.
    + repeat constructor.
  - destruct (mergeLoop_spec sm (c1 :: rest) [] [] c0 [])
      as (gs & g & m & Hrun & Hne & Hcat & Hnes & Hchs & Hch & Hsep & Hm);
      try (simpl; auto; constructor).
    destruct (mergeComponentGroup_nonempty g Hne) as [w Hw].
    exists (m ++ [w]), (gs ++ [g]). split.
    + unfold mergeNearbyComponentsWith. simpl in Hrun. simpl. rewrite Hrun. simpl.
      assert (Hpos : (len g >? 0) = true).
      { apply len_pos. assumption. }
      rewrite Hpos, Hw. reflexivity.
    + split.
      * split; [rewrite concat_app; simpl; rewrite app_nil_r; exact Hcat | ].
        split; [apply Forall_app; split; [assumption | repeat constructor; assumption] | ].
        split; [apply Forall_app; split; [assumption | repeat constructor; assumption] | ].
        assumption.
      * apply Forall2_app; [assumption | repeat constructor; assumption].
Qed.

Lemma concat_nonempty_length {A} (groups : list (list A)) :
  Forall (fun g => g <> []) groups -> (length groups <= length (concat groups))%nat.
Proof.
  induction 1 as [|g groups Hg _ IH]; simpl; [lia | ].
  rewrite length_app. destruct g; [congruence | simpl; lia].
Qed.

(** X7. [mergeNearbyComponents] of either package never panics (on a slice
    of representable length). It cuts its input, in order, into
    non-empty runs: inside a run every box merges with the one before it,
    and the first box of a run does not merge with the last box of the run
    before. It returns the merged box of each run, in order; so it returns
    at most as many boxes as it was given, and none only for no input. *)
Theorem mergeNearbyComponents_merges_maximal_runs
    (shouldMerge : WordBox -> WordBox -> bool) (components : list WordBox) :
  len components <= int_max ->
  exists out groups,
    mergeNearbyComponentsWith shouldMerge components = Done out /\
    mergeRuns shouldMerge components groups /\
    Forall2 (fun g w => mergeComponentGroup g = Done w) groups out /\
    (length out <= length components)%nat /\
    (out = [] <-> components = []).
Proof.
  intros Hlen.
  destruct (mergeNearbyComponents_groups shouldMerge components Hlen)
    as (out & groups & Hrun & Hruns & Hm).
  exists out, groups. split; [assumption | ]. split; [assumption | ].
  split; [assumption | ].
  destruct Hruns as (Hcat & Hne & _ & _).
  pose proof (Forall2_length _ _ _ Hm) as Hl.
  pose proof (concat_nonempty_length groups Hne) as Hc. rewrite Hcat in Hc.
  split; [lia | ]. split.
  - intros ->. destruct groups; [simpl in Hcat; congruence | discriminate].
  - intros ->. destruct out as [|w out]; [reflexivity | ].
    simpl in Hc, Hl. lia.
Qed.

Lemma mergeNearbyComponents_merges_maximal_runs_witness :
  exists out groups,
    mergeNearbyComponentsWith Ocr.shouldMergeComponents [boxUpper; boxLower]
      = Done out /\
    mergeRuns Ocr.shouldMergeComponents [boxUpper; boxLower] groups /\
    Forall2 (fun g w => mergeComponentGroup g = Done w) groups out /\
    (length out <= length [boxUpper; boxLower])%nat /\
    (out = [] <-> [boxUpper; boxLower] = []).
Proof.
  apply (mergeNearbyComponents_merges_maximal_runs
           Ocr.shouldMergeComponents [boxUpper; boxLower]).
  unfold len, int_max. simpl. lia.
Defined.

(** ** The geometry of the merged boxes *)

Lemma unionBox_pixel_box group w :
  group <> [] -> Forall pixel_box group -> unionBox group w -> pixel_box w.
Proof.
  intros Hne Hpix Hunion. unfold unionBox in Hunion.
  destruct (boundsOf_range group _ _ _ _ Hne Hpix Hunion) as (Hx & Hx1 & Hy & Hy1).
  unfold pixel_box. lia.
Qed.

Lemma unionBox_within group w b :
  unionBox group w -> In b group -> within b w.
Proof.
  intros (Hall & _) Hin. rewrite Forall_forall in Hall.
  apply list_elem_of_In in Hin. specialize (Hall b Hin). unfold within. lia.
Qed.

Lemma merged_unionBox groups out :
  Forall (fun g => g <> []) groups -> Forall (Forall pixel_box) groups ->
  Forall2 (fun g w => mergeComponentGroup g = Done w) groups out ->
  Forall2 unionBox groups out.
Proof.
  intros Hne Hpix Hm. induction Hm as [|g w groups out Hgw _ IH]; [constructor | ].
  apply Forall_cons_1 in Hne as [Hg Hne]. apply Forall_cons_1 in Hpix as [Hp Hpix].
  constructor; [ | apply IH; assumption].
  destruct (mergeComponentGroup_union g Hg Hp) as (w' & Hw' & Hunion).
  congruence.
Qed.

Lemma Forall_concat {A} (P : A -> Prop) (groups : list (list A)) :
  Forall P (concat groups) -> Forall (Forall P) groups.
Proof.
  induction groups as [|g groups IH]; simpl; [constructor | ].
  intros H. apply Forall_app in H as [Hg Hrest].
  constructor; [assumption | apply IH; assumption].
Qed.

(** X8. On boxes in pixel coordinates, each box that
    [mergeNearbyComponents] returns is the union bounding box of its run
    and is again in pixel coordinates; every input box lies within one of
    the returned boxes; and if the input boxes have positive width and
    height, so have the returned ones. *)
Theorem mergeNearbyComponents_covers_input
    (shouldMerge : WordBox -> WordBox -> bool) (components : list WordBox) :
  len components <= int_max -> Forall pixel_box components ->
  exists out groups,
    mergeNearbyComponentsWith shouldMerge components = Done out /\
    concat groups = components /\
    Forall2 unionBox groups out /\
    Forall pixel_box out /\
    (forall b, In b components -> exists w, In w out /\ within b w) /\
    (Forall positive_box components -> Forall positive_box out).
Proof.
  intros Hlen Hpix.
  destruct (mergeNearbyComponents_groups shouldMerge components Hlen)
    as (out & groups & Hrun & (Hcat & Hne & _ & _) & Hm).
  exists out, groups. split; [assumption | ]. split; [assumption | ].
  assert (Hpixg : Forall (Forall pixel_box) groups).
  { apply Forall_concat. rewrite Hcat. assumption. }
  pose proof (merged_unionBox groups out Hne Hpixg Hm) as Hunion.
  split; [assumption | ].
  clear Hrun Hm Hlen. subst components. clear Hpix.
  induction Hunion as [|g w groups out Hgw _ IH]; simpl.
  - split; [constructor | ]. split; [intros b [] | constructor].
  - apply Forall_cons_1 in Hne as [Hg Hne].
    apply Forall_cons_1 in Hpixg as [Hp Hpixg].
    destruct (IH Hne Hpixg) as (Hout & Hcover & Hposr).
    split; [constructor; [eapply unionBox_pixel_box; eassumption | assumption] | ].
    split.
    + intros b Hb. apply in_app_or in Hb as [Hb | Hb].
      * exists w. split; [left; reflexivity | ].
        eapply unionBox_within; eassumption.
      * destruct (Hcover b Hb) as (w' & Hw' & Hin). exists w'. split; [right | ]; assumption.
    + intros Hpos. apply Forall_app in Hpos as [Hposg Hposrest].
      constructor; [eapply unionBox_positive; eassumption | auto].
Qed.

Lemma mergeNearbyComponents_covers_input_witness :
  exists out groups,
    mergeNearbyComponentsWith Hocr.shouldMergeComponents [boxUpper; boxLower]
      = Done out /\
    concat groups = [boxUpper; boxLower] /\
    Forall2 unionBox groups out /\
    Forall pixel_box out /\
    (forall b, In b [boxUpper; boxLower] -> exists w, In w out /\ within b w) /\
    (Forall positive_box [boxUpper; boxLower] -> Forall positive_box out).
Proof.
  apply (mergeNearbyComponents_covers_input
           Hocr.shouldMergeComponents [boxUpper; boxLower]).
  - unfold len, int_max. simpl. lia.
  - repeat constructor; unfold int_max; simpl; lia.
Defined.

(** ** The lines that are built *)

Lemma accepted_single sameLine w : accepted sameLine [w].
Proof.
  intros pre w' post H Hne. apply (f_equal length) in H.
  rewrite length_app in H. simpl in H. destruct pre; [congruence | simpl in H; lia].
Qed.

Lemma accepted_snoc sameLine cur w :
  accepted sameLine cur -> sameLine cur w = true -> accepted sameLine (cur ++ [w]).
Proof.
  intros Hacc Hw pre w' post H Hne.
  destruct post as [|p post _] using rev_ind.
  - apply app_inj_tail in H as [-> ->]. assumption.
  - rewrite app_comm_cons, app_assoc in H.
    apply app_inj_tail in H as [H _].
    eapply Hacc; [exact H | assumption].
Qed.

Lemma refused_extend_last sameLine gs cur w :
  cur <> [] -> refused sameLine (gs ++ [cur]) ->
  refused sameLine (gs ++ [cur ++ [w]]).
Proof.
  intros Hne. induction gs as [|g1 gs IH]; simpl; [auto | ].
  destruct gs as [|g2 gs]; simpl in *.
  - intros [H _]. split; [ | exact I].
    intros b Hb. apply H. destruct cur; [congruence | exact Hb].
  - intros [H Hrest]. split; [assumption | ]. apply IH. assumption.
Qed.

Lemma refused_snoc sameLine gs cur w :
  refused sameLine (gs ++ [cur]) -> sameLine cur w = false ->
  refused sameLine ((gs ++ [cur]) ++ [[w]]).
Proof.
  intros Href Hw. induction gs as [|g1 gs IH]; simpl.
  - split; [ | exact I]. intros b [= <-]. assumption.
  - destruct gs as [|g2 gs]; simpl in *.
    + destruct Href as [H _]. split; [assumption | ].
      split; [ | exact I]. intros b [= <-]. assumption.
    + destruct Href as [H Hrest]. split; [assumption | ]. apply IH. assumption.
Qed.

(** The loop of [groupWordsIntoLines] once the current line is not empty:
    [gs] are the lines closed so far, [cur] the current line. *)
Lemma groupLoop_spec sameLine : forall rest gs cur,
  cur <> [] ->
  Forall (fun l => l <> []) gs -> Forall (accepted sameLine) gs ->
  accepted sameLine cur -> refused sameLine (gs ++ [cur]) ->
  exists gs' cur',
    fold_left (groupStep sameLine) rest (cur, map createLineFromWords gs)
    = (cur', map createLineFromWords gs') /\
    cur' <> [] /\
    concat gs' ++ cur' = concat gs ++ cur ++ rest /\
    Forall (fun l => l <> []) gs' /\ Forall (accepted sameLine) gs' /\
    accepted sameLine cur' /\ refused sameLine (gs' ++ [cur']).
Proof.
  induction rest as [|w rest IH]; intros gs cur Hne Hnes Haccs Hacc Href.
  - exists gs, cur. simpl. rewrite app_nil_r. repeat split; auto.
  - cbn [fold_left]. unfold groupStep at 2.
    assert (Hzero : (len cur =? 0) = false).
    { apply not_true_iff_false. rewrite len_zero. assumption. }
    assert (Hpos : (len cur >? 0) = true) by (apply len_pos; assumption).
    rewrite Hzero, Hpos. destruct (sameLine cur w) eqn:Hw.
    + destruct (IH gs (cur ++ [w])) as (gs' & cur' & Hrun & H1 & H2 & H3); auto.
      * destruct cur; discriminate.
      * apply accepted_snoc; assumption.
      * apply refused_extend_last; assumption.
      * exists gs', cur'. split; [assumption | ]. split; [assumption | ].
        split; [ | assumption]. rewrite H2, <- !app_assoc. reflexivity.
    + destruct (IH (gs ++ [cur]) [w]) as (gs' & cur' & Hrun & H1 & H2 & H3).
      * discriminate.
      * apply Forall_app. split; [assumption | repeat constructor; assumption].
      * apply Forall_app. split; [assumption | repeat constructor; assumption].
      * apply accepted_single.
      * apply refused_snoc; assumption.
      * exists gs', cur'. rewrite map_app in Hrun. simpl in Hrun.
        split; [assumption | ]. split; [assumption | ].
        split; [ | assumption].
        rewrite H2, concat_app. simpl. rewrite app_nil_r, <- !app_assoc. reflexivity.
Qed.

Lemma groupWordsIntoLines_groups sort_Slice sameLine words :
  words <> [] ->
  exists groups,
    lineRuns sameLine (sort_Slice lessWords words) groups /\
    groupWordsIntoLinesWith sort_Slice sameLine words
    = map createLineFromWords groups.
Proof.
  intros Hne. unfold groupWordsIntoLinesWith.
  assert (Hzero : (len words =? 0) = false).
  { apply not_true_iff_false. rewrite len_zero. assumption. }
  rewrite Hzero.
  destruct (sort_Slice lessWords words) as [|w0 ws].
  - exists []. split; [repeat split; constructor | reflexivity].
  - cbn [fold_left]. unfold groupStep at 2.
    change (len (@nil WordBox) =? 0) with true. cbn [app].
    destruct (groupLoop_spec sameLine ws [] [w0])
      as (gs & cur & Hrun & Hcur & Hcat & Hnes & Haccs & Hacc & Href);
      try (constructor || discriminate).
    { apply accepted_single. }
    simpl in Hrun. rewrite Hrun.
    assert (Hpos : (len cur >? 0) = true) by (apply len_pos; assumption).
    rewrite Hpos. exists (gs ++ [cur]). split.
    + split; [rewrite concat_app; simpl; rewrite app_nil_r; exact Hcat | ].
      split; [apply Forall_app; split; [assumption | repeat constructor; assumption] | ].
      split; [apply Forall_app; split; [assumption | repeat constructor; assumption] | ].
      assumption.
    + rewrite map_app. reflexivity.
Qed.

(** X9. [groupWordsIntoLines] of either package returns nothing for no
    words. Otherwise it cuts the sorted sequence, in order, into non-empty
    lines: every word of a line after the first was accepted by
    [wordsOnSameLine] against the words before it in the line, and the
    first word of a line was refused against the whole line before. Each
    returned [LineBox] is [createLineFromWords] of its line. *)
Theorem groupWordsIntoLines_builds_maximal_lines
    (sort_Slice : (WordBox -> WordBox -> bool) -> list WordBox -> list WordBox)
    (sameLine : list WordBox -> WordBox -> bool) (words : list WordBox) :
  (words = [] -> groupWordsIntoLinesWith sort_Slice sameLine words = []) /\
  (words <> [] ->
   exists groups,
     lineRuns sameLine (sort_Slice lessWords words) groups /\
     groupWordsIntoLinesWith sort_Slice sameLine words
     = map createLineFromWords groups).
Proof.
  split.
  - intros ->. reflexivity.
  - apply groupWordsIntoLines_groups.
Qed.

Lemma groupWordsIntoLines_builds_maximal_lines_witness :
  ([wordLeft; wordRight] = [] ->
   groupWordsIntoLinesWith insertionSort_func Ocr.wordsOnSameLine
     [wordLeft; wordRight] = []) /\
  ([wordLeft; wordRight] <> [] ->
   exists groups,
     lineRuns Ocr.wordsOnSameLine
       (insertionSort_func lessWords [wordLeft; wordRight]) groups /\
     groupWordsIntoLinesWith insertionSort_func Ocr.wordsOnSameLine
       [wordLeft; wordRight]
     = map createLineFromWords groups).
Proof.
  apply (groupWordsIntoLines_builds_maximal_lines insertionSort_func
           Ocr.wordsOnSameLine [wordLeft; wordRight]).
Defined.

(** ** The geometry of the lines *)

Lemma createLineFromWords_union ws :
  ws <> [] -> Forall pixel_box ws -> unionLine ws (createLineFromWords ws).
Proof.
  intros Hne Hpix. destruct ws as [|w0 rest]; [congruence | ].
  destruct (fold_bounds w0 rest Hpix) as (x0 & y0 & x1 & y1 & Hfold & Hb & Hw & Hh).
  unfold createLineFromWords, unionLine. rewrite Hfold, Hw, Hh. simpl.
  replace (x0 + (x1 - x0)) with x1 by lia.
  replace (y0 + (y1 - y0)) with y1 by lia. assumption.
Qed.

(** X10. Given a [sort.Slice] that permutes its input, on words in pixel
    coordinates every [LineBox] that [groupWordsIntoLines] returns holds
    at least one word and its bounding box is the union of the boxes of
    its words: every word lies within it and each edge of it is an edge of
    some word. There are at most as many lines as words, and none only
    for no words. *)
Theorem groupWordsIntoLines_boxes_are_unions
    (sort_Slice : (WordBox -> WordBox -> bool) -> list WordBox -> list WordBox)
    (sameLine : list WordBox -> WordBox -> bool) (words : list WordBox) :
  (forall less l, Permutation (sort_Slice less l) l) ->
  Forall pixel_box words ->
  Forall (fun l => Words l <> [] /\ unionLine (Words l) l)
         (groupWordsIntoLinesWith sort_Slice sameLine words) /\
  (length (groupWordsIntoLinesWith sort_Slice sameLine words) <= length words)%nat /\
  (groupWordsIntoLinesWith sort_Slice sameLine words = [] <-> words = []).
Proof.
  intros Hperm Hpix. destruct words as [|w0 words].
  { split; [constructor | ]. split; [simpl; lia | tauto]. }
  destruct (groupWordsIntoLines_groups sort_Slice sameLine (w0 :: words))
    as (groups & (Hcat & Hne & _ & _) & ->); [discriminate | ].
  assert (Hpixs : Forall pixel_box (sort_Slice lessWords (w0 :: words))).
  { rewrite (Hperm lessWords (w0 :: words)). assumption. }
  rewrite <- Hcat in Hpixs. apply Forall_concat in Hpixs.
  pose proof (concat_nonempty_length groups Hne) as Hlen.
  rewrite Hcat, (Permutation_length (Hperm lessWords (w0 :: words))) in Hlen.
  split; [ | split].
  - clear Hcat Hlen. induction groups as [|g groups IH]; simpl; [constructor | ].
    apply Forall_cons_1 in Hne as [Hg Hne].
    apply Forall_cons_1 in Hpixs as [Hp Hpixs].
    constructor; [ | apply IH; assumption].
    rewrite createLineFromWords_Words. split; [assumption | ].
    apply createLineFromWords_union; assumption.
  - rewrite length_map. assumption.
  - split; [ | discriminate]. intros Hnil. exfalso.
    destruct groups as [|g groups]; [ | discriminate].
    simpl in Hcat. symmetry in Hcat.
    pose proof (Hperm lessWords (w0 :: words)) as Hp. rewrite Hcat in Hp.
    apply Permutation_nil in Hp. discriminate.
Qed.

Lemma groupWordsIntoLines_boxes_are_unions_witness :
  Forall (fun l => Words l <> [] /\ unionLine (Words l) l)
         (groupWordsIntoLinesWith insertionSort_func Ocr.wordsOnSameLine
            [wordLeft; wordRight]) /\
  (length (groupWordsIntoLinesWith insertionSort_func Ocr.wordsOnSameLine
             [wordLeft; wordRight]) <= length [wordLeft; wordRight])%nat /\
  (groupWordsIntoLinesWith insertionSort_func Ocr.wordsOnSameLine
     [wordLeft; wordRight] = [] <-> [wordLeft; wordRight] = []).
Proof.
  apply (groupWordsIntoLines_boxes_are_unions insertionSort_func
           Ocr.wordsOnSameLine [wordLeft; wordRight]).
  - intros less l. apply insertionSort_perm.
  - repeat constructor; unfold int_max; simpl; lia.
Defined.

(** ** The envelope of a line *)

(** The loop of [wordsOnSameLine] over words whose vertical spans lie in
    [[0, bound]]: the heights add up without wrapping and the envelope
    holds every word seen. *)
Lemma lineStats_fold bound : forall ws seen sumH mn mx,
  0 <= bound ->
  Forall (spanBelow bound) ws ->
  0 <= sumH <= len seen * bound ->
  (len seen + len ws) * bound <= int_max ->
  0 <= mn -> mx <= bound -> mn <= mx ->
  Forall (fun m => mn <= Y m /\ Y m + Height m <= mx) seen ->
  exists sumH' mn' mx',
    fold_left
      (fun '(avgHeight, minY, maxY) word =>
         (avgHeight [+] Height word,
          if Y word <? minY then Y word else minY,
          if Y word [+] Height word >? maxY then Y word [+] Height word else maxY))
      ws (sumH, mn, mx) = (sumH', mn', mx') /\
    0 <= sumH' <= (len seen + len ws) * bound /\
    0 <= mn' /\ mx' <= bound /\ mn' <= mn /\ mx <= mx' /\
    Forall (fun m => mn' <= Y m /\ Y m + Height m <= mx') (seen ++ ws).
Proof.
  induction ws as [|w ws IH]; intros seen sumH mn mx Hb Hws Hsum Hlen Hmn Hmx Hle Hseen.
  - exists sumH, mn, mx. simpl. rewrite app_nil_r. unfold len in *. simpl in *.
    repeat split; auto; lia.
  - apply Forall_cons_1 in Hws as [(Hy & Hh & Hyh) Hws].
    assert (Hl : len (w :: ws) = 1 + len ws) by (unfold len; simpl; lia).
    assert (Hl' : len (seen ++ [w]) = len seen + 1)
      by (unfold len; rewrite length_app; simpl; lia).
    assert (Hnn : 0 <= len seen /\ 0 <= len ws) by (unfold len; lia).
    rewrite Hl in Hlen.
    cbn [fold_left].
    rewrite !add_small by (unfold in_range, int_min, int_max in *; nia).
    rewrite Z.gtb_ltb.
    destruct (IH (seen ++ [w]) (sumH + Height w)
                (if Y w <? mn then Y w else mn)
                (if mx <? Y w + Height w then Y w + Height w else mx))
      as (sumH' & mn' & mx' & Hrun & Hs' & Hmn' & Hmx' & Hmnle & Hmxle & Hall);
      try assumption.
    + rewrite Hl'. nia.
    + rewrite Hl'. nia.
    + destruct (Z.ltb_spec (Y w) mn); lia.
    + destruct (Z.ltb_spec mx (Y w + Height w)); lia.
    + destruct (Z.ltb_spec (Y w) mn), (Z.ltb_spec mx (Y w + Height w)); lia.
    + apply Forall_app. split.
      * eapply Forall_impl; [exact Hseen | ]. simpl. intros m [H1 H2].
        destruct (Z.ltb_spec (Y w) mn), (Z.ltb_spec mx (Y w + Height w)); lia.
      * constructor; [ | constructor].
        destruct (Z.ltb_spec (Y w) mn), (Z.ltb_spec mx (Y w + Height w)); lia.
    + exists sumH', mn', mx'. split; [exact Hrun | ].
      rewrite Hl' in Hs'. rewrite <- app_assoc in Hall. simpl in Hall.
      assert (mn' <= mn /\ mx <= mx').
      { destruct (Z.ltb_spec (Y w) mn), (Z.ltb_spec mx (Y w + Height w)); lia. }
      repeat split; try assumption; try lia; nia.
Qed.

Lemma lineEnvelope_covers bound w0 rest :
  Forall (spanBelow bound) (w0 :: rest) ->
  (len (w0 :: rest) + 1) * bound <= int_max ->
  exists top bottom,
    lineEnvelope (w0 :: rest) w0 = (top, bottom) /\
    Forall (fun m => top <= Y m /\ Y m + Height m <= bottom) (w0 :: rest).
Proof.
  intros Hws Hlen.
  pose proof Hws as Hws'. apply Forall_cons_1 in Hws' as [(Hy & Hh & Hyh) _].
  assert (Hb : 0 <= bound) by lia.
  assert (Hn : 1 <= len (w0 :: rest)) by (unfold len; simpl; lia).
  unfold lineEnvelope, lineStats.
  rewrite add_small by (unfold in_range, int_min, int_max in *; nia).
  destruct (lineStats_fold bound (w0 :: rest) [] 0 (Y w0) (Y w0 + Height w0))
    as (sumH & mn & mx & Hrun & Hs & Hmn & Hmx & Hmnle & Hmxle & Hall);
    try assumption; try lia.
  { unfold len at 1. simpl. lia. }
  { unfold len at 1. simpl. nia. }
  { constructor. }
  rewrite Hrun. simpl in Hall. unfold len at 1 in Hs. simpl in Hs.
  assert (Hrange : in_range sumH) by (unfold in_range, int_min, int_max in *; nia).
  rewrite (quot_small sumH) by (assumption || lia).
  pose proof (quot_bounds sumH (len (w0 :: rest)) ltac:(lia)) as Havg.
  assert (Havg' : Z.quot sumH (len (w0 :: rest)) <= bound).
  { apply Z.quot_le_upper_bound; nia. }
  rewrite (quot_small (Z.quot sumH _))
    by (unfold in_range, int_min, int_max in *; lia).
  pose proof (quot_bounds (Z.quot sumH (len (w0 :: rest))) 3 ltac:(lia)) as Htol.
  assert (H2b : 2 * bound <= int_max) by nia.
  assert (Htol' : 0 <= Z.quot (Z.quot sumH (len (w0 :: rest))) 3 <= bound) by lia.
  rewrite add_small, sub_small
    by (unfold in_range, int_min, int_max in *; lia).
  eexists _, _. split; [reflexivity | ].
  eapply Forall_impl; [exact Hall | ]. simpl. intros m [H1 H2]. lia.
Qed.

(** X11. A word whose vertical span overlaps that of some word of the
    current line is always accepted by [wordsOnSameLine], in both
    packages, when the vertical spans of the words lie in [[0, bound]] and
    the line is short enough for the sum of its heights to be
    representable. *)
Theorem wordsOnSameLine_accepts_overlap
    (bound : Z) (currentLineWords : list WordBox) (newWord : WordBox) :
  Forall (spanBelow bound) (newWord :: currentLineWords) ->
  (len currentLineWords + 1) * bound <= int_max ->
  Exists (fun m => spansOverlap m newWord) currentLineWords ->
  Ocr.wordsOnSameLine currentLineWords newWord = true /\
  Hocr.wordsOnSameLine currentLineWords newWord = true.
Proof.
  intros Hall Hlen Hex. rewrite <- wordsOnSameLine_same.
  enough (Ocr.wordsOnSameLine currentLineWords newWord = true) by tauto.
  apply Forall_cons_1 in Hall as [(Hy & Hh & Hyh) Hws].
  destruct currentLineWords as [|w0 rest]; [reflexivity | ].
  destruct (lineEnvelope_covers bound w0 rest Hws Hlen) as (top & bottom & Henv & Hcov).
  unfold Ocr.wordsOnSameLine. rewrite Henv.
  apply Exists_exists in Hex as (m & Hm & Hov1 & Hov2).
  rewrite Forall_forall in Hcov. destruct (Hcov m Hm) as [Ht Hbt].
  assert (Hb : 0 <= bound) by lia.
  assert (Hn : 1 <= len (w0 :: rest)) by (unfold len; simpl; lia).
  rewrite add_small by (unfold in_range, int_min, int_max in *; nia).
  apply negb_true_iff, orb_false_iff. rewrite Z.gtb_ltb, !Z.ltb_ge. lia.
Qed.

Lemma wordsOnSameLine_accepts_overlap_witness :
  Ocr.wordsOnSameLine [wordRight] wordLeft = true /\
  Hocr.wordsOnSameLine [wordRight] wordLeft = true.
Proof.
  apply (wordsOnSameLine_accepts_overlap 1000 [wordRight] wordLeft).
  - repeat constructor; simpl; lia.
  - unfold len, int_max. simpl. lia.
  - constructor. unfold spansOverlap. simpl. lia.
Defined.

(** * Further properties of the detection pipeline *)

(** ** The number of components *)

Lemma markVisited_count img v x y v' :
  wellShaped img v -> visitedAt v x y = Done false ->
  markVisited v x y = Done v' ->
  wellShaped img v' /\ (unvisited v' + 1 = unvisited v)%nat.
Proof.
  intros Hshape Hseen Hmark.
  destruct (markVisited_spec img v x y Hshape Hseen) as (v'' & Hv'' & H).
  rewrite Hmark in Hv''. injection Hv'' as <-. assumption.
Qed.

(** A fill that returns has used up at least one unvisited cell if it was
    started on a fillable pixel, and has put none back. *)
Lemma floodFill_uses_cells img : forall (stack : nat) x y st st',
  wellShaped img (visited st) ->
  floodFillComponent stack img x y st = Done st' ->
  wellShaped img (visited st') /\
  (unvisited (visited st') <= unvisited (visited st))%nat /\
  (fillable img (visited st) x y ->
   (unvisited (visited st') < unvisited (visited st))%nat).
Proof.
  induction stack as [|stack IH]; intros x y st st' Hshape H; [discriminate | ].
  rewrite floodFill_unfold in H.
  destruct ((x <? 0) || (x >=? Dx img) || (y <? 0) || (y >=? Dy img)) eqn:Hout.
  { injection H as <-. split; [assumption | ]. split; [lia | ].
    intros (Hin & _). apply guard_false in Hin. congruence. }
  apply guard_false in Hout.
  apply bind_Done in H as (seen & Hseen & H).
  destruct seen; cbn [orb negb] in H.
  { injection H as <-. split; [assumption | ]. split; [lia | ].
    intros (_ & _ & Hun). exfalso. apply Hun. exact Hseen. }
  destruct (isTextPixel (At img x y)) eqn:Htext; cbn [orb negb] in H.
  - apply bind_Done in H as (v' & Hmark & Hfold).
    destruct (markVisited_count img _ x y v' Hshape Hseen Hmark) as [Hshape' Hcount].
    enough (wellShaped img (visited st') /\
            (unvisited (visited st') <= unvisited v')%nat) as [H1 H2].
    { split; [assumption | ]. split; [lia | intros _; lia]. }
    revert Hfold.
    apply (foldM_preserves
             (fun s => wellShaped img (visited s) /\
                       (unvisited (visited s) <= unvisited v')%nat)).
    + intros s dir s' [Hs Hle] Hcall.
      destruct (IH _ _ _ _ Hs Hcall) as (Hs' & Hle' & _).
      split; [assumption | lia].
    + split; [assumption | simpl; lia].
  - injection H as <-. split; [assumption | ]. split; [lia | ].
    intros (_ & Ht & _). congruence.
Qed.

Lemma scanPixel_count (stack : nat) img y x s s' :
  0 <= x < Dx img -> 0 <= y < Dy img ->
  wellShaped img s.1 ->
  scanPixel stack img y s x = Done s' ->
  wellShaped img s'.1 /\
  (length s'.2 + unvisited s'.1 <= length s.2 + unvisited s.1)%nat.
Proof.
  intros Hx Hy. destruct s as [v components]. simpl. intros Hshape.
  unfold scanPixel. intros H. apply bind_Done in H as (seen & Hseen & H).
  destruct (negb seen && isTextPixel (At img x y)) eqn:Hcond;
    [ | injection H as <-; simpl; split; [assumption | lia]].
  apply andb_true_iff in Hcond as [Hunseen Htext].
  apply negb_true_iff in Hunseen. subst seen.
  apply bind_Done in H as (st & Hfill & H).
  destruct (floodFill_uses_cells img _ _ _ (mkFillState v x y x y) _ Hshape Hfill)
    as (Hshape' & _ & Hlt).
  simpl in Hlt.
  assert (Hseed : fillable img v x y).
  { split; [split; assumption | ]. split; [assumption | ].
    unfold marked. rewrite Hseen. discriminate. }
  specialize (Hlt Hseed).
  destruct (isValidWordSize _ _ _ _); injection H as <-; simpl;
    (split; [assumption | ]); [rewrite length_app; simpl | ]; lia.
Qed.

Lemma findWordComponents_count (stack : nat) img components :
  findWordComponents stack img = Done components ->
  (length components <= Z.to_nat (Dx img) * Z.to_nat (Dy img))%nat.
Proof.
  unfold findWordComponents. intros H.
  apply bind_Done in H as (v & Hv & H).
  apply bind_Done in H as (s & Hs & H). injection H as <-.
  assert (Hshape : wellShaped img v).
  { unfold makeVisited in Hv. destruct (_ || _) eqn:Hneg; [discriminate | ].
    injection Hv as <-. split.
    - apply length_replicate.
    - apply Forall_replicate. apply length_replicate. }
  pose proof (wellShaped_bound img v Hshape) as Hbound.
  enough (wellShaped img s.1 /\
          (length s.2 + unvisited s.1 <= unvisited v)%nat) by lia.
  revert Hs.
  apply (foldM_preserves_In
           (fun s => wellShaped img s.1 /\
                     (length s.2 + unvisited s.1 <= unvisited v)%nat));
    [ | split; [assumption | simpl; lia]].
  intros s0 y s1 Hy Hs0. apply In_upto in Hy.
  apply (foldM_preserves_In
           (fun s => wellShaped img s.1 /\
                     (length s.2 + unvisited s.1 <= unvisited v)%nat));
    [ | assumption].
  intros s2 x s3 Hx [Hs2 Hle] Hstep. apply In_upto in Hx.
  destruct (scanPixel_count stack img y x s2 s3 Hx Hy Hs2 Hstep) as [Hs3 Hle'].
  split; [assumption | lia].
Qed.

(** X12. [findWordComponents] returns at most as many boxes as the image
    has pixels: each box it appends pays for at least one cell of the
    visited mask that its fill has marked. *)
Theorem findWordComponents_at_most_one_box_per_pixel
    (stack : nat) (img : Image) (components : list WordBox) :
  findWordComponents stack img = Done components ->
  (length components <= Z.to_nat (Dx img) * Z.to_nat (Dy img))%nat.
Proof. apply findWordComponents_count. Qed.

Lemma findWordComponents_at_most_one_box_per_pixel_witness :
  (length [mkWordBox 5 3 10 11 "word_1"]
   <= Z.to_nat (Dx pageImage) * Z.to_nat (Dy pageImage))%nat.
Proof.
  apply (findWordComponents_at_most_one_box_per_pixel 200 pageImage).
  vm_compute. reflexivity.
Defined.

(** ** From the image to words and lines *)

Lemma boundsOf_inside img group x0 y0 x1 y1 :
  Forall (insideImage img) group -> boundsOf group (x0, y0, x1, y1) ->
  0 <= x0 /\ 0 <= y0 /\ x1 <= Dx img /\ y1 <= Dy img.
Proof.
  intros Hin (_ & Ex0 & Ey0 & Ex1 & Ey1). rewrite Forall_forall in Hin.
  apply Exists_exists in Ex0 as (b0 & Hb0 & ->).
  apply Exists_exists in Ey0 as (b1 & Hb1 & ->).
  apply Exists_exists in Ex1 as (b2 & Hb2 & ->).
  apply Exists_exists in Ey1 as (b3 & Hb3 & ->).
  pose proof (Hin b0 Hb0) as P0. pose proof (Hin b1 Hb1) as P1.
  pose proof (Hin b2 Hb2) as P2. pose proof (Hin b3 Hb3) as P3.
  unfold insideImage in *. lia.
Qed.

Lemma merge_geometry sm components :
  len components <= int_max -> Forall pixel_box components ->
  exists out groups,
    mergeNearbyComponentsWith sm components = Done out /\
    concat groups = components /\
    Forall (fun g => g <> []) groups /\
    Forall2 unionBox groups out.
Proof.
  intros Hlen Hpix.
  destruct (mergeNearbyComponents_groups sm components Hlen)
    as (out & groups & Hrun & (Hcat & Hne & _ & _) & Hm).
  exists out, groups. split; [assumption | ]. split; [assumption | ].
  split; [assumption | ].
  apply merged_unionBox; [assumption | | assumption].
  apply Forall_concat. rewrite Hcat. assumption.
Qed.

Lemma merged_words_inside img groups out :
  Forall (fun g => g <> []) groups ->
  Forall (fun b => insideImage img b /\ pixel_box b /\ positive_box b) (concat groups) ->
  Forall2 unionBox groups out ->
  Forall (fun w => insideImage img w /\ pixel_box w /\ positive_box w) out /\
  (forall c, In c (concat groups) -> exists w, In w out /\ within c w) /\
  length out = length groups.
Proof.
  intros Hne Hall Hunion. induction Hunion as [|g w groups out Hgw _ IH]; simpl in *.
  - split; [constructor | ]. split; [intros c [] | reflexivity].
  - apply Forall_cons_1 in Hne as [Hg Hne].
    apply Forall_app in Hall as [Hallg Hallr].
    destruct (IH Hne Hallr) as (Hout & Hcover & Hlen).
    assert (Hing : Forall (insideImage img) g)
      by (eapply Forall_impl; [exact Hallg | simpl; tauto]).
    assert (Hpixg : Forall pixel_box g)
      by (eapply Forall_impl; [exact Hallg | simpl; tauto]).
    assert (Hposg : Forall positive_box g)
      by (eapply Forall_impl; [exact Hallg | simpl; tauto]).
    split; [ | split].
    + constructor; [ | assumption]. split; [ | split].
      * pose proof (boundsOf_inside img g _ _ _ _ Hing Hgw) as Hb.
        pose proof (unionBox_pixel_box g w Hg Hpixg Hgw) as Hp.
        unfold insideImage, pixel_box in *. lia.
      * eapply unionBox_pixel_box; eassumption.
      * eapply unionBox_positive; eassumption.
    + intros c Hc. apply in_app_or in Hc as [Hc | Hc].
      * exists w. split; [left; reflexivity | eapply unionBox_within; eassumption].
      * destruct (Hcover c Hc) as (w' & Hw' & Hin).
        exists w'. split; [right | ]; assumption.
    + lia.
Qed.

Lemma refine_geometry sm sort_Slice img components :
  (forall less l, Permutation (sort_Slice less l) l) ->
  len components <= int_max ->
  Forall (fun b => insideImage img b /\ pixel_box b /\ positive_box b) components ->
  exists words,
    refineComponentsToWordsWith sm sort_Slice components = Done words /\
    Forall (fun w => insideImage img w /\ pixel_box w /\ positive_box w) words /\
    (forall c, In c components -> exists w, In w words /\ within c w) /\
    (length words <= length components)%nat.
Proof.
  intros Hperm Hlen Hall. unfold refineComponentsToWordsWith.
  destruct (len components =? 0) eqn:Hzero.
  { apply len_zero in Hzero. subst components. exists [].
    split; [reflexivity | ]. split; [constructor | ]. split; [intros c [] | lia]. }
  pose proof (Hperm lessComponents components) as Hp.
  assert (Hall' : Forall (fun b => insideImage img b /\ pixel_box b /\ positive_box b)
                         (sort_Slice lessComponents components)).
  { rewrite Hp. assumption. }
  destruct (merge_geometry sm (sort_Slice lessComponents components))
    as (out & groups & Hrun & Hcat & Hne & Hunion).
  { unfold len in *. rewrite (Permutation_length Hp). assumption. }
  { eapply Forall_impl; [exact Hall' | simpl; tauto]. }
  rewrite <- Hcat in Hall'.
  destruct (merged_words_inside img groups out Hne Hall' Hunion)
    as (Hout & Hcover & Hlenout).
  exists out. split; [assumption | ]. split; [assumption | ]. split.
  - intros c Hc. apply Hcover. rewrite Hcat.
    apply (Permutation_in c (Permutation_sym Hp)). assumption.
  - pose proof (concat_nonempty_length groups Hne) as Hc.
    rewrite Hcat, (Permutation_length Hp) in Hc. lia.
Qed.

(** X13. On an image whose pixel count is representable, given a
    [sort.Slice] that permutes its input and a stack deeper than the
    pixel count, [detectWords] of either package returns without a panic.
    Its word boxes lie inside the image, have positive width and height,
    are at most as many as the components found, and every component
    found lies within one of them. *)
Theorem detectWords_words_cover_components
    (shouldMerge : WordBox -> WordBox -> bool)
    (sort_Slice : (WordBox -> WordBox -> bool) -> list WordBox -> list WordBox)
    (stack : nat) (img : Image) :
  (forall less l, Permutation (sort_Slice less l) l) ->
  0 <= Dx img -> 0 <= Dy img -> in_range (Dx img) -> in_range (Dy img) ->
  Dx img * Dy img <= int_max ->
  (Z.to_nat (Dx img) * Z.to_nat (Dy img) < stack)%nat ->
  exists components words,
    findWordComponents stack img = Done components /\
    detectWordsWith shouldMerge sort_Slice stack img = Done words /\
    Forall (fun w => insideImage img w /\ pixel_box w /\ positive_box w) words /\
    (forall c, In c components -> exists w, In w words /\ within c w) /\
    (length words <= length components)%nat.
Proof.
  intros Hperm Hx Hy HW HH Hprod Hstack.
  destruct (findWordComponents_total stack img Hx Hy Hstack) as [components Hfind].
  pose proof (findWordComponents_inside stack img components HW HH Hfind) as Hin.
  pose proof (findWordComponents_valid stack img components Hfind) as Hvalid.
  pose proof (findWordComponents_count stack img components Hfind) as Hcount.
  assert (Hall : Forall (fun b => insideImage img b /\ pixel_box b /\ positive_box b)
                        components).
  { rewrite Forall_forall in *. intros b Hb.
    split; [auto | ]. split.
    - apply (insideImage_pixel_box img); auto.
    - specialize (Hvalid b Hb). apply isValidWordSize_true in Hvalid.
      unfold positive_box. lia. }
  destruct (refine_geometry shouldMerge sort_Slice img components Hperm)
    as (words & Hrefine & Hwords & Hcover & Hlen); [ | assumption | ].
  { unfold len. nia. }
  exists components, words. split; [assumption | ].
  split; [unfold detectWordsWith; rewrite Hfind; exact Hrefine | ].
  auto.
Qed.

Lemma detectWords_words_cover_components_witness :
  exists components words,
    findWordComponents 2401 pageImage = Done components /\
    detectWordsWith Ocr.shouldMergeComponents insertionSort_func 2401 pageImage
      = Done words /\
    Forall (fun w => insideImage pageImage w /\ pixel_box w /\ positive_box w) words /\
    (forall c, In c components -> exists w, In w words /\ within c w) /\
    (length words <= length components)%nat.
Proof.
  apply (detectWords_words_cover_components
           Ocr.shouldMergeComponents insertionSort_func 2401 pageImage).
  - intros less l. apply insertionSort_perm.
  - simpl. lia.
  - simpl. lia.
  - unfold in_range, int_min, int_max. simpl. lia.
  - unfold in_range, int_min, int_max. simpl. lia.
  - unfold int_max. simpl. lia.
  - simpl. lia.
Defined.

Lemma lines_inside img groups :
  Forall (fun g => g <> []) groups ->
  Forall (fun w => insideImage img w /\ pixel_box w /\ positive_box w)
         (concat groups) ->
  Forall (fun l => Words l <> [] /\ unionLine (Words l) l /\ lineInside img l /\
                   Forall (fun w => insideImage img w /\ positive_box w) (Words l))
         (map createLineFromWords groups).
Proof.
  induction groups as [|g groups IH]; simpl; intros Hne Hall; [constructor | ].
  apply Forall_cons_1 in Hne as [Hg Hne].
  apply Forall_app in Hall as [Hallg Hallr].
  constructor; [ | apply IH; assumption].
  assert (Hing : Forall (insideImage img) g)
    by (eapply Forall_impl; [exact Hallg | simpl; tauto]).
  assert (Hpixg : Forall pixel_box g)
    by (eapply Forall_impl; [exact Hallg | simpl; tauto]).
  pose proof (createLineFromWords_union g Hg Hpixg) as Hunion.
  rewrite createLineFromWords_Words.
  split; [assumption | ]. split; [assumption | ]. split.
  - pose proof (boundsOf_inside img g _ _ _ _ Hing Hunion) as Hb.
    unfold lineInside. lia.
  - eapply Forall_impl; [exact Hallg | simpl; tauto].
Qed.

Lemma detectLines_geometry
    (shouldMerge : WordBox -> WordBox -> bool)
    (sameLine : list WordBox -> WordBox -> bool)
    (sort_Slice : (WordBox -> WordBox -> bool) -> list WordBox -> list WordBox)
    (stack : nat) (img : Image) :
  (forall less l, Permutation (sort_Slice less l) l) ->
  0 <= Dx img -> 0 <= Dy img -> in_range (Dx img) -> in_range (Dy img) ->
  Dx img * Dy img <= int_max ->
  (Z.to_nat (Dx img) * Z.to_nat (Dy img) < stack)%nat ->
  exists lines,
    detectLinesWith shouldMerge sameLine sort_Slice stack img = Done lines /\
    Forall (fun l => Words l <> [] /\ unionLine (Words l) l /\ lineInside img l /\
                     Forall (fun w => insideImage img w /\ positive_box w) (Words l))
           lines.
Proof.
  intros Hperm Hx Hy HW HH Hprod Hstack.
  destruct (findWordComponents_total stack img Hx Hy Hstack) as [components Hfind].
  pose proof (findWordComponents_inside stack img components HW HH Hfind) as Hin.
  pose proof (findWordComponents_valid stack img components Hfind) as Hvalid.
  pose proof (findWordComponents_count stack img components Hfind) as Hcount.
  assert (Hall : Forall (fun b => insideImage img b /\ pixel_box b /\ positive_box b)
                        components).
  { rewrite Forall_forall in *. intros b Hb.
    split; [auto | ]. split.
    - apply (insideImage_pixel_box img); auto.
    - specialize (Hvalid b Hb). apply isValidWordSize_true in Hvalid.
      unfold positive_box. lia. }
  destruct (refine_geometry shouldMerge sort_Slice img components Hperm)
    as (words & Hrefine & Hwords & _ & _); [ | assumption | ].
  { unfold len. nia. }
  unfold detectLinesWith, detectWordsWith. rewrite Hfind. simpl.
  rewrite Hrefine. simpl. eexists. split; [reflexivity | ].
  destruct words as [|w0 words]; [constructor | ].
  destruct (groupWordsIntoLines_groups sort_Slice sameLine (w0 :: words))
    as (groups & (Hcat & Hne & _ & _) & ->); [discriminate | ].
  apply lines_inside; [assumption | ].
  rewrite Hcat, (Hperm lessWords (w0 :: words)). assumption.
Qed.

(** X14. Under the same conditions, the lines that
    [detectWordBoundariesCustom] of either package builds from the image
    each hold at least one word; the line's bounding box is the union of
    the boxes of its words and lies inside the image, and so do the words,
    which have positive width and height. *)
Theorem detectLines_lines_inside_image
    (shouldMerge : WordBox -> WordBox -> bool)
    (sameLine : list WordBox -> WordBox -> bool)
    (sort_Slice : (WordBox -> WordBox -> bool) -> list WordBox -> list WordBox)
    (stack : nat) (img : Image) :
  (forall less l, Permutation (sort_Slice less l) l) ->
  0 <= Dx img -> 0 <= Dy img -> in_range (Dx img) -> in_range (Dy img) ->
  Dx img * Dy img <= int_max ->
  (Z.to_nat (Dx img) * Z.to_nat (Dy img) < stack)%nat ->
  exists lines,
    detectLinesWith shouldMerge sameLine sort_Slice stack img = Done lines /\
    Forall (fun l => Words l <> [] /\ unionLine (Words l) l /\ lineInside img l /\
                     Forall (fun w => insideImage img w /\ positive_box w) (Words l))
           lines.
Proof. apply detectLines_geometry. Qed.

Lemma detectLines_lines_inside_image_witness :
  exists lines,
    detectLinesWith Ocr.shouldMergeComponents Ocr.wordsOnSameLine
      insertionSort_func 2401 pageImage = Done lines /\
    Forall (fun l => Words l <> [] /\ unionLine (Words l) l /\
                     lineInside pageImage l /\
                     Forall (fun w => insideImage pageImage w /\ positive_box w)
                            (Words l))
           lines.
Proof.
  apply (detectLines_lines_inside_image Ocr.shouldMergeComponents
           Ocr.wordsOnSameLine insertionSort_func 2401 pageImage).
  - intros less l. apply insertionSort_perm.
  - simpl. lia.
  - simpl. lia.
  - unfold in_range, int_min, int_max. simpl. lia.
  - unfold in_range, int_min, int_max. simpl. lia.
  - unfold int_max. simpl. lia.
  - simpl. lia.
Defined.

(** ** Cleaning of the transcription *)

Section Cleaning.

Local Open Scope nat_scope.

Lemma bytesEqb_eq (a b : list ascii) : bytesEqb a b = true <-> a = b.
Proof.
  revert b. induction a as [ | x a IH]; intros [ | y b]; simpl.
  - split; reflexivity.
  - split; discriminate.
  - split; discriminate.
  - rewrite andb_true_iff, Ascii.eqb_eq, IH. split.
    + intros [-> ->]. reflexivity.
    + intros E. injection E as -> ->. split; reflexivity.
Qed.

Lemma byteAt_app (p q : list ascii) (k : nat) (c : ascii) :
  byteAt (p ++ q) (length p + k) c = byteAt q k c.
Proof.
  unfold byteAt. rewrite lookup_app_r by lia.
  replace (length p + k - length p) with k by lia. reflexivity.
Qed.

Lemma byteAt_app0 (p q : list ascii) (c : ascii) :
  byteAt (p ++ q) (length p) c = byteAt q 0 c.
Proof. rewrite <- (byteAt_app p q 0 c). f_equal. lia. Qed.

Lemma drop_app_plus (p q : list ascii) (k : nat) :
  drop (length p + k) (p ++ q) = drop k q.
Proof.
  rewrite drop_app_ge by lia. f_equal. lia.
Qed.

Lemma entityAt_app (p q entity : list ascii) :
  entityAt (p ++ q) (length p) entity = true <-> exists r, q = entity ++ r.
Proof.
  unfold entityAt. rewrite andb_true_iff, bytesEqb_eq, Nat.leb_le.
  rewrite drop_app_length, length_app. split.
  - intros [_ E]. exists (drop (length entity) q).
    rewrite <- E at 1. symmetry. apply take_drop.
  - intros [r ->]. rewrite length_app, take_app_length. split; [lia | reflexivity].
Qed.

Lemma skipDigits_spec (suffix : list ascii) (j : nat) :
  exists ds rest,
    suffix = ds ++ rest /\ forallb isDigit ds = true /\
    skipDigits suffix j = j + length ds /\
    match rest with [] => True | c :: _ => isDigit c = false end.
Proof.
  revert j. induction suffix as [ | c suffix IH]; intros j.
  - exists [], []. simpl. repeat split; lia.
  - simpl. destruct (isDigit c) eqn:Ec.
    + destruct (IH (S j)) as (ds & rest & -> & Hds & Hj & Hrest).
      exists (c :: ds), rest. simpl. rewrite Ec, Hds, Hj. repeat split; [lia | assumption].
    + exists [], (c :: suffix). simpl. repeat split; [lia | assumption].
Qed.

Lemma skipDigits_digits (ds rest : list ascii) (j : nat) :
  forallb isDigit ds = true ->
  match rest with [] => True | c :: _ => isDigit c = false end ->
  skipDigits (ds ++ rest) j = j + length ds.
Proof.
  revert j. induction ds as [ | d ds IH]; intros j Hds Hrest.
  - simpl. destruct rest as [ | c rest]; simpl; [lia | rewrite Hrest; lia].
  - simpl in Hds. apply andb_true_iff in Hds as [Hd Hds].
    simpl. rewrite Hd, IH by assumption. lia.
Qed.

Lemma isEntity_shape (e : list ascii) :
  isEntity e ->
  exists body, e = "&"%char :: body ++ [";"%char] /\ ~ In ";"%char body.
Proof.
  intros [Hnamed | (ds & Hds & ->)].
  - unfold validEntities in Hnamed. simpl in Hnamed.
    destruct Hnamed as [<- | [<- | [<- | [<- | [<- | [<- | []]]]]]];
      [exists (bytes "amp") | exists (bytes "lt") | exists (bytes "gt")
       | exists (bytes "quot") | exists (bytes "apos") | exists (bytes "#39")];
      (split; [reflexivity | simpl; intuition discriminate]).
  - exists ("#"%char :: ds). split; [reflexivity | ].
    intros [E | Hin]; [discriminate | ].
    rewrite forallb_forall in Hds. apply Hds in Hin. vm_compute in Hin. discriminate.
Qed.

Lemma shape_unique (body body' r r' : list ascii) :
  ~ In ";"%char body -> ~ In ";"%char body' ->
  body ++ ";"%char :: r = body' ++ ";"%char :: r' ->
  body = body' /\ r = r'.
Proof.
  revert body'. induction body as [ | b body IH]; intros [ | b' body'] Hb Hb' E;
    simpl in E.
  - injection E as ->. split; reflexivity.
  - injection E as <- _. exfalso. apply Hb'. left. reflexivity.
  - injection E as -> _. exfalso. apply Hb. left. reflexivity.
  - injection E as -> E. destruct (IH body') as [-> ->]; auto.
    + intros Hin. apply Hb. right. assumption.
    + intros Hin. apply Hb'. right. assumption.
Qed.

Lemma entity_unique (e e' r r' : list ascii) :
  isEntity e -> isEntity e' -> e ++ r = e' ++ r' -> e = e' /\ r = r'.
Proof.
  intros He He' E.
  apply isEntity_shape in He as (body & -> & Hb).
  apply isEntity_shape in He' as (body' & -> & Hb').
  simpl in E. injection E as E. rewrite <- !app_assoc in E. simpl in E.
  destruct (shape_unique body body' r r' Hb Hb' E) as [-> ->].
  split; reflexivity.
Qed.

Lemma Clean_app (a b : list ascii) : Clean a -> Clean b -> Clean (a ++ b).
Proof.
  intros Ha Hb. induction Ha as [ | c s Hc Hs IH | e s He Hs IH]; simpl.
  - assumption.
  - apply Clean_char; assumption.
  - rewrite <- app_assoc. apply Clean_entity; assumption.
Qed.

Lemma Clean_one_entity (e : list ascii) : isEntity e -> Clean e.
Proof.
  intros He. rewrite <- (app_nil_r e). apply Clean_entity; [assumption | constructor].
Qed.

Lemma isEntity_amp : isEntity (bytes "&amp;").
Proof. left. unfold validEntities. simpl. tauto. Qed.

(** What one round of the loop does at position [length p] of [p ++ q]:
    it steps over one byte that is no ampersand, or over one entity, or it
    replaces an ampersand by ["&amp;"] and steps over that. *)
Lemma fixStep_spec (p q : list ascii) :
  q <> [] ->
  exists seg rest,
    fixStep (p ++ q) (length p) = (p ++ seg ++ rest, length p + length seg) /\
    (isEntity seg \/ exists c, seg = [c] /\ c <> "&"%char) /\
    (q = seg ++ rest \/ (q = "&"%char :: rest /\ seg = bytes "&amp;")) /\
    length rest < length q.
Proof.
  destruct q as [ | c q']; [congruence | intros _].
  unfold fixStep. rewrite byteAt_app0. unfold byteAt at 1. cbn [lookup list_lookup].
  destruct (Ascii.eqb c "&") eqn:Ec.
  - apply Ascii.eqb_eq in Ec as ->.
    destruct (find (entityAt (p ++ "&"%char :: q') (length p)) validEntities)
      as [entity | ] eqn:Efind.
    + apply find_some in Efind as [Hin Hat].
      apply entityAt_app in Hat as [r Hr].
      assert (Hlen : 0 < length entity).
      { destruct entity; [ | simpl; lia].
        unfold validEntities in Hin. simpl in Hin. intuition discriminate. }
      cbn [negb andb]. exists entity, r. rewrite Hr. split; [ | split; [ | split]].
      * f_equal. lia.
      * left. left. assumption.
      * left. reflexivity.
      * rewrite length_app. lia.
    + cbn [negb andb].
      assert (Hreplace :
        exists seg rest,
          (take (length p) (p ++ "&"%char :: q') ++ bytes "&amp;"
             ++ drop (length p + 1) (p ++ "&"%char :: q'), S (length p + 4))
          = (p ++ seg ++ rest, length p + length seg) /\
          (isEntity seg \/ exists c, seg = [c] /\ c <> "&"%char) /\
          ("&"%char :: q' = seg ++ rest \/
           ("&"%char :: q' = "&"%char :: rest /\ seg = bytes "&amp;")) /\
          length rest < length ("&"%char :: q')).
      { exists (bytes "&amp;"), q'. rewrite take_app_length, drop_app_plus.
        split; [ | split; [ | split]].
        - simpl. f_equal. lia.
        - left. apply isEntity_amp.
        - right. split; reflexivity.
        - simpl. lia. }
      destruct ((length p + 2 <? length (p ++ "&"%char :: q'))
                && byteAt (p ++ "&"%char :: q') (length p + 1) "#") eqn:Enum;
        [ | exact Hreplace].
      destruct ((skipDigits (drop (length p + 2) (p ++ "&"%char :: q')) (length p + 2)
                 <? length (p ++ "&"%char :: q'))
                && byteAt (p ++ "&"%char :: q')
                     (skipDigits (drop (length p + 2) (p ++ "&"%char :: q'))
                        (length p + 2)) ";") eqn:Eend;
        [ | exact Hreplace].
      clear Hreplace. cbn [negb].
      apply andb_true_iff in Enum as [_ Ehash].
      apply andb_true_iff in Eend as [_ Esemi].
      rewrite byteAt_app in Ehash. rewrite drop_app_plus in Esemi.
      destruct q' as [ | h q'']; [discriminate | ].
      unfold byteAt in Ehash. cbn in Ehash. apply Ascii.eqb_eq in Ehash as ->.
      cbn [drop] in Esemi |- *. rewrite drop_app_plus. cbn [drop].
      destruct (skipDigits_spec q'' (length p + 2)) as (ds & rest & -> & Hds & Hj & _).
      change (drop 0 (ds ++ rest)) with (ds ++ rest) in *.
      rewrite Hj in Esemi |- *.
      replace (length p + 2 + length ds) with (length p + (2 + length ds)) in Esemi by lia.
      rewrite byteAt_app in Esemi.
      change ("&"%char :: "#"%char :: ds ++ rest)
        with (("&"%char :: "#"%char :: ds) ++ rest) in Esemi.
      replace (2 + length ds) with (length ("&"%char :: "#"%char :: ds) + 0) in Esemi
        by (simpl; lia).
      rewrite byteAt_app in Esemi.
      destruct rest as [ | semi rest]; [discriminate | ].
      unfold byteAt in Esemi. cbn in Esemi. apply Ascii.eqb_eq in Esemi as ->.
      exists (bytes "&#" ++ ds ++ bytes ";"), rest. split; [ | split; [ | split]].
      * f_equal; [simpl; rewrite <- !app_assoc; reflexivity | ].
        simpl. rewrite length_app. simpl. lia.
      * left. right. exists ds. split; [assumption | reflexivity].
      * left. simpl. rewrite <- !app_assoc. reflexivity.
      * simpl. rewrite !length_app. simpl. lia.
  - exists [c], q'. split; [ | split; [ | split]].
    + simpl. f_equal. lia.
    + right. exists c. split; [reflexivity | ]. apply Ascii.eqb_neq. assumption.
    + left. reflexivity.
    + simpl. lia.
Qed.

(** At an entity the round changes nothing and steps over the entity. *)
Lemma fixStep_entity (p e s : list ascii) :
  isEntity e ->
  fixStep (p ++ e ++ s) (length p) = (p ++ e ++ s, length p + length e).
Proof.
  intros He.
  destruct (isEntity_shape e He) as (body & Hshape & _).
  assert (Hamp : byteAt (e ++ s) 0 "&" = true) by (rewrite Hshape; reflexivity).
  assert (Hlen : 0 < length e) by (rewrite Hshape; simpl; lia).
  unfold fixStep. rewrite byteAt_app0, Hamp.
  destruct (find (entityAt (p ++ e ++ s) (length p)) validEntities)
    as [e' | ] eqn:Efind.
  - apply find_some in Efind as [Hin Hat].
    apply entityAt_app in Hat as [r Hr].
    destruct (entity_unique e e' s r He (or_introl Hin) Hr) as [<- _].
    cbn [negb andb]. f_equal. lia.
  - destruct He as [Hnamed | (ds & Hds & ->)].
    + pose proof (find_none _ _ Efind e Hnamed) as Hno.
      assert (Hyes : entityAt (p ++ e ++ s) (length p) e = true)
        by (apply entityAt_app; exists s; reflexivity).
      congruence.
    + clear Hshape Hamp Hlen Efind.
      assert (El : (bytes "&#" ++ ds ++ bytes ";") ++ s
                   = ("&"%char :: "#"%char :: ds) ++ ";"%char :: s)
        by (simpl; rewrite <- app_assoc; reflexivity).
      assert (Ee : length (bytes "&#" ++ ds ++ bytes ";") = length ds + 3)
        by (simpl; rewrite length_app; simpl; lia).
      rewrite Ee, El. cbn [negb andb].
      assert (Hlt : (length p + 2 <? length (p ++ ("&"%char :: "#"%char :: ds) ++ ";"%char :: s)) = true).
      { apply Nat.ltb_lt. rewrite !length_app. simpl. lia. }
      rewrite Hlt. rewrite (byteAt_app p _ 1 "#").
      change (byteAt (("&"%char :: "#"%char :: ds) ++ ";"%char :: s) 1 "#") with true.
      cbn [andb]. rewrite drop_app_plus.
      change (drop 2 (("&"%char :: "#"%char :: ds) ++ ";"%char :: s))
        with (ds ++ ";"%char :: s).
      rewrite (skipDigits_digits ds (";"%char :: s)) by (assumption || reflexivity).
      assert (Hj : (length p + 2 + length ds
                    <? length (p ++ ("&"%char :: "#"%char :: ds) ++ ";"%char :: s)) = true).
      { apply Nat.ltb_lt. rewrite !length_app. simpl. lia. }
      rewrite Hj.
      replace (length p + 2 + length ds)
        with (length p + (length ("&"%char :: "#"%char :: ds) + 0)) by (simpl; lia).
      rewrite byteAt_app, byteAt_app. change (byteAt (";"%char :: s) 0 ";") with true.
      cbn [andb negb]. f_equal. simpl. lia.
Qed.

(** At a byte that is no ampersand the round changes nothing and steps
    over the byte. *)
Lemma fixStep_plain (p : list ascii) (c : ascii) (s : list ascii) :
  c <> "&"%char ->
  fixStep (p ++ c :: s) (length p) = (p ++ c :: s, S (length p)).
Proof.
  intros Hc. unfold fixStep. rewrite byteAt_app0. unfold byteAt. cbn.
  apply Ascii.eqb_neq in Hc. rewrite Hc. reflexivity.
Qed.

Lemma fixLoop_S (rounds : nat) (cleanLine : list ascii) (i : nat) :
  fixLoop (S rounds) cleanLine i
  = if i <? length cleanLine
    then let '(cleanLine', i') := fixStep cleanLine i in fixLoop rounds cleanLine' i'
    else cleanLine.
Proof. reflexivity. Qed.

Lemma fixLoop_end (rounds : nat) (cleanLine : list ascii) (i : nat) :
  length cleanLine <= i -> fixLoop rounds cleanLine i = cleanLine.
Proof.
  intros Hi. apply Nat.ltb_ge in Hi. destruct rounds; simpl; rewrite Hi; reflexivity.
Qed.

Lemma ampEscaped_refl (s : list ascii) : ampEscaped s s.
Proof. induction s; constructor; assumption. Qed.

Lemma ampEscaped_app (a a' b b' : list ascii) :
  ampEscaped a a' -> ampEscaped b b' -> ampEscaped (a ++ b) (a' ++ b').
Proof.
  intros Ha Hb. induction Ha as [ | c s s' Hs IH | s s' Hs IH].
  - assumption.
  - simpl. apply ampEscaped_keep. assumption.
  - rewrite <- app_assoc. apply (ampEscaped_amp (s ++ b)). assumption.
Qed.

(** The loop over one line, started behind [p] with only [q] left to look
    at: it leaves [p] alone and turns [q] into clean text of which [q] is a
    escaped copy. *)
Lemma fixLoop_run (rounds : nat) (p q : list ascii) :
  length q <= rounds ->
  exists q', fixLoop rounds (p ++ q) (length p) = p ++ q'
             /\ Clean q' /\ ampEscaped q q'.
Proof.
  revert p q. induction rounds as [ | rounds IH]; intros p q Hq.
  - destruct q; [ | simpl in Hq; lia]. exists []. rewrite fixLoop_end.
    + repeat split; constructor.
    + rewrite length_app. simpl. lia.
  - destruct q as [ | c q0].
    { exists []. rewrite fixLoop_end by (rewrite length_app; simpl; lia).
      repeat split; constructor. }
    set (q := c :: q0) in *.
    destruct (fixStep_spec p q) as (seg & rest & Hstep & Hseg & Hq' & Hless);
      [subst q; discriminate | ].
    rewrite fixLoop_S.
    assert (Hlt : (length p <? length (p ++ q)) = true).
    { apply Nat.ltb_lt. rewrite length_app. subst q. simpl. lia. }
    rewrite Hlt, Hstep, app_assoc, <- length_app.
    destruct (IH (p ++ seg) rest) as (q' & -> & Hclean & Hsub); [lia | ].
    exists (seg ++ q'). rewrite <- app_assoc. split; [reflexivity | ]. split.
    + destruct Hseg as [He | (c' & -> & Hc')].
      * apply Clean_entity; assumption.
      * apply Clean_char; assumption.
    + destruct Hq' as [-> | [-> ->]].
      * apply ampEscaped_app; [apply ampEscaped_refl | assumption].
      * apply ampEscaped_amp. assumption.
Qed.

(** On clean text the loop changes nothing, whatever the number of
    rounds. *)
Lemma fixLoop_clean (rounds : nat) (p q : list ascii) :
  Clean q -> fixLoop rounds (p ++ q) (length p) = p ++ q.
Proof.
  intros Hq. revert rounds p.
  induction Hq as [ | c s Hc Hs IH | e s He Hs IH]; intros rounds p.
  - apply fixLoop_end. rewrite length_app. simpl. lia.
  - destruct rounds as [ | rounds]; [simpl; destruct (_ <? _); reflexivity | ].
    rewrite fixLoop_S, fixStep_plain by assumption.
    destruct (_ <? _); [ | reflexivity].
    replace (S (length p)) with (length (p ++ [c])) by (rewrite length_app; simpl; lia).
    rewrite (cons_middle c p s), app_assoc. apply IH.
  - destruct rounds as [ | rounds]; [simpl; destruct (_ <? _); reflexivity | ].
    rewrite fixLoop_S, fixStep_entity by assumption.
    destruct (_ <? _); [ | reflexivity].
    rewrite <- length_app, app_assoc. apply IH.
Qed.

(** Every round leaves fewer bytes to look at, so more rounds than the
    line has bytes change nothing. *)
Lemma fixLoop_fuel (rounds rounds' : nat) (p q : list ascii) :
  length q <= rounds -> length q <= rounds' ->
  fixLoop rounds (p ++ q) (length p) = fixLoop rounds' (p ++ q) (length p).
Proof.
  revert rounds' p q. induction rounds as [ | rounds IH]; intros rounds' p q Hq Hq'.
  - destruct q; [ | simpl in Hq; lia].
    rewrite !fixLoop_end by (rewrite length_app; simpl; lia). reflexivity.
  - destruct q as [ | c q0].
    { rewrite !fixLoop_end by (rewrite length_app; simpl; lia). reflexivity. }
    destruct rounds' as [ | rounds']; [simpl in Hq'; lia | ].
    destruct (fixStep_spec p (c :: q0)) as (seg & rest & Hstep & _ & _ & Hless);
      [discriminate | ].
    rewrite !fixLoop_S, Hstep, app_assoc, <- length_app.
    destruct (_ <? _); [ | reflexivity].
    apply IH; simpl in *; lia.
Qed.

Lemma fixLine_spec (line : list ascii) :
  Clean (fixLine line) /\ ampEscaped line (fixLine line).
Proof.
  unfold fixLine.
  destruct (fixLoop_run (length line) [] line) as (q' & E & Hclean & Hesc); [lia | ].
  simpl in E. rewrite E. split; assumption.
Qed.

Lemma fixLine_clean (line : list ascii) : Clean line -> fixLine line = line.
Proof. intros Hl. apply (fixLoop_clean (length line) [] line Hl). Qed.

Lemma splitByte_nonempty (sep : ascii) (s : list ascii) : splitByte sep s <> [].
Proof.
  destruct s as [ | c s]; simpl; [discriminate | ].
  destruct (Ascii.eqb c sep); [discriminate | ].
  destruct (splitByte sep s); discriminate.
Qed.

Lemma joinByte_cons (sep : ascii) (part : list ascii) (rest : list (list ascii)) :
  rest <> [] -> joinByte sep (part :: rest) = part ++ sep :: joinByte sep rest.
Proof. destruct rest; [congruence | reflexivity]. Qed.

Lemma joinByte_splitByte (sep : ascii) (s : list ascii) :
  joinByte sep (splitByte sep s) = s.
Proof.
  induction s as [ | c s IH]; [reflexivity | ]. simpl.
  destruct (Ascii.eqb c sep) eqn:Ec.
  - apply Ascii.eqb_eq in Ec as ->.
    rewrite joinByte_cons by apply splitByte_nonempty. rewrite IH. reflexivity.
  - pose proof (splitByte_nonempty sep s) as Hne.
    destruct (splitByte sep s) as [ | part [ | part' parts]]; [congruence | | ].
    + simpl in *. congruence.
    + change (joinByte sep ((c :: part) :: part' :: parts))
        with (c :: joinByte sep (part :: part' :: parts)).
      rewrite IH. reflexivity.
Qed.

Lemma splitByte_app (sep : ascii) (a b : list ascii) :
  splitByte sep (a ++ sep :: b) = splitByte sep a ++ splitByte sep b.
Proof.
  induction a as [ | c a IH]; simpl.
  - rewrite Ascii.eqb_refl. reflexivity.
  - destruct (Ascii.eqb c sep); [rewrite IH; reflexivity | ].
    rewrite IH. pose proof (splitByte_nonempty sep a) as Hne.
    destruct (splitByte sep a); [congruence | reflexivity].
Qed.

Lemma joinByte_app (sep : ascii) (xs ys : list (list ascii)) :
  xs <> [] -> ys <> [] ->
  joinByte sep (xs ++ ys) = joinByte sep xs ++ sep :: joinByte sep ys.
Proof.
  intros Hx Hy. induction xs as [ | x [ | x' xs] IH]; [congruence | | ].
  - simpl. apply joinByte_cons. assumption.
  - change (joinByte sep ((x :: x' :: xs) ++ ys))
      with (x ++ sep :: joinByte sep ((x' :: xs) ++ ys)).
    rewrite IH by discriminate.
    change (joinByte sep (x :: x' :: xs)) with (x ++ sep :: joinByte sep (x' :: xs)).
    rewrite <- app_assoc. reflexivity.
Qed.

Lemma newline_not_amp : newline <> "&"%char.
Proof. vm_compute. discriminate. Qed.

Lemma Clean_joinByte (parts : list (list ascii)) :
  Forall Clean parts -> Clean (joinByte newline parts).
Proof.
  induction 1 as [ | part [ | part' parts] Hp Hps IH]; [constructor | assumption | ].
  change (Clean (part ++ newline :: joinByte newline (part' :: parts))).
  apply Clean_app; [assumption | ].
  apply Clean_char; [apply newline_not_amp | assumption].
Qed.

Lemma ampEscaped_joinByte (parts parts' : list (list ascii)) :
  Forall2 ampEscaped parts parts' ->
  ampEscaped (joinByte newline parts) (joinByte newline parts').
Proof.
  induction 1 as [ | part part' parts parts' Hp Hps IH]; [constructor | ].
  destruct Hps as [ | q q' qs qs' Hq Hqs]; [assumption | ].
  change (ampEscaped (part ++ newline :: joinByte newline (q :: qs))
                     (part' ++ newline :: joinByte newline (q' :: qs'))).
  apply ampEscaped_app; [assumption | ]. apply ampEscaped_keep. assumption.
Qed.

Lemma isEntity_no_newline (e : list ascii) : isEntity e -> ~ In newline e.
Proof.
  intros [Hnamed | (ds & Hds & ->)].
  - unfold validEntities in Hnamed. simpl in Hnamed.
    destruct Hnamed as [<- | [<- | [<- | [<- | [<- | [<- | []]]]]]];
      vm_compute; intuition discriminate.
  - simpl. intros [E | Hin]; [vm_compute in E; discriminate | ].
    destruct Hin as [E | Hin]; [vm_compute in E; discriminate | ].
    apply in_app_or in Hin as [Hin | Hin].
    + rewrite forallb_forall in Hds. apply Hds in Hin. vm_compute in Hin. discriminate.
    + simpl in Hin. destruct Hin as [E | []]. vm_compute in E. discriminate.
Qed.

Lemma splitByte_prefix (sep : ascii) (e s : list ascii) :
  ~ In sep e ->
  exists part parts,
    splitByte sep s = part :: parts /\ splitByte sep (e ++ s) = (e ++ part) :: parts.
Proof.
  intros He. induction e as [ | c e IH].
  - pose proof (splitByte_nonempty sep s) as Hne.
    destruct (splitByte sep s) as [ | part parts] eqn:E; [congruence | ].
    exists part, parts. split; [reflexivity | assumption].
  - destruct IH as (part & parts & E & E'); [intros Hin; apply He; right; assumption | ].
    exists part, parts. split; [assumption | ]. simpl.
    destruct (Ascii.eqb c sep) eqn:Ec.
    + apply Ascii.eqb_eq in Ec. exfalso. apply He. left. assumption.
    + rewrite E'. reflexivity.
Qed.

Lemma Clean_splitByte (content : list ascii) :
  Clean content -> Forall Clean (splitByte newline content).
Proof.
  induction 1 as [ | c s Hc Hs IH | e s He Hs IH].
  - simpl. repeat constructor.
  - simpl. destruct (Ascii.eqb c newline).
    + constructor; [constructor | assumption].
    + destruct (splitByte newline s) as [ | part parts]; [repeat constructor; assumption | ].
      inversion IH; subst. constructor; [apply Clean_char | ]; assumption.
  - destruct (splitByte_prefix newline e s (isEntity_no_newline e He))
      as (part & parts & E & ->).
    rewrite E in IH. inversion IH; subst.
    constructor; [apply Clean_entity | ]; assumption.
Qed.

Lemma fixAmpersands_spec (content : list ascii) :
  Clean (fixAmpersands content) /\ ampEscaped content (fixAmpersands content).
Proof.
  unfold fixAmpersands. split.
  - apply Clean_joinByte. apply Forall_map. apply Forall_forall.
    intros line _. apply fixLine_spec.
  - rewrite <- (joinByte_splitByte newline content) at 1.
    apply ampEscaped_joinByte.
    induction (splitByte newline content) as [ | line lines IH]; constructor.
    + apply fixLine_spec.
    + assumption.
Qed.

Lemma fixAmpersands_clean (content : list ascii) :
  Clean content -> fixAmpersands content = content.
Proof.
  intros Hc. unfold fixAmpersands.
  rewrite <- (joinByte_splitByte newline content) at 2. f_equal.
  apply Clean_splitByte in Hc.
  induction Hc as [ | line lines Hl Hls IH]; [reflexivity | ].
  simpl. rewrite fixLine_clean, IH by assumption. reflexivity.
Qed.

Lemma no_amp_Clean (s : list ascii) : ~ In "&"%char s -> Clean s.
Proof.
  induction s as [ | c s IH]; intros Hs; [constructor | ].
  apply Clean_char.
  - intros ->. apply Hs. left. reflexivity.
  - apply IH. intros Hin. apply Hs. right. assumption.
Qed.

(** X15. In the text that [fixAmpersands] returns every ampersand starts
    one of the six entities of [validEntities] or a numeric entity [&#]
    digits [;] (the digits may be missing), and the text is the input with
    some of its ampersands replaced by [&amp;] and nothing else changed. *)
Theorem fixAmpersands_escapes_bare_ampersands (content : list ascii) :
  Clean (fixAmpersands content) /\ ampEscaped content (fixAmpersands content).
Proof.
  pose proof (fixAmpersands_spec content) as [Hclean Hesc].
  split; [exact Hclean | exact Hesc].
Qed.

(** X16. [fixAmpersands] returns unchanged a text in which every ampersand
    already starts an entity; in particular a text without ampersands. *)
Theorem fixAmpersands_keeps_clean_text (content : list ascii) :
  Clean content \/ ~ In "&"%char content ->
  fixAmpersands content = content.
Proof.
  intros [Hc | Hno]; apply fixAmpersands_clean; [assumption | ].
  apply no_amp_Clean. assumption.
Qed.

Lemma fixAmpersands_keeps_clean_text_witness :
  fixAmpersands (bytes "R&amp;D &#169; &lt;b&gt;") = bytes "R&amp;D &#169; &lt;b&gt;".
Proof.
  apply (fixAmpersands_keeps_clean_text (bytes "R&amp;D &#169; &lt;b&gt;")).
  left.
  apply Clean_char; [discriminate | ].
  apply (Clean_entity (bytes "&amp;")); [left; vm_compute; tauto | ].
  apply Clean_char; [discriminate | ].
  apply Clean_char; [discriminate | ].
  apply (Clean_entity (bytes "&#169;"));
    [right; exists (bytes "169"); split; reflexivity | ].
  apply Clean_char; [discriminate | ].
  apply (Clean_entity (bytes "&lt;")); [left; vm_compute; tauto | ].
  apply Clean_char; [discriminate | ].
  apply (Clean_entity (bytes "&gt;")); [left; vm_compute; tauto | ].
  apply Clean_nil.
Defined.

(** X17. [fixAmpersands] is idempotent: cleaning a cleaned text changes
    nothing, so no [&amp;] is escaped a second time. *)
Theorem fixAmpersands_idempotent (content : list ascii) :
  fixAmpersands (fixAmpersands content) = fixAmpersands content.
Proof.
  apply fixAmpersands_clean. apply fixAmpersands_spec.
Qed.

(** X18. [fixAmpersands] works line by line: the result for two texts
    joined by a newline is the two results joined by a newline, so no
    entity is recognised across a line break. *)
Theorem fixAmpersands_line_by_line (a b : list ascii) :
  fixAmpersands (a ++ newline :: b)
  = fixAmpersands a ++ newline :: fixAmpersands b.
Proof.
  unfold fixAmpersands. rewrite splitByte_app, map_app.
  apply joinByte_app.
  - pose proof (splitByte_nonempty newline a). destruct (splitByte newline a);
      [congruence | discriminate].
  - pose proof (splitByte_nonempty newline b). destruct (splitByte newline b);
      [congruence | discriminate].
Qed.

(** X19. The loop of [fixAmpersands] over a line ends although the
    replacements make the line longer: every round leaves fewer bytes
    behind the index, so after at most [len(line)] rounds the index has
    passed the end, and any larger number of rounds gives the same
    line. *)
Theorem fixAmpersands_line_loop_ends (rounds : nat) (line : list ascii) :
  length line <= rounds ->
  fixLoop rounds line 0 = fixLine line /\ Clean (fixLoop rounds line 0).
Proof.
  intros Hr.
  assert (E : fixLoop rounds line 0 = fixLine line).
  { unfold fixLine. apply (fixLoop_fuel rounds (length line) [] line); lia. }
  split; [exact E | ]. rewrite E. apply fixLine_spec.
Qed.

Lemma fixAmpersands_line_loop_ends_witness :
  fixLoop 40 (bytes "a & b && c") 0 = fixLine (bytes "a & b && c")
  /\ Clean (fixLoop 40 (bytes "a & b && c") 0).
Proof.
  apply (fixAmpersands_line_loop_ends 40 (bytes "a & b && c")).
  vm_compute. lia.
Defined.

End Cleaning.

(** ** Escaping of the text of span elements *)

Section Escaping.

Local Open Scope nat_scope.

Lemma strings_HasPrefix_spec (s prefix : list ascii) :
  strings_HasPrefix s prefix = true -> s = prefix ++ drop (length prefix) s.
Proof.
  revert s. induction prefix as [ | p prefix IH]; intros s Hp; [reflexivity | ].
  destruct s as [ | c s]; [discriminate | ]. simpl in Hp.
  apply andb_true_iff in Hp as [Ec Hp]. apply Ascii.eqb_eq in Ec as ->.
  simpl. f_equal. apply IH. assumption.
Qed.

Lemma strings_Index_eq (s substr : list ascii) :
  strings_Index s substr
  = if strings_HasPrefix s substr then Some 0
    else match s with
         | [] => None
         | _ :: s' => option_map S (strings_Index s' substr)
         end.
Proof. destruct s; reflexivity. Qed.

Lemma strings_Index_spec (s substr : list ascii) (m : nat) :
  strings_Index s substr = Some m ->
  s = take m s ++ substr ++ drop (m + length substr) s.
Proof.
  revert m. induction s as [ | c s IH]; intros m Hm; rewrite strings_Index_eq in Hm.
  - destruct (strings_HasPrefix [] substr) eqn:Ep; [ | discriminate].
    injection Hm as <-. apply strings_HasPrefix_spec in Ep. exact Ep.
  - destruct (strings_HasPrefix (c :: s) substr) eqn:Ep.
    + injection Hm as <-. apply strings_HasPrefix_spec in Ep. exact Ep.
    + destruct (strings_Index s substr) as [m' | ] eqn:Em; [ | discriminate].
      injection Hm as <-. simpl. f_equal. apply IH. reflexivity.
Qed.

Lemma genSplit_nonempty (n : nat) (s sep : list ascii) : genSplit n s sep <> [].
Proof.
  destruct n; simpl; [discriminate | ].
  destruct (strings_Index s sep); discriminate.
Qed.

Lemma strings_Join_cons (e : list ascii) (rest : list (list ascii)) (sep : list ascii) :
  rest <> [] -> strings_Join (e :: rest) sep = e ++ sep ++ strings_Join rest sep.
Proof. destruct rest; [congruence | reflexivity]. Qed.

(** Joining what [strings.Split] has cut gives the string back. *)
Lemma strings_Join_genSplit (n : nat) (s sep : list ascii) :
  strings_Join (genSplit n s sep) sep = s.
Proof.
  revert s. induction n as [ | n IH]; intros s; [reflexivity | ]. simpl.
  destruct (strings_Index s sep) as [m | ] eqn:Em; [ | reflexivity].
  rewrite strings_Join_cons by apply genSplit_nonempty.
  rewrite IH. symmetry. apply strings_Index_spec. assumption.
Qed.

Lemma strings_HasPrefix_length (s prefix : list ascii) :
  strings_HasPrefix s prefix = true -> length prefix <= length s.
Proof.
  intros Hp. apply strings_HasPrefix_spec in Hp.
  apply (f_equal (@length ascii)) in Hp. rewrite length_app in Hp. lia.
Qed.

Lemma strings_Index_bound (s substr : list ascii) (m : nat) :
  strings_Index s substr = Some m -> m + length substr <= length s.
Proof.
  revert m. induction s as [ | c s IH]; intros m Hm; rewrite strings_Index_eq in Hm.
  - destruct (strings_HasPrefix [] substr) eqn:Ep; [ | discriminate].
    injection Hm as <-. apply strings_HasPrefix_length in Ep. lia.
  - destruct (strings_HasPrefix (c :: s) substr) eqn:Ep.
    + injection Hm as <-. apply strings_HasPrefix_length in Ep. lia.
    + destruct (strings_Index s substr) as [m' | ] eqn:Em; [ | discriminate].
      injection Hm as <-. specialize (IH m' eq_refl). simpl. lia.
Qed.

(** [strings.Split] cuts at most [len(s)] times: behind every cut the
    string is shorter, so more rounds give the same parts. *)
Lemma genSplit_rounds (n n' : nat) (s sep : list ascii) :
  sep <> [] -> length s <= n -> length s <= n' ->
  genSplit n s sep = genSplit n' s sep.
Proof.
  intros Hsep. revert n' s. induction n as [ | n IH]; intros n' s Hn Hn'.
  - destruct s; [ | simpl in Hn; lia].
    destruct n' as [ | n']; [reflexivity | ]. cbn [genSplit].
    destruct (strings_Index [] sep) as [m | ] eqn:Em; [ | reflexivity].
    apply strings_Index_bound in Em. destruct sep; [congruence | simpl in Em; lia].
  - destruct n' as [ | n'].
    + destruct s; [ | simpl in Hn'; lia]. cbn [genSplit].
      destruct (strings_Index [] sep) as [m | ] eqn:Em; [ | reflexivity].
      apply strings_Index_bound in Em. destruct sep; [congruence | simpl in Em; lia].
    + cbn [genSplit]. destruct (strings_Index s sep) as [m | ] eqn:Em; [ | reflexivity].
      pose proof (strings_Index_bound s sep m Em) as Hm.
      assert (0 < length sep) by (destruct sep; [congruence | simpl; lia]).
      f_equal. apply IH; rewrite length_drop; lia.
Qed.

Lemma strings_LastIndexByte_spec (s : list ascii) (c : ascii) :
  (strings_LastIndexByte s c = (-1)%Z /\ ~ In c s) \/
  (exists k, strings_LastIndexByte s c = Z.of_nat k /\
             s !! k = Some c /\ ~ In c (drop (S k) s)).
Proof.
  induction s as [ | x s IH]; simpl.
  - left. split; [reflexivity | tauto].
  - destruct IH as [[-> Hno] | (k & -> & Hk & Hno)].
    + change (-1 >=? 0)%Z with false. cbn iota.
      destruct (Ascii.eqb x c) eqn:Ex.
      * apply Ascii.eqb_eq in Ex as ->. right. exists 0.
        split; [reflexivity | ]. split; [reflexivity | assumption].
      * apply Ascii.eqb_neq in Ex. left. split; [reflexivity | ].
        intros [E | Hin]; [congruence | tauto].
    + assert (E : (Z.of_nat k >=? 0)%Z = true) by (apply Z.geb_le; lia).
      rewrite E. right. exists (S k). split; [lia | ]. split; assumption.
Qed.

Lemma strings_ReplaceAllByte_absent (s : list ascii) (old : ascii) (new : list ascii) :
  ~ In old s -> strings_ReplaceAllByte s old new = s.
Proof.
  induction s as [ | c s IH]; intros Hno; [reflexivity | ]. simpl.
  destruct (Ascii.eqb c old) eqn:Ec.
  - apply Ascii.eqb_eq in Ec. exfalso. apply Hno. left. assumption.
  - rewrite IH; [reflexivity | ]. intros Hin. apply Hno. right. assumption.
Qed.

Lemma strings_ReplaceAllByte_app (a b : list ascii) (old : ascii) (new : list ascii) :
  strings_ReplaceAllByte (a ++ b) old new
  = strings_ReplaceAllByte a old new ++ strings_ReplaceAllByte b old new.
Proof.
  induction a as [ | c a IH]; [reflexivity | ]. simpl.
  destruct (Ascii.eqb c old); rewrite IH; [rewrite app_assoc | ]; reflexivity.
Qed.

Lemma strings_ReplaceAllByte_keeps_absent (s : list ascii) (c old : ascii)
    (new : list ascii) :
  ~ In c s -> ~ In c new -> ~ In c (strings_ReplaceAllByte s old new).
Proof.
  induction s as [ | x s IH]; intros Hs Hnew; [simpl; tauto | ]. simpl.
  assert (Hs' : ~ In c s) by (intros Hin; apply Hs; right; assumption).
  destruct (Ascii.eqb x old).
  - intros Hin. apply in_app_or in Hin as [Hin | Hin]; [tauto | ].
    apply (IH Hs' Hnew). assumption.
  - intros [E | Hin]; [apply Hs; left; assumption | ].
    apply (IH Hs' Hnew). assumption.
Qed.

Lemma ltEscaped_refl (s : list ascii) : ltEscaped s s.
Proof. induction s; constructor; assumption. Qed.

Lemma ltEscaped_app (a a' b b' : list ascii) :
  ltEscaped a a' -> ltEscaped b b' -> ltEscaped (a ++ b) (a' ++ b').
Proof.
  intros Ha Hb. induction Ha as [ | c s s' Hs IH | s s' Hs IH].
  - assumption.
  - simpl. apply ltEscaped_keep. assumption.
  - rewrite <- app_assoc. apply (ltEscaped_lt (s ++ b)). assumption.
Qed.

Lemma ltEscaped_ReplaceAll (s : list ascii) :
  ltEscaped s (strings_ReplaceAllByte s "<" (bytes "&lt;")).
Proof.
  induction s as [ | c s IH]; [constructor | ]. simpl.
  destruct (Ascii.eqb c "<") eqn:Ec.
  - apply Ascii.eqb_eq in Ec as ->. apply ltEscaped_lt. assumption.
  - apply ltEscaped_keep. assumption.
Qed.

(** The text behind the last [>] of a part holds no [>]: the second
    [ReplaceAll] of the loop body finds nothing to replace. *)
Lemma escapeSpanPart_eq (part : list ascii) :
  exists before text,
    part = before ++ text /\
    escapeSpanPart part
    = before ++ strings_ReplaceAllByte text "<" (bytes "&lt;").
Proof.
  unfold escapeSpanPart.
  destruct (strings_LastIndexByte_spec part ">") as [[-> _] | (k & -> & Hk & Hno)].
  - change (-1 >=? 0)%Z with false. cbn [andb].
    exists part, []. cbn [strings_ReplaceAllByte]. rewrite app_nil_r.
      split; reflexivity.
  - destruct ((Z.of_nat k >=? 0)%Z && (Z.of_nat k <? len part - 1)%Z).
    + replace (Z.to_nat (Z.of_nat k + 1)) with (S k) by lia.
      exists (take (S k) part), (drop (S k) part).
      split; [symmetry; apply take_drop | ]. f_equal.
      apply strings_ReplaceAllByte_absent.
      apply strings_ReplaceAllByte_keeps_absent; [assumption | ].
      vm_compute. intuition discriminate.
    + exists part, []. cbn [strings_ReplaceAllByte]. rewrite app_nil_r.
      split; reflexivity.
Qed.

Lemma escapeSpanPart_ltEscaped (part : list ascii) :
  ltEscaped part (escapeSpanPart part).
Proof.
  destruct (escapeSpanPart_eq part) as (before & text & E & ->).
  rewrite E at 1. apply ltEscaped_app; [apply ltEscaped_refl | ].
  apply ltEscaped_ReplaceAll.
Qed.

Lemma escapeSpanParts_ltEscaped (parts : list (list ascii)) :
  Forall2 ltEscaped parts (escapeSpanParts parts).
Proof.
  induction parts as [ | part [ | part' parts] IH]; [constructor | | ].
  - constructor; [apply ltEscaped_refl | constructor].
  - change (escapeSpanParts (part :: part' :: parts))
      with (escapeSpanPart part :: escapeSpanParts (part' :: parts)).
    constructor; [apply escapeSpanPart_ltEscaped | assumption].
Qed.

Lemma ltEscaped_Join (parts parts' : list (list ascii)) (sep : list ascii) :
  Forall2 ltEscaped parts parts' ->
  ltEscaped (strings_Join parts sep) (strings_Join parts' sep).
Proof.
  induction 1 as [ | part part' parts parts' Hp Hps IH]; [constructor | ].
  destruct Hps as [ | q q' qs qs' Hq Hqs]; [assumption | ].
  change (ltEscaped (part ++ sep ++ strings_Join (q :: qs) sep)
                    (part' ++ sep ++ strings_Join (q' :: qs') sep)).
  apply ltEscaped_app; [assumption | ].
  apply ltEscaped_app; [apply ltEscaped_refl | assumption].
Qed.

Lemma escapeTextInSpans_ltEscaped (line : list ascii) :
  ltEscaped line (escapeTextInSpans line).
Proof.
  unfold escapeTextInSpans, strings_Split.
  rewrite <- (strings_Join_genSplit (length line) line (bytes "</span>")) at 1.
  apply ltEscaped_Join. apply escapeSpanParts_ltEscaped.
Qed.

Lemma ltEscaped_joinByte (parts parts' : list (list ascii)) :
  Forall2 ltEscaped parts parts' ->
  ltEscaped (joinByte newline parts) (joinByte newline parts').
Proof.
  induction 1 as [ | part part' parts parts' Hp Hps IH]; [constructor | ].
  destruct Hps as [ | q q' qs qs' Hq Hqs]; [assumption | ].
  change (ltEscaped (part ++ newline :: joinByte newline (q :: qs))
                    (part' ++ newline :: joinByte newline (q' :: qs'))).
  apply ltEscaped_app; [assumption | ]. apply ltEscaped_keep. assumption.
Qed.

Lemma escapeTextContent_ltEscaped (content : list ascii) :
  ltEscaped content (escapeTextContent content).
Proof.
  unfold escapeTextContent.
  rewrite <- (joinByte_splitByte newline content) at 1.
  apply ltEscaped_joinByte.
  induction (splitByte newline content) as [ | line lines IH]; constructor.
  - destruct (_ && _); [apply escapeTextInSpans_ltEscaped | apply ltEscaped_refl].
  - assumption.
Qed.

(** *** Clean text stays clean *)

Lemma isEntity_bytes (c : ascii) (e : list ascii) :
  isDigit c = false -> ~ In c (concat validEntities) ->
  isEntity e -> ~ In c e.
Proof.
  intros Hd Hc [Hnamed | (ds & Hds & ->)] Hin.
  - apply Hc. apply in_concat. exists e. split; assumption.
  - simpl in Hin. destruct Hin as [<- | [<- | Hin]].
    + apply Hc. vm_compute. tauto.
    + apply Hc. vm_compute. tauto.
    + apply in_app_or in Hin as [Hin | [<- | []]].
      * rewrite forallb_forall in Hds. apply Hds in Hin. congruence.
      * apply Hc. vm_compute. tauto.
Qed.

Lemma app_eq_absent (c : ascii) (e s a b : list ascii) :
  ~ In c e -> e ++ s = a ++ c :: b ->
  exists a', a = e ++ a' /\ s = a' ++ c :: b.
Proof.
  revert a. induction e as [ | x e IH]; intros a He E.
  - exists a. split; [reflexivity | assumption].
  - destruct a as [ | y a]; simpl in E.
    + injection E as -> _. exfalso. apply He. left. reflexivity.
    + injection E as -> E. destruct (IH a) as (a' & -> & ->); [ | assumption | ].
      * intros Hin. apply He. right. assumption.
      * exists a'. split; reflexivity.
Qed.

(** Clean text cut at a byte that no entity holds falls into clean
    pieces. *)
Lemma Clean_cut (c : ascii) (a b : list ascii) :
  isDigit c = false -> ~ In c (concat validEntities) ->
  Clean (a ++ c :: b) -> Clean a /\ Clean b.
Proof.
  intros Hd Hc H. remember (a ++ c :: b) as t eqn:Et. revert a Et.
  induction H as [ | x s Hx Hs IH | e s He Hs IH]; intros a Et.
  - destruct a; discriminate.
  - destruct a as [ | y a]; simpl in Et.
    + injection Et as -> ->. split; [constructor | assumption].
    + injection Et as -> ->. destruct (IH a eq_refl) as [Ha Hb].
      split; [apply Clean_char | ]; assumption.
  - destruct (app_eq_absent c e s a b (isEntity_bytes c e Hd Hc He) Et)
      as (a' & -> & ->).
    destruct (IH a' eq_refl) as [Ha Hb].
    split; [apply Clean_entity | ]; assumption.
Qed.

Lemma Clean_app_absent (c : ascii) (a b : list ascii) :
  isDigit c = false -> ~ In c (concat validEntities) ->
  Clean (a ++ c :: b) -> Clean (a ++ [c]) /\ Clean b.
Proof.
  intros Hd Hc H. destruct (Clean_cut c a b Hd Hc H) as [Ha Hb].
  split; [ | assumption]. apply Clean_app; [assumption | ].
  apply Clean_char; [ | constructor].
  intros ->. apply Hc. vm_compute. tauto.
Qed.

Lemma Clean_ReplaceAll_lt (s : list ascii) :
  Clean s -> Clean (strings_ReplaceAllByte s "<" (bytes "&lt;")).
Proof.
  induction 1 as [ | c s Hc Hs IH | e s He Hs IH].
  - constructor.
  - cbn [strings_ReplaceAllByte]. destruct (Ascii.eqb c "<").
    + apply (Clean_entity (bytes "&lt;")); [left; vm_compute; tauto | assumption].
    + apply Clean_char; assumption.
  - rewrite strings_ReplaceAllByte_app, strings_ReplaceAllByte_absent.
    + apply Clean_entity; assumption.
    + apply isEntity_bytes; [reflexivity | vm_compute; intuition discriminate | assumption].
Qed.

Lemma escapeSpanPart_Clean (part : list ascii) :
  Clean part -> Clean (escapeSpanPart part).
Proof.
  intros Hp. unfold escapeSpanPart.
  destruct (strings_LastIndexByte_spec part ">") as [[-> _] | (k & -> & Hk & Hno)].
  - change (-1 >=? 0)%Z with false. cbn [andb]. assumption.
  - destruct ((Z.of_nat k >=? 0)%Z && (Z.of_nat k <? len part - 1)%Z);
      [ | assumption].
    replace (Z.to_nat (Z.of_nat k + 1)) with (S k) by lia.
    rewrite <- (take_drop_middle part k ">"%char Hk) in Hp.
    apply Clean_app_absent in Hp as [Hbefore Htext];
      [ | reflexivity | vm_compute; intuition discriminate].
    rewrite (take_S_r part k ">"%char Hk).
    apply Clean_app; [assumption | ].
    rewrite (strings_ReplaceAllByte_absent _ ">").
    + apply Clean_ReplaceAll_lt. assumption.
    + apply strings_ReplaceAllByte_keeps_absent; [assumption | ].
      vm_compute. intuition discriminate.
Qed.

Lemma escapeSpanParts_Clean (parts : list (list ascii)) :
  Forall Clean parts -> Forall Clean (escapeSpanParts parts).
Proof.
  induction 1 as [ | part [ | part' parts] Hp Hps IH]; [constructor | | ].
  - constructor; [assumption | constructor].
  - change (escapeSpanParts (part :: part' :: parts))
      with (escapeSpanPart part :: escapeSpanParts (part' :: parts)).
    constructor; [apply escapeSpanPart_Clean | ]; assumption.
Qed.

Lemma Clean_plain_inv (c : ascii) (s : list ascii) :
  c <> "&"%char -> Clean (c :: s) -> Clean s.
Proof.
  intros Hc H. remember (c :: s) as t eqn:Et.
  destruct H as [ | x s' Hx Hs | e s' He Hs]; [discriminate | | ].
  - injection Et as -> ->. assumption.
  - destruct (isEntity_shape e He) as (body & -> & _).
    simpl in Et. injection Et as E _. congruence.
Qed.

Lemma Clean_genSplit (n : nat) (s : list ascii) :
  Clean s -> Forall Clean (genSplit n s (bytes "</span>")).
Proof.
  revert s. induction n as [ | n IH]; intros s Hs; cbn [genSplit].
  - constructor; [assumption | constructor].
  - destruct (strings_Index s (bytes "</span>")) as [m | ] eqn:Em;
      [ | constructor; [assumption | constructor]].
    pose proof (strings_Index_spec s _ m Em) as E.
    rewrite E in Hs.
    change (bytes "</span>" ++ drop (m + length (bytes "</span>")) s)
      with ("<"%char :: bytes "/span>" ++ drop (m + length (bytes "</span>")) s) in Hs.
    apply Clean_cut in Hs as [Ha Hb];
      [ | reflexivity | vm_compute; intuition discriminate].
    cbn [bytes list_ascii_of_string app] in Hb.
    do 6 (apply Clean_plain_inv in Hb; [ | discriminate]).
    constructor; [assumption | ]. apply IH. assumption.
Qed.

Lemma Clean_strings_Join (parts : list (list ascii)) (sep : list ascii) :
  Clean sep -> Forall Clean parts -> Clean (strings_Join parts sep).
Proof.
  intros Hsep. induction 1 as [ | part [ | part' parts] Hp Hps IH];
    [constructor | assumption | ].
  change (Clean (part ++ sep ++ strings_Join (part' :: parts) sep)).
  apply Clean_app; [assumption | ]. apply Clean_app; assumption.
Qed.

Lemma escapeTextInSpans_Clean (line : list ascii) :
  Clean line -> Clean (escapeTextInSpans line).
Proof.
  intros Hl. unfold escapeTextInSpans, strings_Split.
  apply Clean_strings_Join.
  - apply no_amp_Clean. vm_compute. intuition discriminate.
  - apply escapeSpanParts_Clean. apply Clean_genSplit. assumption.
Qed.

Lemma escapeTextContent_Clean (content : list ascii) :
  Clean content -> Clean (escapeTextContent content).
Proof.
  intros Hc. unfold escapeTextContent. apply Clean_joinByte.
  apply Clean_splitByte in Hc. apply Forall_map.
  eapply Forall_impl; [exact Hc | ]. intros line Hl. simpl.
  destruct (_ && _); [apply escapeTextInSpans_Clean | ]; assumption.
Qed.

(** X20. [escapeTextInSpans] and [escapeTextContent] return their input
    with some of its bytes [<] replaced by [&lt;] and nothing else
    changed. In particular no [>] is ever replaced: the text the loop body
    escapes lies behind the last [>] of its part, so the [ReplaceAll] for
    [>] finds nothing. *)
Theorem escapeTextContent_only_escapes_lt (line content : list ascii) :
  ltEscaped line (escapeTextInSpans line) /\
  ltEscaped content (escapeTextContent content).
Proof.
  split.
  - apply escapeTextInSpans_ltEscaped.
  - apply escapeTextContent_ltEscaped.
Qed.

(** X21. The text [cleanChatGPTResponse] returns has no bare ampersand:
    every ampersand starts an entity. [escapeTextContent] keeps what
    [fixAmpersands] has established, since all it inserts is [&lt;]. The
    result is the input with some ampersands replaced by [&amp;] and then
    some [<] replaced by [&lt;]. *)
Theorem cleanChatGPTResponse_no_bare_ampersand (content : list ascii) :
  Clean (cleanChatGPTResponse content) /\
  ampEscaped content (fixAmpersands content) /\
  ltEscaped (fixAmpersands content) (cleanChatGPTResponse content).
Proof.
  unfold cleanChatGPTResponse. split; [ | split].
  - apply escapeTextContent_Clean. apply fixAmpersands_spec.
  - apply fixAmpersands_spec.
  - apply escapeTextContent_ltEscaped.
Qed.

End Escaping.

(** ** The response handed on to the transcription *)

Lemma fold_count {A B} (g : Z -> A -> Z) (f : A -> list B) (l : list A) (count : Z) :
  (forall c a, 0 <= c -> c + len (f a) <= int_max -> g c a = c + len (f a)) ->
  0 <= count -> count + len (l ≫= f) <= int_max ->
  fold_left g l count = count + len (l ≫= f).
Proof.
  intros Hg. revert count. induction l as [ | a l IH]; intros count Hc Hmax.
  - simpl. unfold len. simpl. lia.
  - rewrite bind_cons in Hmax |- *. unfold len in *. rewrite length_app in *.
    simpl. rewrite Hg by (unfold len; lia). rewrite IH by (unfold len in *; lia).
    unfold len. lia.
Qed.

Lemma countWords_responseWords (response : Models.OCRResponse) :
  len (responseWords response) <= int_max ->
  countWords response = len (responseWords response).
Proof.
  unfold countWords, responseWords.
  destruct (Models.Responses response) as [ | r _]; [reflexivity | ].
  destruct (Models.ResponseFullTextAnnotation r) as [annotation | ]; [ | reflexivity].
  intros Hmax. rewrite (fold_count _ (fun page =>
    block ← Models.Blocks page; paragraph ← Models.Paragraphs block;
    Models.Words paragraph)); [lia | | lia | lia].
  intros c page Hc Hpage.
  rewrite (fold_count _ (fun block =>
    paragraph ← Models.Paragraphs block; Models.Words paragraph));
    [reflexivity | | assumption | assumption].
  intros c' block Hc' Hblock.
  rewrite (fold_count _ Models.Words); [reflexivity | | assumption | assumption].
  intros c'' paragraph Hc'' Hparagraph. apply add_small.
  unfold in_range, int_min, int_max, len in *. lia.
Qed.

Lemma bind_imap_single {A B C} (g : nat -> A -> B) (h : B -> list C)
    (w : nat -> A -> C) (l : list A) :
  (forall i x, h (g i x) = [w i x]) -> imap g l ≫= h = imap w l.
Proof.
  revert g w. induction l as [ | x l IH]; intros g w Hgw; [reflexivity | ].
  rewrite !imap_cons, bind_cons, Hgw. simpl. f_equal.
  apply IH. intros i y. apply Hgw.
Qed.

Lemma responseWords_convert (lines : list LineBox) (width height : Z) :
  responseWords (convertWordsAndLinesToOCRResponse lines width height)
  = imap lineWord lines.
Proof.
  unfold responseWords, convertWordsAndLinesToOCRResponse. simpl.
  rewrite !app_nil_r. apply bind_imap_single. reflexivity.
Qed.

Lemma Forall2_imap {A B} (P : A -> B -> Prop) (w : nat -> A -> B) (l : list A) :
  (forall i x, In x l -> P x (w i x)) -> Forall2 P l (imap w l).
Proof.
  revert w. induction l as [ | x l IH]; intros w Hw;
    [constructor | rewrite imap_cons; constructor].
  - apply Hw. left. reflexivity.
  - apply IH. intros i y Hy. apply Hw. right. assumption.
Qed.

(** X22. [countWords] returns the number of words that the loops over the
    pages, blocks and paragraphs of the first response walk through, and 0
    for a response list that is empty or starts with a nil annotation.
    For the response that [convertWordsAndLinesToOCRResponse] builds this
    is the number of lines. *)
Theorem countWords_counts_lines
    (response : Models.OCRResponse) (lines : list LineBox) (width height : Z) :
  len (responseWords response) <= int_max -> len lines <= int_max ->
  countWords response = len (responseWords response) /\
  countWords (convertWordsAndLinesToOCRResponse lines width height) = len lines /\
  countWords (Models.mkOCRResponse []) = 0 /\
  (forall rest, countWords (Models.mkOCRResponse (Models.mkResponse None :: rest)) = 0).
Proof.
  intros Hresponse Hlines. split; [apply countWords_responseWords; assumption | ].
  split; [ | split; [reflexivity | intros rest; reflexivity]].
  rewrite countWords_responseWords; rewrite responseWords_convert;
    unfold len; rewrite length_imap; [reflexivity | assumption].
Qed.

Lemma countWords_counts_lines_witness :
  countWords (convertWordsAndLinesToOCRResponse
                [createLineFromWords [wordRight; wordLeft]] 640 480)
  = len (responseWords (convertWordsAndLinesToOCRResponse
                          [createLineFromWords [wordRight; wordLeft]] 640 480)) /\
  countWords (convertWordsAndLinesToOCRResponse
                [createLineFromWords [wordLeft]; createLineFromWords [wordRight]]
                640 480)
  = len [createLineFromWords [wordLeft]; createLineFromWords [wordRight]] /\
  countWords (Models.mkOCRResponse []) = 0 /\
  (forall rest, countWords (Models.mkOCRResponse (Models.mkResponse None :: rest)) = 0).
Proof.
  apply (countWords_counts_lines
           (convertWordsAndLinesToOCRResponse
              [createLineFromWords [wordRight; wordLeft]] 640 480)
           [createLineFromWords [wordLeft]; createLineFromWords [wordRight]]
           640 480).
  - vm_compute. discriminate.
  - vm_compute. discriminate.
Defined.

Lemma extractWordImage_crop_few (bbox : Models.BoundingPoly) :
  len (Models.Vertices bbox) < 4 ->
  extractWordImage_crop bbox = Done (inl "invalid bounding box"%string).
Proof.
  intros Hfew. unfold extractWordImage_crop.
  apply Z.ltb_lt in Hfew. rewrite Hfew. reflexivity.
Qed.

Lemma extractWordImage_crop_four (v0 v1 v2 v3 : Models.Vertex)
    (more : list Models.Vertex) :
  0 <= Models.X v0 <= int_max -> 0 <= Models.Y v0 <= int_max ->
  0 <= Models.X v2 <= int_max - 6 -> 0 <= Models.Y v2 <= int_max - 6 ->
  let bbox := Models.mkBoundingPoly (v0 :: v1 :: v2 :: v3 :: more) in
  (Models.X v0 < Models.X v2 /\ Models.Y v0 < Models.Y v2 ->
   exists crop,
     extractWordImage_crop bbox = Done (inr crop) /\
     cropCovers crop (Models.X v0) (Models.Y v0) (Models.X v2) (Models.Y v2)) /\
  (Models.X v2 <= Models.X v0 \/ Models.Y v2 <= Models.Y v0 ->
   extractWordImage_crop bbox = Done (inl "invalid dimensions"%string)).
Proof.
  intros Hx0 Hy0 Hx2 Hy2 bbox.
  assert (Hlen : (len (Models.Vertices bbox) <? 4) = false).
  { apply Z.ltb_ge. unfold len, bbox. simpl. lia. }
  assert (Hw : Models.X v2 [-] Models.X v0 = Models.X v2 - Models.X v0).
  { apply sub_small. unfold in_range, int_min, int_max in *. lia. }
  assert (Hh : Models.Y v2 [-] Models.Y v0 = Models.Y v2 - Models.Y v0).
  { apply sub_small. unfold in_range, int_min, int_max in *. lia. }
  unfold extractWordImage_crop. rewrite Hlen. unfold bbox. cbn [Models.Vertices].
  change (index (v0 :: v1 :: v2 :: v3 :: more) 0) with (Done v0).
  change (index (v0 :: v1 :: v2 :: v3 :: more) 2) with (Done v2).
  cbn [mbind outcome_bind]. rewrite Hw, Hh. split.
  - intros [Hx Hy].
    assert (E : (Models.X v2 - Models.X v0 <=? 0) || (Models.Y v2 - Models.Y v0 <=? 0)
                = false).
    { apply orb_false_iff. split; apply Z.leb_gt; lia. }
    rewrite E. eexists. split; [reflexivity | ].
    unfold cropCovers. rewrite !max_spec.
    rewrite !sub_small, !add_small
      by (unfold in_range, int_min, int_max in *; lia).
    lia.
  - intros Hbad.
    assert (E : (Models.X v2 - Models.X v0 <=? 0) || (Models.Y v2 - Models.Y v0 <=? 0)
                = true).
    { apply orb_true_iff. destruct Hbad; [left | right]; apply Z.leb_le; lia. }
    rewrite E. reflexivity.
Qed.

(** X23. [extractWordImage] returns the error [invalid bounding box] for a
    polygon of fewer than four vertices. For a polygon of at least four
    vertices whose first and third lie at non-negative coordinates, the
    third at least six short of the largest [int], it returns the error
    [invalid dimensions] when the third vertex is not to the right of and
    below the first; otherwise it asks for a crop rectangle that starts at
    non-negative coordinates and holds the box spanned by the first and
    the third vertex, with a margin of three pixels to the right and
    below. It never indexes the vertices out of range. *)
Theorem extractWordImage_crop_covers_box
    (v0 v1 v2 v3 : Models.Vertex) (more : list Models.Vertex) :
  0 <= Models.X v0 <= int_max -> 0 <= Models.Y v0 <= int_max ->
  0 <= Models.X v2 <= int_max - 6 -> 0 <= Models.Y v2 <= int_max - 6 ->
  let bbox := Models.mkBoundingPoly (v0 :: v1 :: v2 :: v3 :: more) in
  (Models.X v0 < Models.X v2 /\ Models.Y v0 < Models.Y v2 ->
   exists crop,
     extractWordImage_crop bbox = Done (inr crop) /\
     cropCovers crop (Models.X v0) (Models.Y v0) (Models.X v2) (Models.Y v2)) /\
  (Models.X v2 <= Models.X v0 \/ Models.Y v2 <= Models.Y v0 ->
   extractWordImage_crop bbox = Done (inl "invalid dimensions"%string)) /\
  (forall few, len (Models.Vertices few) < 4 ->
               extractWordImage_crop few = Done (inl "invalid bounding box"%string)).
Proof.
  intros Hx0 Hy0 Hx2 Hy2 bbox.
  destruct (extractWordImage_crop_four v0 v1 v2 v3 more Hx0 Hy0 Hx2 Hy2)
    as [Hok Hbad].
  split; [exact Hok | ]. split; [exact Hbad | ].
  intros few Hfew. apply extractWordImage_crop_few. assumption.
Qed.

Lemma extractWordImage_crop_covers_box_witness :
  let bbox := Models.mkBoundingPoly
                [Models.mkVertex 1 20; Models.mkVertex 41 20;
                 Models.mkVertex 41 32; Models.mkVertex 1 32] in
  (1 < 41 /\ 20 < 32 ->
   exists crop,
     extractWordImage_crop bbox = Done (inr crop) /\ cropCovers crop 1 20 41 32) /\
  (41 <= 1 \/ 32 <= 20 ->
   extractWordImage_crop bbox = Done (inl "invalid dimensions"%string)) /\
  (forall few, len (Models.Vertices few) < 4 ->
               extractWordImage_crop few = Done (inl "invalid bounding box"%string)).
Proof.
  apply (extractWordImage_crop_covers_box
           (Models.mkVertex 1 20) (Models.mkVertex 41 20)
           (Models.mkVertex 41 32) (Models.mkVertex 1 32) []).
  - unfold int_max. simpl. lia.
  - unfold int_max. simpl. lia.
  - unfold int_max. simpl. lia.
  - unfold int_max. simpl. lia.
Defined.

Lemma line_crop (img : Image) (l : LineBox) (i : nat) :
  Dx img <= int_max - 6 -> Dy img <= int_max - 6 ->
  Words l <> [] -> unionLine (Words l) l -> lineInside img l ->
  Forall (fun w => insideImage img w /\ positive_box w) (Words l) ->
  exists crop,
    extractWordImage_crop (Models.WordBoundingBox (lineWord i l)) = Done (inr crop) /\
    cropCovers crop (LX l) (LY l) (LX l + LWidth l) (LY l + LHeight l).
Proof.
  intros HW HH Hne (Hall & _) (Hx & Hy & Hx' & Hy') Hwords.
  destruct (Words l) as [ | w ws]; [congruence | ].
  apply Forall_cons_1 in Hall as [(Hwx & Hwy & Hwx' & Hwy') _].
  apply Forall_cons_1 in Hwords as [(_ & Hpw & Hph) _].
  assert (Ex : LX l [+] LWidth l = LX l + LWidth l).
  { apply add_small. unfold in_range, int_min, int_max in *. lia. }
  assert (Ey : LY l [+] LHeight l = LY l + LHeight l).
  { apply add_small. unfold in_range, int_min, int_max in *. lia. }
  unfold lineWord, lineVertices. cbn [Models.WordBoundingBox]. rewrite Ex, Ey.
  apply (extractWordImage_crop_four
           (Models.mkVertex (LX l) (LY l))
           (Models.mkVertex (LX l + LWidth l) (LY l))
           (Models.mkVertex (LX l + LWidth l) (LY l + LHeight l))
           (Models.mkVertex (LX l) (LY l + LHeight l)) []);
    cbn [Models.X Models.Y]; unfold int_max in *; lia.
Qed.

(** X24. Under the conditions of the detection (a [sort.Slice] that
    permutes, a representable pixel count, a deep enough stack) and for an
    image at least six pixels short of the largest [int] in each
    direction, every word of the response that
    [convertWordsAndLinesToOCRResponse] builds from the detected lines
    passes the checks of [extractWordImage]: the polygon has four
    vertices, width and height are positive, and the crop rectangle holds
    the bounding box of the line. There is one such word per line, in the
    order of the lines. *)
Theorem detected_lines_yield_crops
    (shouldMerge : WordBox -> WordBox -> bool)
    (sameLine : list WordBox -> WordBox -> bool)
    (sort_Slice : (WordBox -> WordBox -> bool) -> list WordBox -> list WordBox)
    (stack : nat) (img : Image) (width height : Z) :
  (forall less l, Permutation (sort_Slice less l) l) ->
  0 <= Dx img <= int_max - 6 -> 0 <= Dy img <= int_max - 6 ->
  Dx img * Dy img <= int_max ->
  (Z.to_nat (Dx img) * Z.to_nat (Dy img) < stack)%nat ->
  exists lines,
    detectLinesWith shouldMerge sameLine sort_Slice stack img = Done lines /\
    Forall2
      (fun l w =>
         exists crop,
           extractWordImage_crop (Models.WordBoundingBox w) = Done (inr crop) /\
           cropCovers crop (LX l) (LY l) (LX l + LWidth l) (LY l + LHeight l))
      lines
      (responseWords (convertWordsAndLinesToOCRResponse lines width height)).
Proof.
  intros Hperm [Hx HW] [Hy HH] Hprod Hstack.
  destruct (detectLines_geometry shouldMerge sameLine sort_Slice stack img Hperm)
    as (lines & Hrun & Hlines); try assumption;
    try (unfold in_range, int_min, int_max in *; lia).
  exists lines. split; [assumption | ].
  rewrite responseWords_convert. apply Forall2_imap.
  intros i l Hl. rewrite Forall_forall in Hlines.
  apply list_elem_of_In in Hl.
  destruct (Hlines l Hl) as (Hne & Hunion & Hinside & Hwords).
  apply (line_crop img); assumption.
Qed.

Lemma detected_lines_yield_crops_witness :
  exists lines,
    detectLinesWith Ocr.shouldMergeComponents Ocr.wordsOnSameLine
      insertionSort_func 2401 pageImage = Done lines /\
    Forall2
      (fun l w =>
         exists crop,
           extractWordImage_crop (Models.WordBoundingBox w) = Done (inr crop) /\
           cropCovers crop (LX l) (LY l) (LX l + LWidth l) (LY l + LHeight l))
      lines
      (responseWords (convertWordsAndLinesToOCRResponse lines 40 60)).
Proof.
  apply (detected_lines_yield_crops Ocr.shouldMergeComponents
           Ocr.wordsOnSameLine insertionSort_func 2401 pageImage 40 60).
  - intros less l. apply insertionSort_perm.
  - unfold int_max. simpl. lia.
  - unfold int_max. simpl. lia.
  - unfold int_max. simpl. lia.
  - simpl. lia.
Defined.

(** ** The order of the components *)

Lemma scanPixel_top (stack : nat) img y x s s' :
  in_range (Dx img) -> in_range (Dy img) ->
  0 <= x < Dx img -> 0 <= y < Dy img ->
  (forall a b, inBounds img a b -> b < y -> isTextPixel (At img a b) = true ->
               marked s.1 a b) ->
  scanPixel stack img y s x = Done s' ->
  (forall a b, marked s.1 a b -> marked s'.1 a b) /\
  exists new, s'.2 = s.2 ++ new /\ Forall (fun b => Y b = y) new.
Proof.
  intros HW HH Hx Hy. destruct s as [v components]. simpl. intros Habove.
  unfold scanPixel. intros H. apply bind_Done in H as (seen & Hseen & H).
  destruct (negb seen && isTextPixel (At img x y)) eqn:Hcond.
  2:{ injection H as <-. simpl. split; [auto | ].
      exists []. rewrite app_nil_r. split; [reflexivity | constructor]. }
  apply bind_Done in H as (st & Hfill & H).
  pose proof (floodFill_callSpec img HW HH _ _ _ _ _ Hfill)
    as ((G & Snd & (T1 & T2 & T3 & T4) & _) & _ & _).
  simpl in *.
  assert (HminY : minY st = y).
  { destruct T3 as [E | (a & b & F & E)]; [assumption | ].
    destruct (Snd a b F) as [(Hin & Ht & Hun) _].
    destruct G as (_ & _ & _ & Hle & _). simpl in Hle.
    destruct (Z_lt_ge_dec b y) as [Hlt | Hge]; [ | lia].
    exfalso. apply Hun. apply Habove; assumption. }
  destruct (isValidWordSize _ _ _ _); injection H as <-; simpl.
  - split; [apply G | ]. eexists. split; [reflexivity | ].
    constructor; [simpl; assumption | constructor].
  - split; [apply G | ]. exists []. rewrite app_nil_r.
    split; [reflexivity | constructor].
Qed.

Lemma scanRow_top (stack : nat) img y s s' :
  in_range (Dx img) -> in_range (Dy img) -> 0 <= y < Dy img ->
  (forall a b, inBounds img a b -> b < y -> isTextPixel (At img a b) = true ->
               marked s.1 a b) ->
  foldM (scanPixel stack img y) (upto (Dx img)) s = Done s' ->
  exists new, s'.2 = s.2 ++ new /\ Forall (fun b => Y b = y) new.
Proof.
  intros HW HH Hy Habove Hrun.
  pose proof (foldM_prefix
    (fun _ t => (forall a b, marked s.1 a b -> marked t.1 a b) /\
                exists new, t.2 = s.2 ++ new /\ Forall (fun b => Y b = y) new)
    (scanPixel stack img y) (upto (Dx img)) [] s s') as Hfold.
  simpl in Hfold. apply Hfold; [ | | assumption].
  - split; [auto | ]. exists []. rewrite app_nil_r. split; [reflexivity | constructor].
  - intros _ x t t' Hx (Hkeep & new & Enew & Hnew) Hstep. apply In_upto in Hx.
    destruct (scanPixel_top stack img y x t t' HW HH Hx Hy) as (Hkeep' & new' & E' & Hnew');
      [ | assumption | ].
    { intros a b Hin Hlt Ht. apply Hkeep. apply Habove; assumption. }
    split; [auto | ]. exists (new ++ new'). rewrite E', Enew, app_assoc.
    split; [reflexivity | ]. apply Forall_app. split; assumption.
Qed.

Lemma same_top_sorted (y : Z) (new : list WordBox) :
  Forall (fun b => Y b = y) new ->
  StronglySorted (fun b b' => Y b <= Y b') new.
Proof.
  induction 1 as [ | b new Hb Hnew IH]; constructor; [assumption | ].
  eapply Forall_impl; [exact Hnew | ]. simpl. intros b' Hb'. lia.
Qed.

Lemma scanRows_top (stack : nat) img :
  in_range (Dx img) -> in_range (Dy img) ->
  forall (n k : nat) s s',
    Z.of_nat (k + n) <= Dy img ->
    scanInv img s ->
    (forall a b, inBounds img a b -> b < Z.of_nat k ->
                 isTextPixel (At img a b) = true -> marked s.1 a b) ->
    StronglySorted (fun b b' => Y b <= Y b') s.2 ->
    Forall (fun b => Y b < Z.of_nat k) s.2 ->
    foldM (fun s y => foldM (scanPixel stack img y) (upto (Dx img)) s)
          (map Z.of_nat (seq k n)) s = Done s' ->
    StronglySorted (fun b b' => Y b <= Y b') s'.2.
Proof.
  intros HW HH. induction n as [ | n IH]; intros k s s' Hk Hinv Habove Hsorted Hbelow Hrun.
  - simpl in Hrun. injection Hrun as <-. assumption.
  - simpl in Hrun.
    destruct (foldM (scanPixel stack img (Z.of_nat k)) (upto (Dx img)) s)
      as [s1 | | ] eqn:Hrow; try discriminate.
    assert (Hy : 0 <= Z.of_nat k < Dy img) by lia.
    destruct (scanRow_step stack img _ s s1 HW HH Hy Hinv Hrow)
      as (Hinv1 & Hkeep & Hmarked).
    destruct (scanRow_top stack img _ s s1 HW HH Hy Habove Hrow)
      as (new & Enew & Hnew).
    apply (IH (S k) s1 s'); [lia | assumption | | | | assumption].
    + intros a b Hin Hlt Ht. destruct (Z.eq_dec b (Z.of_nat k)) as [-> | Hne].
      * apply Hmarked; [ | assumption]. apply upto_In. apply Hin.
      * apply Hkeep. apply Habove; [assumption | lia | assumption].
    + rewrite Enew. apply StronglySorted_app_2.
      * intros b1 b2 H1 H2. rewrite Forall_forall in Hbelow, Hnew.
        specialize (Hbelow b1 H1). specialize (Hnew b2 H2). simpl in *. lia.
      * assumption.
      * apply (same_top_sorted (Z.of_nat k)). assumption.
    + rewrite Enew. apply Forall_app. split.
      * eapply Forall_impl; [exact Hbelow | ]. simpl. intros b Hb. lia.
      * eapply Forall_impl; [exact Hnew | ]. simpl. intros b Hb. lia.
Qed.

(** X25. [findWordComponents] returns the boxes from top to bottom: the
    [Y] coordinates of the returned boxes never decrease along the
    slice. The scan goes row by row, and the component found at a pixel
    has no pixel in a row above, since the text pixels of those rows have
    all been filled before. *)
Theorem findWordComponents_boxes_top_down
    (stack : nat) (img : Image) (components : list WordBox) :
  in_range (Dx img) -> in_range (Dy img) ->
  findWordComponents stack img = Done components ->
  StronglySorted (fun b b' => Y b <= Y b') components.
Proof.
  intros HW HH. unfold findWordComponents. intros H.
  apply bind_Done in H as (v & Hv & H).
  apply bind_Done in H as (s & Hs & H). injection H as <-.
  assert (Hdy : 0 <= Dy img).
  { unfold makeVisited in Hv.
    destruct ((Dy img <? 0) || ((0 <? Dy img) && (Dx img <? 0))) eqn:E;
      [discriminate | ].
    apply orb_false_iff in E as [E _]. apply Z.ltb_ge in E. assumption. }
  unfold upto at 1 in Hs.
  apply (scanRows_top stack img HW HH (Z.to_nat (Dy img)) 0%nat (v, []) s);
    try assumption.
  - lia.
  - apply scanInv_initial. assumption.
  - intros a b [_ Hb] Hlt. simpl in Hlt. lia.
  - constructor.
  - constructor.
Qed.

Lemma findWordComponents_boxes_top_down_witness :
  StronglySorted (fun b b' => Y b <= Y b')
    [mkWordBox 5 3 10 11 "word_1"; mkWordBox 20 30 10 11 "word_2"].
Proof.
  apply (findWordComponents_boxes_top_down 200 twoWordImage).
  - unfold in_range, int_min, int_max. simpl. lia.
  - unfold in_range, int_min, int_max. simpl. lia.
  - vm_compute. reflexivity.
Defined.

(** ** The comparators and the shape of a merged word *)

Lemma abs_sub (a b : Z) :
  0 <= a <= int_max -> 0 <= b <= int_max -> abs (a [-] b) = Z.abs (a - b).
Proof.
  intros Ha Hb. rewrite sub_small by (unfold in_range, int_min, int_max in *; lia).
  unfold abs, neg. destruct (Z.ltb_spec (a - b) 0).
  - rewrite wrap_small by (unfold in_range, int_min, int_max in *; lia). lia.
  - lia.
Qed.

Lemma pixel_box_Y (b : WordBox) : pixel_box b -> 0 <= Y b <= int_max.
Proof. unfold pixel_box. lia. Qed.

(** X26. The comparators that [refineComponentsToWords] and
    [groupWordsIntoLines] hand to [sort.Slice] never put a box before
    itself. On boxes in pixel coordinates the first never puts two boxes
    each before the other; the second, which compares the vertical
    distance with half the height of its first argument only, is
    guaranteed not to do so for two words of the same height. *)
Theorem comparators_never_contradict (a b : WordBox) :
  lessComponents a a = false /\ lessWords a a = false /\
  (pixel_box a -> pixel_box b ->
   (lessComponents a b = true -> lessComponents b a = false) /\
   (Height a = Height b -> lessWords a b = true -> lessWords b a = false)).
Proof.
  assert (Hzero : abs (Y a [-] Y a) = 0).
  { unfold sub. rewrite Z.sub_diag. reflexivity. }
  unfold lessComponents, lessWords. rewrite Hzero.
  split; [ | split].
  - destruct (_ <? 10); apply Z.ltb_irrefl.
  - destruct (_ <? _); apply Z.ltb_irrefl.
  - intros Ha Hb. pose proof (pixel_box_Y a Ha) as Hya.
    pose proof (pixel_box_Y b Hb) as Hyb.
    rewrite (abs_sub (Y a) (Y b)), (abs_sub (Y b) (Y a)) by assumption.
    replace (Z.abs (Y b - Y a)) with (Z.abs (Y a - Y b)) by lia.
    split.
    + destruct (Z.abs (Y a - Y b) <? 10); rewrite Z.ltb_lt, Z.ltb_ge; lia.
    + intros <-. destruct (Z.abs (Y a - Y b) <? Height a [/] 2);
        rewrite Z.ltb_lt, Z.ltb_ge; lia.
Qed.

Lemma comparators_never_contradict_witness :
  (lessComponents wordFirst wordFirst = false /\
   lessWords wordFirst wordFirst = false /\
   (pixel_box wordFirst -> pixel_box wordSecond ->
    (lessComponents wordFirst wordSecond = true ->
     lessComponents wordSecond wordFirst = false) /\
    (Height wordFirst = Height wordSecond -> lessWords wordFirst wordSecond = true ->
     lessWords wordSecond wordFirst = false))) /\
  pixel_box wordFirst /\ pixel_box wordSecond /\
  lessComponents wordFirst wordSecond = true /\
  Height wordFirst = Height wordSecond /\ lessWords wordFirst wordSecond = true.
Proof.
  split; [apply (comparators_never_contradict wordFirst wordSecond) | ].
  repeat split; try (vm_compute; reflexivity);
    unfold int_max; simpl; lia.
Defined.

Lemma shouldMerge_side_by_side (a b : WordBox) :
  pixel_box a -> pixel_box b ->
  Ocr.shouldMergeComponents a b = true -> X a + Width a <= X b.
Proof.
  intros Ha Hb Hm. apply (shouldMerge_iff a b Ha Hb) in Hm as [Hgap _].
  unfold gapWithin in Hgap. lia.
Qed.

Lemma chained_side_by_side (g : list WordBox) :
  Forall pixel_box g -> chained Ocr.shouldMergeComponents g ->
  StronglySorted (fun a b => X a + Width a <= X b) g.
Proof.
  induction g as [ | a g IH]; intros Hpix Hch; [constructor | ].
  apply Forall_cons_1 in Hpix as [Ha Hpix].
  destruct g as [ | b g]; [repeat constructor | ].
  destruct Hch as [Hab Hch]. specialize (IH Hpix Hch).
  pose proof Hpix as Hpix'. apply Forall_cons_1 in Hpix' as [Hb _].
  pose proof (shouldMerge_side_by_side a b Ha Hb Hab) as Rab.
  constructor; [assumption | ]. constructor; [assumption | ].
  apply StronglySorted_inv in IH as [_ Hrest].
  eapply Forall_impl; [exact Hrest | ]. simpl. intros c Hc.
  destruct Hb as (_ & _ & Hwb & _). lia.
Qed.

(** X27. A run that [mergeNearbyComponents] merges consists of boxes side
    by side: each lies entirely to the right of those before it in the
    run (on boxes in pixel coordinates). Hence the merged box reaches
    from the left edge of the first box of the run to the right edge of
    its last. *)
Theorem merged_word_spans_first_to_last
    (shouldMerge : WordBox -> WordBox -> bool)
    (group : list WordBox) (first final w : WordBox) :
  shouldMerge = Ocr.shouldMergeComponents \/
  shouldMerge = Hocr.shouldMergeComponents ->
  Forall pixel_box group -> chained shouldMerge group ->
  head group = Some first -> last group = Some final ->
  mergeComponentGroup group = Done w ->
  StronglySorted (fun a b => X a + Width a <= X b) group /\
  X w = X first /\ X w + Width w = X final + Width final.
Proof.
  intros Hsm Hpix Hch Hfirst Hfinal Hw.
  assert (Hch' : chained Ocr.shouldMergeComponents group).
  { destruct Hsm as [-> | ->]; [assumption | ].
    clear - Hch. induction group as [ | a [ | b g] IH]; simpl in *; try tauto.
    destruct Hch as [Hab Hch]. rewrite shouldMerge_same. tauto. }
  pose proof (chained_side_by_side group Hpix Hch') as Hsorted.
  split; [assumption | ].
  assert (Hne : group <> []) by (destruct group; [discriminate | congruence]).
  destruct (mergeComponentGroup_union group Hne Hpix) as (w' & Hw' & Hunion).
  assert (w' = w) by congruence. subst w'.
  destruct Hunion as (Hall & Ex0 & _ & Ex1 & _).
  rewrite Forall_forall in Hall, Hpix.
  split.
  - destruct group as [ | f rest]; [discriminate | ]. injection Hfirst as ->.
    apply Exists_exists in Ex0 as (b & Hb & E).
    pose proof (Hall first (list_elem_of_here _ _)) as Hf.
    apply StronglySorted_inv in Hsorted as [_ Hrest]. rewrite Forall_forall in Hrest.
    apply elem_of_cons in Hb as [-> | Hb]; [lia | ].
    specialize (Hrest b Hb). simpl in Hrest.
    pose proof (Hpix first (list_elem_of_here _ _)) as (_ & _ & Hwf & _). lia.
  - apply last_Some in Hfinal as [pre ->].
    apply Exists_exists in Ex1 as (b & Hb & E).
    assert (Hin : final ∈ pre ++ [final])
      by (apply elem_of_app; right; apply list_elem_of_here).
    pose proof (Hall final Hin) as Hf.
    apply elem_of_app in Hb as [Hb | Hb].
    + pose proof (StronglySorted_app_1_elem_of _ pre [final] b final Hsorted Hb
                    (list_elem_of_here _ _)) as Hbf.
      simpl in Hbf. pose proof (Hpix final Hin) as (_ & _ & Hwf & _). lia.
    + apply list_elem_of_singleton in Hb as ->. lia.
Qed.

Lemma merged_word_spans_first_to_last_witness :
  StronglySorted (fun a b => X a + Width a <= X b)
    [mkWordBox 0 0 10 12 "word_1"; mkWordBox 12 2 9 12 "word_2"] /\
  X (mkWordBox 0 0 21 14 "merged_word_2") = X (mkWordBox 0 0 10 12 "word_1") /\
  X (mkWordBox 0 0 21 14 "merged_word_2") + Width (mkWordBox 0 0 21 14 "merged_word_2")
  = X (mkWordBox 12 2 9 12 "word_2") + Width (mkWordBox 12 2 9 12 "word_2").
Proof.
  apply (merged_word_spans_first_to_last Ocr.shouldMergeComponents
           [mkWordBox 0 0 10 12 "word_1"; mkWordBox 12 2 9 12 "word_2"]).
  - left. reflexivity.
  - repeat constructor; unfold int_max; simpl; lia.
  - simpl. split; [vm_compute; reflexivity | exact I].
  - reflexivity.
  - reflexivity.
  - vm_compute. reflexivity.
Defined.
